(** * Routes and URLs: a model of [packages/routing/src/index.ts]

    The library maps decorated route objects to relative URLs
    ([toRelativeUrl], [toRelativePath]) and back ([fromUrl]), and keeps a
    registry of named routes for reverse lookup ([route], [definedRoutes],
    [from]).

    The file has four layers.
    - [Js]: the part of the JavaScript runtime the code calls
      (strings as sequences of UTF-16 code units, [encodeURIComponent],
      [decodeURIComponent], [URLSearchParams], property enumeration order,
      [toString] and loose comparison with [false]).
    - [Routing]: the functions of [index.ts], one definition per function.
    - [Next]: the hook [useRoute], which calls [fromUrl] with the route of
      the Next.js router.
    - the properties.

    Modelling conventions.
    - A JavaScript object used as a record is the list of its own
      string-keyed properties in creation order; [Js.entries] gives the
      order in which the engine enumerates them (array-index keys first).
      Field values are undefined, null, booleans, strings, arrays and plain
      records.
    - The objects that the library creates with [{}] inherit from
      [Object.prototype], which is as the engine creates it.  An
      assignment to [__proto__] on such an object stores nothing
      ([Js.put]), and reading a name that is no own property finds the
      member of that name ([Js.inherited]; see [Routing.group_value],
      [Routing.route] and [Routing.definedRoutes]).  A decorator that names
      a group called like a member would write to that member, which the
      model does not follow: the call has the outcome [Unsupported], and
      the properties of the registry are about histories without such a
      call ([plain_groups]).
    - [new RegExp]: the model reads the sources made of escaped text and
      of named groups with ASCII names ([Routing.supported]).  For a
      placeholder that starts with [=] or [!] (a lookbehind) or whose name
      holds a character outside ASCII, the outcome is [Unsupported].
    - A thrown exception is the [Throw] outcome of the function.
      [Unsupported] is no exception: it marks an input outside the model,
      and a property of the program is a property of the other outcomes.
      An exception that a user supplied serde function throws is the
      outcome [UserError], whatever its class; the other errors are those
      that the library and the runtime functions it calls raise
      themselves. *)

From Stdlib Require Import List NArith ZArith Bool Ascii String Lia Permutation.
Import ListNotations.

Set Implicit Arguments.

(** ** Outcomes *)

Inductive error :=
| TypeError
| SyntaxError
| URIError
| ParseError                                  (* "Could not parse URL to route" *)
| MissingPathFieldError (key : list N)        (* "URL is missing path field for 'key'." *)
| MissingQueryFieldError (key : list N)       (* "URL is missing query field for 'key,...'." *)
| PatternUnfulfilledError                     (* "Not all patterns fulfilled" *)
| UserError (what : list N)                   (* thrown by a user supplied serde function *)
| Unsupported.                                (* no exception: the input is outside this model *)

Inductive result (A : Type) :=
| Ok (a : A)
| Throw (e : error).

Arguments Ok {A} a.
Arguments Throw {A} e.

Definition bind {A B} (r : result A) (k : A -> result B) : result B :=
  match r with
  | Ok a => k a
  | Throw e => Throw e
  end.

Notation "x <- r ;; k" := (bind r (fun x => k))
  (at level 61, r at next level, right associativity).

(** The body of a [for ... of] loop that can throw, run over a list. *)
Fixpoint foldM {A S} (step : S -> A -> result S) (l : list A) (s : S) : result S :=
  match l with
  | [] => Ok s
  | a :: l' => s' <- step s a ;; foldM step l' s'
  end.

(** ** The JavaScript runtime *)

Module Js.

Local Open Scope N_scope.

(** *** Strings *)

Definition jsstring := list N.

Definition ch (a : ascii) : N := N_of_ascii a.
Arguments ch a%_char : simpl never.

Definition js (s : string) : jsstring := map N_of_ascii (list_ascii_of_string s).
Arguments js s%_string : simpl never.

Fixpoint eqb_str (s t : jsstring) : bool :=
  match s, t with
  | [], [] => true
  | c :: s', d :: t' => (c =? d) && eqb_str s' t'
  | _, _ => false
  end.

Definition mem (c : N) (set : jsstring) : bool := existsb (N.eqb c) set.

(** [strip_prefix p s] is the rest of [s] after the prefix [p]. *)
Fixpoint strip_prefix (p s : jsstring) : option jsstring :=
  match p, s with
  | [], _ => Some s
  | c :: p', d :: s' => if c =? d then strip_prefix p' s' else None
  | _ :: _, [] => None
  end.

(** [String.prototype.includes]. *)
Fixpoint includes (needle s : jsstring) : bool :=
  match strip_prefix needle s with
  | Some _ => true
  | None => match s with
            | [] => false
            | _ :: s' => includes needle s'
            end
  end.

(** [String.prototype.replace] with a string pattern: the first occurrence
    only.  The replacement is inserted as it is; the callers pass the result
    of [encodeURIComponent], which holds no [$]. *)
Fixpoint replace_first (needle repl s : jsstring) : jsstring :=
  match strip_prefix needle s with
  | Some rest => repl ++ rest
  | None => match s with
            | [] => []
            | c :: s' => c :: replace_first needle repl s'
            end
  end.

Fixpoint join (sep : jsstring) (l : list jsstring) : jsstring :=
  match l with
  | [] => []
  | [s] => s
  | s :: l' => s ++ sep ++ join sep l'
  end.

Definition in_range (lo hi c : N) : bool := (lo <=? c) && (c <=? hi).

Definition is_digit (c : N) : bool := in_range 48 57 c.
Definition is_upper (c : N) : bool := in_range 65 90 c.
Definition is_lower (c : N) : bool := in_range 97 122 c.
Definition is_alnum (c : N) : bool := is_digit c || is_upper c || is_lower c.

(** *** Code points, UTF-16 and UTF-8 *)

Definition is_high (c : N) : bool := in_range 0xD800 0xDBFF c.
Definition is_low (c : N) : bool := in_range 0xDC00 0xDFFF c.
Definition is_surrogate (c : N) : bool := in_range 0xD800 0xDFFF c.

(** The code points of a string; an unpaired surrogate stands for itself. *)
Fixpoint code_points (s : jsstring) : list N :=
  match s with
  | [] => []
  | c :: s' =>
      match s' with
      | d :: s'' =>
          if is_high c && is_low d
          then (0x10000 + (c - 0xD800) * 0x400 + (d - 0xDC00)) :: code_points s''
          else c :: code_points s'
      | [] => [c]
      end
  end.

Definition utf16 (cp : N) : jsstring :=
  if cp <? 0x10000 then [cp]
  else [0xD800 + (cp - 0x10000) / 0x400; 0xDC00 + (cp - 0x10000) mod 0x400].

Definition utf8 (cp : N) : list N :=
  if cp <? 0x80 then [cp]
  else if cp <? 0x800 then [0xC0 + cp / 64; 0x80 + cp mod 64]
  else if cp <? 0x10000 then
    [0xE0 + cp / 4096; 0x80 + (cp / 64) mod 64; 0x80 + cp mod 64]
  else
    [0xF0 + cp / 262144; 0x80 + (cp / 4096) mod 64;
     0x80 + (cp / 64) mod 64; 0x80 + cp mod 64].

(** Conversion to a scalar value string (WebIDL USVString): unpaired
    surrogates become U+FFFD. *)
Definition scalar (cp : N) : N := if is_surrogate cp then 0xFFFD else cp.

Definition usv (s : jsstring) : jsstring :=
  flat_map utf16 (map scalar (code_points s)).

Definition utf8_encode (s : jsstring) : list N :=
  flat_map utf8 (map scalar (code_points s)).

(** The WHATWG UTF-8 decoder (without BOM handling); malformed input gives
    U+FFFD.  [need] continuation bytes are still expected, within
    [lo..hi] for the next one. *)
Record utf8_state := { u_cp : N; u_need : nat; u_lo : N; u_hi : N }.

Definition utf8_start : utf8_state :=
  {| u_cp := 0; u_need := 0; u_lo := 0x80; u_hi := 0xBF |}.

Definition utf8_lead (b : N) : list N * utf8_state :=
  if b <? 0x80 then ([b], utf8_start)
  else if in_range 0xC2 0xDF b then
    ([], {| u_cp := b - 0xC0; u_need := 1; u_lo := 0x80; u_hi := 0xBF |})
  else if in_range 0xE0 0xEF b then
    ([], {| u_cp := b - 0xE0; u_need := 2;
            u_lo := if b =? 0xE0 then 0xA0 else 0x80;
            u_hi := if b =? 0xED then 0x9F else 0xBF |})
  else if in_range 0xF0 0xF4 b then
    ([], {| u_cp := b - 0xF0; u_need := 3;
            u_lo := if b =? 0xF0 then 0x90 else 0x80;
            u_hi := if b =? 0xF4 then 0x8F else 0xBF |})
  else ([0xFFFD], utf8_start).

Definition utf8_step (st : utf8_state) (b : N) : list N * utf8_state :=
  match u_need st with
  | O => utf8_lead b
  | S n =>
      if in_range (u_lo st) (u_hi st) b then
        let cp := u_cp st * 64 + (b - 0x80) in
        match n with
        | O => ([cp], utf8_start)
        | S _ => ([], {| u_cp := cp; u_need := n; u_lo := 0x80; u_hi := 0xBF |})
        end
      else
        let (out, st') := utf8_lead b in (0xFFFD :: out, st')
  end.

Fixpoint utf8_decode_from (st : utf8_state) (bs : list N) : list N :=
  match bs with
  | [] => match u_need st with O => [] | S _ => [0xFFFD] end
  | b :: bs' => let (out, st') := utf8_step st b in out ++ utf8_decode_from st' bs'
  end.

Definition utf8_decode (bs : list N) : jsstring :=
  flat_map utf16 (utf8_decode_from utf8_start bs).

(** *** Percent encoding *)

(** The hexadecimal digit of [n mod 16], in upper case. *)
Definition hex_digit (n : N) : N :=
  let d := n mod 16 in if d <? 10 then 48 + d else 55 + d.

Definition hex_val (c : N) : option N :=
  if is_digit c then Some (c - 48)
  else if in_range 65 70 c then Some (c - 55)
  else if in_range 97 102 c then Some (c - 87)
  else None.

Definition pct (b : N) : jsstring := [ch "%"; hex_digit (b / 16); hex_digit (b mod 16)].

(** [encodeURIComponent]: every UTF-8 byte is escaped except the
    unreserved characters; an unpaired surrogate is a URIError. *)
Definition uri_unreserved (c : N) : bool := is_alnum c || mem c (js "-_.!~*'()").

Definition uri_byte (b : N) : jsstring := if uri_unreserved b then [b] else pct b.

Definition encodeURIComponent (s : jsstring) : result jsstring :=
  let cps := code_points s in
  if existsb is_surrogate cps then Throw URIError
  else Ok (flat_map uri_byte (flat_map utf8 cps)).

(** [decodeURIComponent].  The string is first cut into plain code units and
    escaped octets; an escape that is not [%XX] is a URIError.  Then every
    octet sequence must be well-formed UTF-8. *)
Inductive token :=
| Raw (c : N)
| Oct (b : N).

Fixpoint pct_tokens (s : jsstring) : option (list token) :=
  match s with
  | [] => Some []
  | c :: s' =>
      if c =? ch "%" then
        match s' with
        | h1 :: h2 :: s'' =>
            match hex_val h1, hex_val h2 with
            | Some a, Some b => option_map (cons (Oct (16 * a + b))) (pct_tokens s'')
            | _, _ => None
            end
        | _ => None
        end
      else option_map (cons (Raw c)) (pct_tokens s')
  end.

Definition cont (b : N) : bool := in_range 0x80 0xBF b.

Fixpoint utf8_strict (ts : list token) : option jsstring :=
  match ts with
  | [] => Some []
  | Raw c :: r => option_map (cons c) (utf8_strict r)
  | Oct b :: r =>
      if b <? 0x80 then option_map (cons b) (utf8_strict r)
      else if in_range 0xC2 0xDF b then
        match r with
        | Oct b2 :: r' =>
            if cont b2
            then option_map (app (utf16 ((b - 0xC0) * 64 + (b2 - 0x80)))) (utf8_strict r')
            else None
        | _ => None
        end
      else if in_range 0xE0 0xEF b then
        match r with
        | Oct b2 :: Oct b3 :: r' =>
            if in_range (if b =? 0xE0 then 0xA0 else 0x80)
                        (if b =? 0xED then 0x9F else 0xBF) b2 && cont b3
            then option_map
                   (app (utf16 (((b - 0xE0) * 64 + (b2 - 0x80)) * 64 + (b3 - 0x80))))
                   (utf8_strict r')
            else None
        | _ => None
        end
      else if in_range 0xF0 0xF4 b then
        match r with
        | Oct b2 :: Oct b3 :: Oct b4 :: r' =>
            if in_range (if b =? 0xF0 then 0x90 else 0x80)
                        (if b =? 0xF4 then 0x8F else 0xBF) b2 && cont b3 && cont b4
            then option_map
                   (app (utf16 ((((b - 0xF0) * 64 + (b2 - 0x80)) * 64 + (b3 - 0x80)) * 64
                                + (b4 - 0x80))))
                   (utf8_strict r')
            else None
        | _ => None
        end
      else None
  end.

Definition decodeURIComponent (s : jsstring) : result jsstring :=
  match pct_tokens s with
  | Some ts => match utf8_strict ts with
               | Some r => Ok r
               | None => Throw URIError
               end
  | None => Throw URIError
  end.

(** *** URLSearchParams *)

(** The list of name-value pairs of a [URLSearchParams] object. *)
Definition search_params := list (jsstring * jsstring).

Definition usp_append (name value : jsstring) (l : search_params) : search_params :=
  l ++ [(usv name, usv value)].

Fixpoint usp_remove (name : jsstring) (l : search_params) : search_params :=
  match l with
  | [] => []
  | (n, v) :: l' => if eqb_str n name then usp_remove name l' else (n, v) :: usp_remove name l'
  end.

(** [set]: the first pair of that name takes the value and the others go;
    without one the pair is appended. *)
Fixpoint usp_set_usv (name value : jsstring) (l : search_params) : search_params :=
  match l with
  | [] => [(name, value)]
  | (n, v) :: l' =>
      if eqb_str n name then (n, value) :: usp_remove name l'
      else (n, v) :: usp_set_usv name value l'
  end.

Definition usp_set (name value : jsstring) (l : search_params) : search_params :=
  usp_set_usv (usv name) (usv value) l.

(** [get]: the value of the first pair of that name, or null. *)
Fixpoint usp_get_usv (name : jsstring) (l : search_params) : option jsstring :=
  match l with
  | [] => None
  | (n, v) :: l' => if eqb_str n name then Some v else usp_get_usv name l'
  end.

Definition usp_get (name : jsstring) (l : search_params) : option jsstring :=
  usp_get_usv (usv name) l.

(** [toString]: the application/x-www-form-urlencoded serializer.  Every
    pair is written [name=value], also when the value is empty. *)
Definition form_unreserved (c : N) : bool := is_alnum c || mem c (js "*-._").

Definition form_byte (b : N) : jsstring :=
  if b =? ch " " then [ch "+"]
  else if form_unreserved b then [b]
  else pct b.

Definition form_encode (s : jsstring) : jsstring :=
  flat_map form_byte (utf8_encode s).

Definition form_pair (p : jsstring * jsstring) : jsstring :=
  form_encode (fst p) ++ [ch "="] ++ form_encode (snd p).

Definition usp_toString (l : search_params) : jsstring :=
  join [ch "&"] (map form_pair l).

(** [new URLSearchParams(init)] for a string: the application/
    x-www-form-urlencoded parser. *)
Fixpoint split_on (sep : N) (s : list N) : list (list N) :=
  match s with
  | [] => [[]]
  | c :: s' =>
      if c =? sep then [] :: split_on sep s'
      else match split_on sep s' with
           | [] => [[c]]
           | w :: ws => (c :: w) :: ws
           end
  end.

(** The part before the first [sep] and the part after it (empty without one). *)
Fixpoint split_first (sep : N) (s : list N) : list N * list N :=
  match s with
  | [] => ([], [])
  | c :: s' =>
      if c =? sep then ([], s')
      else let (a, b) := split_first sep s' in (c :: a, b)
  end.

(** Percent-decoding of bytes: a [%] that does not start an escape stays. *)
Fixpoint percent_decode (s : list N) : list N :=
  match s with
  | [] => []
  | c :: s' =>
      match s' with
      | h1 :: h2 :: s'' =>
          match c =? ch "%", hex_val h1, hex_val h2 with
          | true, Some a, Some b => (16 * a + b) :: percent_decode s''
          | _, _, _ => c :: percent_decode s'
          end
      | _ => c :: percent_decode s'
      end
  end.

Definition plus_to_space (s : list N) : list N :=
  map (fun c => if c =? ch "+" then ch " " else c) s.

Definition form_decode (s : list N) : jsstring :=
  utf8_decode (percent_decode (plus_to_space s)).

Definition form_parse (bytes : list N) : search_params :=
  flat_map (fun seq =>
              match seq with
              | [] => []
              | _ => let (n, v) := split_first (ch "=") seq in
                     [(form_decode n, form_decode v)]
              end)
           (split_on (ch "&") bytes).

Definition usp_new (init : jsstring) : search_params :=
  let init' := match init with
               | c :: r => if c =? ch "?" then r else init
               | [] => init
               end in
  form_parse (utf8_encode init').

(** *** Records and property order *)

(** The own properties of an object, in creation order, without duplicate
    keys. *)
Definition record (A : Type) := list (jsstring * A).

Definition decimal (s : jsstring) : N :=
  fold_left (fun acc c => 10 * acc + (c - 48)) s 0.

(** An array index is the canonical decimal form of an integer below 2^32 - 1. *)
Definition array_index (k : jsstring) : option N :=
  match k with
  | [] => None
  | c :: k' =>
      if forallb is_digit k
         && (negb (c =? 48) || match k' with [] => true | _ => false end)
         && (decimal k <? 4294967295)
      then Some (decimal k) else None
  end.

Section Records.
Variable A : Type.

Fixpoint get (k : jsstring) (r : record A) : option A :=
  match r with
  | [] => None
  | (k', v) :: r' => if eqb_str k' k then Some v else get k r'
  end.

(** [o[k] = v]: an existing property keeps its place. *)
Fixpoint set (k : jsstring) (v : A) (r : record A) : record A :=
  match r with
  | [] => [(k, v)]
  | (k', v') :: r' => if eqb_str k' k then (k', v) :: r' else (k', v') :: set k v r'
  end.

(** [o[k] = v] on an object that [{}] created.  [Object.prototype] has a
    setter for [__proto__]: unless the object has an own property of that
    name, the assignment goes to the setter and adds no property. *)
Definition put (k : jsstring) (v : A) (r : record A) : record A :=
  match get k r with
  | Some _ => set k v r
  | None => if eqb_str k (js "__proto__") then r else set k v r
  end.

(** [Object.assign(r, src)] on such an object: one assignment per property
    of [src]. *)
Definition assign_list (r : record A) (src : list (jsstring * A)) : record A :=
  fold_left (fun acc kv => put (fst kv) (snd kv) acc) src r.

Fixpoint insert_index (i : N) (e : jsstring * A) (l : list (N * (jsstring * A)))
  : list (N * (jsstring * A)) :=
  match l with
  | [] => [(i, e)]
  | (j, e') :: l' => if i <? j then (i, e) :: l else (j, e') :: insert_index i e l'
  end.

Fixpoint index_entries (r : record A) : list (N * (jsstring * A)) :=
  match r with
  | [] => []
  | e :: r' => match array_index (fst e) with
               | Some i => insert_index i e (index_entries r')
               | None => index_entries r'
               end
  end.

Definition named_entries (r : record A) : list (jsstring * A) :=
  filter (fun e => match array_index (fst e) with Some _ => false | None => true end) r.

(** [Object.entries]: array indices in ascending order, then the other
    keys in creation order. *)
Definition entries (r : record A) : list (jsstring * A) :=
  map snd (index_entries r) ++ named_entries r.

End Records.

Definition assign {A} (r src : record A) : record A := assign_list r (entries src).

(** [Object.getOwnPropertyNames]. *)
Definition getOwnPropertyNames {A} (r : record A) : list jsstring := map fst (entries r).

(** *** Members of [Object.prototype] *)

(** The names of the properties of [Object.prototype].  An object that [{}]
    created inherits them: reading one of these names finds the member,
    unless the object has an own property of that name.  The members are
    not enumerable. *)
Definition object_prototype_names : list jsstring :=
  [js "constructor"; js "__defineGetter__"; js "__defineSetter__"; js "hasOwnProperty";
   js "__lookupGetter__"; js "__lookupSetter__"; js "isPrototypeOf";
   js "propertyIsEnumerable"; js "toString"; js "valueOf"; js "__proto__";
   js "toLocaleString"].

Definition inherited (k : jsstring) : bool := existsb (eqb_str k) object_prototype_names.

(** ToString of the member called [k]: [__proto__] reads [Object.prototype]
    itself, [constructor] the function [Object], and the other names
    built-in functions of their own name. *)
Definition member_text (k : jsstring) : jsstring :=
  if eqb_str k (js "__proto__") then js "[object Object]"
  else js "function " ++ (if eqb_str k (js "constructor") then js "Object" else k)
       ++ js "() { [native code] }".

(** *** Values *)

#[warnings="-register-all"]
Inductive value :=
| VUndefined
| VNull
| VBool (b : bool)
| VString (s : jsstring)
| VArray (l : list value)
| VObject (fields : list (jsstring * value)).

(** [v == null]. *)
Definition is_nullish (v : value) : bool :=
  match v with
  | VUndefined | VNull => true
  | _ => false
  end.

Definition is_undefined (v : value) : bool :=
  match v with
  | VUndefined => true
  | _ => false
  end.

(** ToString on a value; arrays join their elements with a comma, null and
    undefined elements giving the empty string. *)
Fixpoint to_js_string (v : value) : jsstring :=
  match v with
  | VUndefined => js "undefined"
  | VNull => js "null"
  | VBool true => js "true"
  | VBool false => js "false"
  | VString s => s
  | VArray l =>
      join [ch ","]
           (map (fun e => match e with
                          | VUndefined | VNull => []
                          | _ => to_js_string e
                          end) l)
  | VObject _ => js "[object Object]"
  end.

(** [v.toString()]. *)
Definition toString (v : value) : result jsstring :=
  match v with
  | VUndefined | VNull => Throw TypeError
  | _ => Ok (to_js_string v)
  end.

(** StringToNumber, as far as the comparison with zero needs it. *)
Definition is_white (c : N) : bool :=
  mem c [9; 10; 11; 12; 13; 32; 160; 0x1680; 0x2028; 0x2029; 0x202F; 0x205F; 0x3000; 0xFEFF]
  || in_range 0x2000 0x200A c.

Fixpoint trim_start (s : jsstring) : jsstring :=
  match s with
  | c :: s' => if is_white c then trim_start s' else s
  | [] => []
  end.

Definition trim (s : jsstring) : jsstring := rev (trim_start (rev (trim_start s))).

Fixpoint span (p : N -> bool) (s : jsstring) : jsstring * jsstring :=
  match s with
  | c :: s' => if p c then let (a, b) := span p s' in (c :: a, b) else ([], s)
  | [] => ([], [])
  end.

Definition nonempty (s : jsstring) : bool :=
  match s with [] => false | _ => true end.

(** The exponent part: absent, or [e], a sign and digits up to the end. *)
Definition exponent_part (s : jsstring) : option Z :=
  match s with
  | [] => Some 0%Z
  | c :: r =>
      if mem c (js "eE") then
        let '(neg, ds) := match r with
                          | d :: r' => if d =? ch "-" then (true, r')
                                       else if d =? ch "+" then (false, r')
                                       else (false, r)
                          | [] => (false, r)
                          end in
        if nonempty ds && forallb is_digit ds
        then Some (if neg then (- Z.of_N (decimal ds))%Z else Z.of_N (decimal ds))
        else None
      else None
  end.

(** An unsigned decimal literal that denotes a number rounding to zero: a
    zero mantissa, or a value of at most 2^-1075. *)
Definition decimal_is_zero (s : jsstring) : bool :=
  let (d1, r1) := span is_digit s in
  let '(d2, r2) := match r1 with
                   | c :: r => if c =? ch "." then span is_digit r else ([], r1)
                   | [] => ([], [])
                   end in
  if nonempty d1 || nonempty d2 then
    match exponent_part r2 with
    | Some e =>
        let m := Z.of_N (decimal (d1 ++ d2)) in
        let e' := (e - Z.of_nat (List.length d2))%Z in
        ((m =? 0) || ((e' <? 0) && (m * 2 ^ 1075 <=? 10 ^ (- e'))))%Z
    | None => false
    end
  else false.

Definition radix_is_zero (digit : N -> bool) (s : jsstring) : bool :=
  nonempty s && forallb digit s && forallb (N.eqb 48) s.

Definition is_hex (c : N) : bool :=
  match hex_val c with Some _ => true | None => false end.

(** [Number(s) == 0]. *)
Definition string_is_zero (s : jsstring) : bool :=
  match trim s with
  | [] => true
  | [_] => decimal_is_zero (trim s)
  | c :: d :: r =>
      if (c =? 48) && mem d (js "xX") then radix_is_zero is_hex r
      else if (c =? 48) && mem d (js "oO") then radix_is_zero (in_range 48 55) r
      else if (c =? 48) && mem d (js "bB") then radix_is_zero (in_range 48 49) r
      else if mem c (js "+-") then decimal_is_zero (d :: r)
      else decimal_is_zero (trim s)
  end.

(** [v != false]. *)
Definition loose_ne_false (v : value) : bool :=
  match v with
  | VUndefined | VNull => true
  | VBool b => b
  | VString _ | VArray _ => negb (string_is_zero (to_js_string v))
  | VObject _ => true
  end.

End Js.

(** ** The routing library *)

Module Routing.

Import Js.
Local Open Scope N_scope.

(** *** Field metadata *)

(** [dataType?: Function]: the constructor given as [type] to [query]. *)
Inductive DataType :=
| Boolean
| OtherType (name : jsstring).

Definition is_Boolean (t : option DataType) : bool :=
  match t with
  | Some Boolean => true
  | _ => false
  end.

(** An entry of a query map: [string | string[]]. *)
Inductive qvalue :=
| QString (s : jsstring)
| QArray (l : list jsstring).

(** A user supplied function returns, or throws an exception of its own,
    of whatever class; [call] keeps it apart from the exceptions that the
    library and the runtime raise themselves. *)
Inductive completion (A : Type) :=
| Returned (a : A)
| Raised (what : jsstring).

Arguments Returned {A} a.
Arguments Raised {A} what.

Definition call {A} (c : completion A) : result A :=
  match c with
  | Returned a => Ok a
  | Raised what => Throw (UserError what)
  end.

Definition PathSerializeFn := value -> completion (record jsstring).
Definition PathDeserializeFn := record jsstring -> completion value.
Definition QuerySerializeFn := value -> completion (record qvalue).
Definition QueryDeserializeFn := search_params -> completion value.

(** [type Metadata]; the [RoutingType] tag is the constructor. *)
Inductive Metadata :=
| Path (propertyKey : option jsstring)
| PathSerde (serialize : PathSerializeFn) (deserialize : PathDeserializeFn)
| Query (propertyKey : option jsstring) (dataType : option DataType)
| QuerySerde (serialize : QuerySerializeFn) (deserialize : QueryDeserializeFn).

(** A decorated class: what [route] attached to it, the own properties of a
    fresh instance ([new type]) and the metadata of its properties. *)
Record RouteType := {
  routeKey : option jsstring;
  nameKey : option jsstring;
  fields : record value;
  metadata : record Metadata
}.

Record Instance := {
  constructor : RouteType;
  props : record value
}.

Definition construct (type : RouteType) : Instance :=
  {| constructor := type; props := fields type |}.

(** [obj[propName]]. *)
Definition prop (obj : Instance) (propName : jsstring) : value :=
  match get propName (props obj) with
  | Some v => v
  | None => VUndefined
  end.

Definition set_prop (obj : Instance) (propName : jsstring) (v : value) : Instance :=
  {| constructor := constructor obj; props := set propName v (props obj) |}.

(** [a ?? b] on an optional string. *)
Definition nullish_or (a : option jsstring) (b : jsstring) : jsstring :=
  match a with
  | Some k => k
  | None => b
  end.

(** *** toRelativePath *)

Definition placeholder (key : jsstring) : jsstring := [ch "{"] ++ key ++ [ch "}"].

Definition substitute (url : jsstring) (kv : jsstring * jsstring) : result jsstring :=
  v <- encodeURIComponent (snd kv) ;;
  Ok (replace_first (placeholder (fst kv)) v url).

Definition add_query (urlParams : search_params) (kv : jsstring * qvalue) : search_params :=
  match snd kv with
  | QArray l => fold_left (fun acc v => usp_append (fst kv) v acc) l urlParams
  | QString v => usp_set (fst kv) v urlParams
  end.

Definition toRelativePath (pattern : jsstring) (pathParams : record jsstring)
    (queryParams : option (record qvalue)) : result jsstring :=
  url <- foldM substitute (entries pathParams) pattern ;;
  if includes [ch "{"] url then Throw PatternUnfulfilledError
  else
    match queryParams with
    | Some qp =>
        let urlParams := fold_left add_query (entries qp) [] in
        let searchSegment := usp_toString urlParams in
        if nonempty searchSegment then Ok (url ++ [ch "?"] ++ searchSegment)
        else Ok url
    | None => Ok url
    end.

(** *** toRelativeUrl *)

Definition params := (record jsstring * record qvalue)%type.

(** The body of the loop over the own property names; [pathParams] and
    [queryParams] are objects that [{}] created. *)
Definition collect (obj : Instance) (acc : params) (propName : jsstring) : result params :=
  let (pathParams, queryParams) := acc in
  match get propName (metadata (constructor obj)) with
  | None => Ok acc
  | Some meta =>
      let value := prop obj propName in
      if is_nullish value then Ok acc
      else
        match meta with
        | Path propertyKey =>
            let key := nullish_or propertyKey propName in
            Ok (put key (to_js_string value) pathParams, queryParams)
        | PathSerde serialize _ =>
            m <- call (serialize value) ;;
            Ok (assign pathParams m, queryParams)
        | Query propertyKey dataType =>
            let key := nullish_or propertyKey propName in
            if is_Boolean dataType && negb (is_nullish value) && loose_ne_false value
            then Ok (pathParams, put key (QString []) queryParams)
            else Ok (pathParams, put key (QString (to_js_string value)) queryParams)
        | QuerySerde serialize _ =>
            m <- call (serialize value) ;;
            Ok (pathParams, assign queryParams m)
        end
  end.

Definition toRelativeUrl (obj : Instance) (route : option jsstring) : result jsstring :=
  acc <- foldM (collect obj) (getOwnPropertyNames (props obj)) ([], []) ;;
  match route, routeKey (constructor obj) with
  | Some pattern, _ | None, Some pattern => toRelativePath pattern (fst acc) (Some (snd acc))
  | None, None => Throw TypeError
  end.

(** *** resolveFieldsMetadata *)

Inductive pathField :=
| PathKey (key : jsstring)
| PathFn (deserialize : PathDeserializeFn).

Inductive queryField :=
| QueryKey (key : jsstring) (dataType : option DataType)
| QueryFn (deserialize : QueryDeserializeFn).

(** The body of the loop over the own property names; [pathFields] and
    [queryFields] are objects that [{}] created. *)
Definition resolve (meta : record Metadata)
    (acc : record pathField * record queryField) (propName : jsstring)
  : record pathField * record queryField :=
  let (pathFields, queryFields) := acc in
  match get propName meta with
  | None => acc
  | Some (Path propertyKey) =>
      (put propName (PathKey (nullish_or propertyKey propName)) pathFields, queryFields)
  | Some (PathSerde _ deserialize) =>
      (put propName (PathFn deserialize) pathFields, queryFields)
  | Some (Query propertyKey dataType) =>
      (pathFields, put propName (QueryKey (nullish_or propertyKey propName) dataType) queryFields)
  | Some (QuerySerde _ deserialize) =>
      (pathFields, put propName (QueryFn deserialize) queryFields)
  end.

Definition resolveFieldsMetadata (route : Instance)
  : record pathField * record queryField :=
  fold_left (resolve (metadata (constructor route)))
            (getOwnPropertyNames (props route)) ([], []).

Definition assertIsRoute (type : RouteType) : result unit :=
  match routeKey type with
  | None => Throw TypeError
  | Some _ => Ok tt
  end.

(** *** The compiled pattern *)

Definition reRegExpChar (c : N) : bool := mem c (js "\^$.*+?()[]{}|").

Definition escape_char (c : N) : jsstring := if reRegExpChar c then [ch "\"; c] else [c].

(** [escapeRegExp], from lodash. *)
Definition escapeRegExp (s : jsstring) : jsstring :=
  if existsb reRegExpChar s then flat_map escape_char s else s.

(** The source of the regular expression after
    [.replace(/\\\{(.*?)\\\}/g, "(?<$1>[^/?]+)")]: the code units that were
    kept, and the inserted groups with the text captured as [$1]. *)
Inductive piece :=
| Src (c : N)
| Inserted (captured : jsstring).

Definition line_terminator (c : N) : bool := mem c [10; 13; 0x2028; 0x2029].

(** [(.*?)\\\}]: the shortest run without line terminator up to a [\}];
    gives the run and what follows the [\}]. *)
Fixpoint lazy_name (s : jsstring) : option (jsstring * jsstring) :=
  match s with
  | [] => None
  | c :: s' =>
      match s' with
      | d :: s'' =>
          if (c =? ch "\") && (d =? ch "}") then Some ([], s'')
          else if line_terminator c then None
          else match lazy_name s' with
               | Some (n, r) => Some (c :: n, r)
               | None => None
               end
      | [] => None
      end
  end.

(** The global replacement, scanning from the left; [fuel] bounds the number
    of steps and the length of the string is enough. *)
Fixpoint replace_groups (fuel : nat) (s : jsstring) : list piece :=
  match fuel with
  | O => []
  | S fuel' =>
      match s with
      | [] => []
      | c :: s' =>
          match strip_prefix [ch "\"; ch "{"] s with
          | Some after =>
              match lazy_name after with
              | Some (n, rest) => Inserted n :: replace_groups fuel' rest
              | None => Src c :: replace_groups fuel' s'
              end
          | None => Src c :: replace_groups fuel' s'
          end
      end
  end.

Definition pathRegex (pattern : jsstring) : list piece :=
  let escaped := escapeRegExp pattern in
  replace_groups (List.length escaped) escaped.

(** The sources this model reads.  SyntaxCharacter of the grammar of regular
    expressions: *)
Definition syntax_character (c : N) : bool := mem c (js "^$\.*+?()[]{}|").

(** A text that is a sequence of pattern characters and identity escapes:
    every syntax character follows a backslash, and every backslash precedes
    a syntax character. *)
Fixpoint literal_text (s : jsstring) : bool :=
  match s with
  | [] => true
  | c :: s' =>
      if c =? ch "\" then
        match s' with
        | d :: s'' => syntax_character d && literal_text s''
        | [] => false
        end
      else negb (syntax_character c) && literal_text s'
  end.

(** The inserted text [(?<captured>[^/?]+)] is a named group whose name the
    model can check, with literals before the character class.  It is none
    when the captured text starts with [=] or [!], which make a lookbehind
    assertion of it; and the engine checks a name with a character outside
    ASCII against the Unicode tables, which the model does not hold. *)
Definition named_group (captured : jsstring) : bool :=
  negb (match captured with
        | c :: _ => (c =? ch "=") || (c =? ch "!")
        | [] => false
        end)
  && forallb (fun c => c <? 128) (fst (split_first (ch ">") captured))
  && literal_text captured.

(** A source made of escaped text and such groups. *)
Fixpoint supported (ps : list piece) : bool :=
  match ps with
  | [] => true
  | Inserted captured :: ps' => named_group captured && supported ps'
  | Src c :: ps' =>
      if c =? ch "\" then
        match ps' with
        | Src d :: ps'' => syntax_character d && supported ps''
        | _ => false
        end
      else negb (syntax_character c) && supported ps'
  end.

(** The regular expression that [new RegExp] builds from such a source: a
    sequence of literal code units and named groups.  A group
    [(?<name>body[^/?]+)] matches the literal [body] and then one or more
    code units other than [/] and [?]. *)
Inductive item :=
| Lit (c : N)
| Group (name : jsstring) (body : jsstring).

Definition identifier (s : jsstring) : bool :=
  match s with
  | [] => false
  | c :: r =>
      (is_upper c || is_lower c || (c =? ch "_"))
      && forallb (fun d => is_alnum d || (d =? ch "_")) r
  end.

(** In escaped text every backslash precedes a syntax character, and the
    pair denotes that character. *)
Fixpoint unescape (s : jsstring) : jsstring :=
  match s with
  | [] => []
  | c :: s' =>
      if c =? ch "\" then
        match s' with
        | d :: s'' => d :: unescape s''
        | [] => []
        end
      else c :: unescape s'
  end.

(** The inserted text [(?<captured>[^/?]+)]: the group name ends at the
    first [>] of the captured text; what follows it, and the [>] of the
    replacement, then belong to the body. *)
Definition group_of (captured : jsstring) : item :=
  let (name, rest) := split_first (ch ">") captured in
  if mem (ch ">") captured then Group name (unescape rest ++ [ch ">"])
  else Group name [].

(** The items of a source that the model reads ([supported]): a backslash
    and the syntax character after it are that character, every other code
    unit of the text is itself, and an inserted text is its group. *)
Fixpoint items_of (ps : list piece) : list item :=
  match ps with
  | [] => []
  | Inserted captured :: ps' => group_of captured :: items_of ps'
  | Src c :: ps' =>
      if c =? ch "\" then
        match ps' with
        | Src d :: ps'' => Lit d :: items_of ps''
        | _ => Lit c :: items_of ps'
        end
      else Lit c :: items_of ps'
  end.

Fixpoint group_names (re : list item) : list jsstring :=
  match re with
  | [] => []
  | Lit _ :: re' => group_names re'
  | Group name _ :: re' => name :: group_names re'
  end.

Fixpoint distinct (l : list jsstring) : bool :=
  match l with
  | [] => true
  | n :: l' => negb (existsb (eqb_str n) l') && distinct l'
  end.

(** [new RegExp(source)] for a source of escaped text and named groups with
    ASCII names: a SyntaxError when a group name is not an identifier or is
    used twice.  The model does not read other sources. *)
Definition RegExp (ps : list piece) : result (list item) :=
  if supported ps then
    let re := items_of ps in
    if forallb identifier (group_names re) && distinct (group_names re)
    then Ok re else Throw SyntaxError
  else Throw Unsupported.

(** *** Matching *)

Definition segment_char (c : N) : bool := negb (c =? ch "/") && negb (c =? ch "?").

Section Greedy.
Variable A : Type.
(** The continuation: what the rest of the expression does after the run. *)
Variable k : jsstring -> jsstring -> option A.

(** [[^/?]+], greedy: the longest run first, then shorter ones. *)
Fixpoint greedy (run s : jsstring) : option A :=
  match s with
  | [] => None
  | c :: s' =>
      if segment_char c then
        match greedy (run ++ [c]) s' with
        | Some r => Some r
        | None => k (run ++ [c]) s'
        end
      else None
  end.
End Greedy.

(** The first match of [re] at the start of [s], in the order a
    backtracking matcher tries them: the groups and the rest of [s]. *)
Fixpoint match_here (re : list item) (s : jsstring) : option (record jsstring * jsstring) :=
  match re with
  | [] => Some ([], s)
  | Lit c :: re' =>
      match s with
      | d :: s' => if c =? d then match_here re' s' else None
      | [] => None
      end
  | Group name body :: re' =>
      match strip_prefix body s with
      | Some s1 =>
          greedy (fun run rest =>
                    match match_here re' rest with
                    | Some (groups, r) => Some ((name, body ++ run) :: groups, r)
                    | None => None
                    end) [] s1
      | None => None
      end
  end.

(** The expression is not anchored: the leftmost start that matches. *)
Fixpoint search (re : list item) (s : jsstring) : option (record jsstring * jsstring) :=
  match match_here re s with
  | Some r => Some r
  | None => match s with
            | [] => None
            | _ :: s' => search re s'
            end
  end.

(** The optional tail of the expression, after the path: a [?] and the run
    of code units other than [#], which is the last capture. *)
Definition query_tail (rest : jsstring) : option jsstring :=
  match rest with
  | c :: q => if c =? ch "?" then Some (fst (span (fun d => negb (d =? ch "#")) q)) else None
  | [] => None
  end.

(** [re.exec(path)]: the named groups and the last capture. *)
Definition exec (re : list item) (path : jsstring) : option (record jsstring * option jsstring) :=
  match search re path with
  | Some (groups, rest) => Some (groups, query_tail rest)
  | None => None
  end.

(** *** fromUrl *)

(** [groups[name]] for [groups = result.groups ?? {}].  The groups of an
    expression with named groups are an object without prototype that holds
    every group name; an expression without named group has no such object,
    and the name is read from [{}], which holds nothing of its own and
    inherits the members of [Object.prototype]. *)
Definition group_value (groups : record jsstring) (name : jsstring) : option jsstring :=
  match groups with
  | [] => if inherited name then Some (member_text name) else None
  | _ :: _ => get name groups
  end.

Definition read_path (groups : record jsstring) (tmp : Instance)
    (kv : jsstring * pathField) : result Instance :=
  let (key, value) := kv in
  match value with
  | PathKey name =>
      match group_value groups name with
      | None =>
          if negb (is_nullish (prop tmp key)) then Ok tmp
          else Throw (MissingPathFieldError name)
      | Some regexValue =>
          v <- decodeURIComponent regexValue ;;
          Ok (set_prop tmp key (VString v))
      end
  | PathFn deserialize =>
      v <- call (deserialize groups) ;;
      Ok (set_prop tmp key v)
  end.

Definition read_query (queryParams : search_params) (tmp : Instance)
    (kv : jsstring * queryField) : result Instance :=
  let (key, value) := kv in
  match value with
  | QueryKey propName dataType =>
      let queryValue := usp_get propName queryParams in
      if is_Boolean dataType then
        Ok (set_prop tmp key (VBool (match queryValue with Some _ => true | None => false end)))
      else
        match queryValue with
        | None =>
            if negb (is_undefined (prop tmp key)) then Ok tmp
            else Throw (MissingQueryFieldError propName)
        | Some v => Ok (set_prop tmp key (VString v))
        end
  | QueryFn deserialize =>
      v <- call (deserialize queryParams) ;;
      Ok (set_prop tmp key v)
  end.

Definition fromUrl (type : RouteType) (path : jsstring) (route : option jsstring)
  : result Instance :=
  _ <- match route with
       | None => assertIsRoute type
       | Some _ => Ok tt
       end ;;
  let tmp := construct type in
  let (pathFields, queryFields) := resolveFieldsMetadata tmp in
  pattern <- match route, routeKey type with
             | Some p, _ | None, Some p => Ok p
             | None, None => Throw TypeError
             end ;;
  re <- RegExp (pathRegex pattern) ;;
  match exec re path with
  | None => Throw ParseError
  | Some (groups, queryParamString) =>
      let queryParams := match queryParamString with
                         | Some q => usp_new q
                         | None => []
                         end in
      tmp1 <- foldM (read_path groups) (entries pathFields) tmp ;;
      foldM (read_query queryParams) (entries queryFields) tmp1
  end.

(** *** The registry *)

Definition registry := record (record (list RouteType)).

Definition group_or_default (group : option jsstring) : jsstring := nullish_or group [].

(** What a call of the decorator leaves behind: the exception if it threw,
    the class and the registry. *)
Record routed := {
  outcome : result unit;
  class_after : RouteType;
  registry_after : registry
}.

(** The decorator [route(name, path, options)(constructor)].  The registry
    and its groups are objects that [{}] created, so [knownRoutes[group]] and
    [knownRoutes[group][name]] find a member of [Object.prototype] for a
    group or a name called like one.
    - For such a name no array is stored: the class is decorated and
      [push], which the member does not have, throws a TypeError.
    - For such a group the decorator stores nothing in the registry and
      writes to the member instead.  The model does not follow the members
      of [Object.prototype]: the call is outside it.
    - [Object.defineProperties] throws a TypeError on a class that already
      carries a route, after the entries of the group and the name were
      made. *)
Definition route (name path : jsstring) (group : option jsstring)
    (constructor : RouteType) (knownRoutes : registry) : routed :=
  let group := group_or_default group in
  let decorated := {| routeKey := Some path;
                      nameKey := Some name;
                      fields := fields constructor;
                      metadata := metadata constructor |} in
  if inherited group then
    {| outcome := Throw Unsupported;
       class_after := constructor;
       registry_after := knownRoutes |}
  else
    let names := match get group knownRoutes with
                 | Some names => names
                 | None => []
                 end in
    if inherited name then
      match routeKey constructor with
      | Some _ => {| outcome := Throw TypeError;
                     class_after := constructor;
                     registry_after := set group names knownRoutes |}
      | None => {| outcome := Throw TypeError;
                   class_after := decorated;
                   registry_after := set group names knownRoutes |}
      end
    else
      let candidates := match get name names with
                        | Some candidates => candidates
                        | None => []
                        end in
      match routeKey constructor with
      | Some _ => {| outcome := Throw TypeError;
                     class_after := constructor;
                     registry_after := set group (set name candidates names) knownRoutes |}
      | None => {| outcome := Ok tt;
                   class_after := decorated;
                   registry_after :=
                     set group (set name (candidates ++ [decorated]) names) knownRoutes |}
      end.

Definition routePath (type : RouteType) : result jsstring :=
  _ <- assertIsRoute type ;;
  match routeKey type with
  | Some p => Ok p
  | None => Throw TypeError
  end.

Definition routeName (type : RouteType) : result (option jsstring) :=
  _ <- assertIsRoute type ;;
  Ok (nameKey type).

(** [definedRoutes(group)]: the names of the group; for a group without
    entry that is called like a member of [Object.prototype], that member,
    an object without enumerable properties of its own as long as no
    decorator wrote to it; else undefined. *)
Definition definedRoutes (knownRoutes : registry) (group : option jsstring)
  : option (record (list RouteType)) :=
  match get (group_or_default group) knownRoutes with
  | Some names => Some names
  | None => if inherited (group_or_default group) then Some [] else None
  end.

(** The inner loop of [from]: the first candidate that [fromUrl] accepts;
    a throwing candidate is skipped.  A candidate whose expression is
    outside the model leaves the outcome open. *)
Fixpoint first_route (url name : jsstring) (candidates : list RouteType)
  : result (option (jsstring * Instance)) :=
  match candidates with
  | [] => Ok None
  | candidate :: rest =>
      match fromUrl candidate url None with
      | Ok r => Ok (Some (name, r))
      | Throw Unsupported => Throw Unsupported
      | Throw _ => first_route url name rest
      end
  end.

Fixpoint first_named (url : jsstring) (l : list (jsstring * list RouteType))
  : result (option (jsstring * Instance)) :=
  match l with
  | [] => Ok None
  | (name, candidates) :: l' =>
      found <- first_route url name candidates ;;
      match found with
      | Some r => Ok (Some r)
      | None => first_named url l'
      end
  end.

(** [from(url, group)]: [Object.entries] of an undefined group throws. *)
Definition from (knownRoutes : registry) (url : jsstring) (group : option jsstring)
  : result (option (jsstring * Instance)) :=
  match definedRoutes knownRoutes group with
  | None => Throw TypeError
  | Some names => first_named url (entries names)
  end.

End Routing.


(** ** The hook for Next.js *)

Module Next.

Import Js Routing.
Local Open Scope N_scope.

(** [(.*?)\]]: the shortest run without line terminator up to a closing
    bracket; gives the run and what follows the bracket. *)
Fixpoint lazy_bracket (s : jsstring) : option (jsstring * jsstring) :=
  match s with
  | [] => None
  | c :: s' =>
      if c =? ch "]" then Some ([], s')
      else if line_terminator c then None
      else match lazy_bracket s' with
           | Some (n, r) => Some (c :: n, r)
           | None => None
           end
  end.

(** [route.replace(/\[(.*?)\]/g, "{$1}")], scanning from the left; [fuel]
    bounds the number of steps and the length of the string is enough. *)
Fixpoint replace_brackets (fuel : nat) (s : jsstring) : jsstring :=
  match fuel with
  | O => []
  | S fuel' =>
      match s with
      | [] => []
      | c :: s' =>
          if c =? ch "[" then
            match lazy_bracket s' with
            | Some (n, rest) => [ch "{"] ++ n ++ [ch "}"] ++ replace_brackets fuel' rest
            | None => c :: replace_brackets fuel' s'
            end
          else c :: replace_brackets fuel' s'
      end
  end.

(** [useRoute(constructor)], for the [asPath] and the [route] that
    [useRouter()] gives. *)
Definition useRoute (constructor : RouteType) (asPath route : jsstring) : result Instance :=
  fromUrl constructor asPath (Some (replace_brackets (List.length route) route)).

End Next.

(** ** Vocabulary of the properties *)

Import Js Routing.

(** *** Registration histories *)

(** One use of the decorator [@route(name, path, { group })] on a class. *)
Record registration := {
  r_name : jsstring;
  r_path : jsstring;
  r_group : option jsstring;
  r_class : RouteType
}.

Definition register (knownRoutes : registry) (r : registration) : registry :=
  registry_after (route (r_name r) (r_path r) (r_group r) (r_class r) knownRoutes).

(** No decorator of the history names a group called like a member of
    [Object.prototype]: every call is within the model. *)
Definition plain_groups (history : list registration) : Prop :=
  forall r, In r history -> inherited (group_or_default (r_group r)) = false.

(** The registry after the decorators of [history] ran, in that order. *)
Definition registered (history : list registration) : registry :=
  fold_left register history [].

(** The candidates of a group in the order [from] tries them. *)
Definition candidates_in_order (names : record (list RouteType)) : list (jsstring * RouteType) :=
  flat_map (fun e => map (pair (fst e)) (snd e)) (entries names).

Definition throws (url : jsstring) (candidate : RouteType) : Prop :=
  exists e, fromUrl candidate url None = Throw e.

(** The pattern of the class is one whose expression the model reads. *)
Definition readable (candidate : RouteType) : bool :=
  match routeKey candidate with
  | Some pattern => supported (pathRegex pattern)
  | None => true
  end.

(** The first candidate of a list that [fromUrl] accepts. *)
Fixpoint first_success (url : jsstring) (l : list (jsstring * RouteType))
  : option (jsstring * Instance) :=
  match l with
  | [] => None
  | (name, candidate) :: l' =>
      match fromUrl candidate url None with
      | Ok r => Some (name, r)
      | Throw _ => first_success url l'
      end
  end.

(** What a registration leaves in the registry: the class with its route. *)
Definition decorated (r : registration) : RouteType :=
  {| routeKey := Some (r_path r);
     nameKey := Some (r_name r);
     fields := fields (r_class r);
     metadata := metadata (r_class r) |}.

Definition undecorated (r : registration) : bool :=
  match routeKey (r_class r) with
  | None => true
  | Some _ => false
  end.

Definition in_group (g : jsstring) (r : registration) : bool :=
  eqb_str (group_or_default (r_group r)) g.

(** The registration is in the group [g] and its name is not called like a
    member of [Object.prototype]: the registry holds an array for the name. *)
Definition listed (g : jsstring) (r : registration) : bool :=
  in_group g r && negb (inherited (r_name r)).

(** The classes registered under a name of a group, in registration order. *)
Definition classes_of (history : list registration) (g name : jsstring) : list RouteType :=
  map decorated
      (filter (fun r => listed g r && eqb_str (r_name r) name && undecorated r) history).

(** The names of a list without repetition, each at its first place. *)
Fixpoint first_places (seen l : list jsstring) : list jsstring :=
  match l with
  | [] => []
  | n :: l' =>
      if existsb (eqb_str n) seen then first_places seen l'
      else n :: first_places (seen ++ [n]) l'
  end.

(** The names used in a group, in the order of their first registration. *)
Definition names_of (history : list registration) (g : jsstring) : list jsstring :=
  first_places [] (map r_name (filter (listed g) history)).

(** The order in which the engine enumerates these keys. *)
Definition key_order (keys : list jsstring) : list jsstring :=
  map fst (entries (map (fun k => (k, tt)) keys)).

(** The order in which [from] tries the classes of a group. *)
Definition lookup_order (history : list registration) (g : jsstring)
  : list (jsstring * RouteType) :=
  flat_map (fun name => map (pair name) (classes_of history g name))
           (key_order (names_of history g)).

(** The names of a group and the classes of a name, as the registry holds them. *)
Definition names_at (knownRoutes : registry) (g : jsstring) : record (list RouteType) :=
  match get g knownRoutes with
  | Some names => names
  | None => []
  end.

Definition classes_at (knownRoutes : registry) (g name : jsstring) : list RouteType :=
  match get name (names_at knownRoutes g) with
  | Some candidates => candidates
  | None => []
  end.

(** *** Example classes *)

Module Examples.

(** A class with one plain path field and no default. *)
Definition Named (pattern : jsstring) : RouteType :=
  {| routeKey := Some pattern;
     nameKey := Some (js "example");
     fields := [(js "name", VUndefined)];
     metadata := [(js "name", Path None)] |}.

Definition id_class : RouteType :=
  {| routeKey := None;
     nameKey := None;
     fields := [(js "id", VUndefined)];
     metadata := [(js "id", Path None)] |}.

Definition section_class : RouteType :=
  {| routeKey := None;
     nameKey := None;
     fields := [(js "section", VUndefined); (js "id", VUndefined)];
     metadata := [(js "section", Path None); (js "id", Path None)] |}.

(** [@route("user", "/users/{id}")], then [@route("page", "/{section}/{id}")],
    then a second class under the name user: [@route("user", "/posts/{id}")]. *)
Definition users : registration :=
  {| r_name := js "user"; r_path := js "/users/{id}"; r_group := None; r_class := id_class |}.

Definition pages : registration :=
  {| r_name := js "page"; r_path := js "/{section}/{id}"; r_group := None;
     r_class := section_class |}.

Definition posts : registration :=
  {| r_name := js "user"; r_path := js "/posts/{id}"; r_group := None; r_class := id_class |}.

Definition history : list registration := [users; pages; posts].

(** Classes under the names 10 and 2, and the registrations user, 10, 2 in
    this order. *)
Definition tens : registration :=
  {| r_name := js "10"; r_path := js "/posts/{id}"; r_group := None; r_class := id_class |}.

Definition twos : registration :=
  {| r_name := js "2"; r_path := js "/{section}/{id}"; r_group := None;
     r_class := section_class |}.

Definition numbered : list registration := [users; tens; twos].

(** An instance of the example class whose name is the empty string. *)
Definition unnamed : Instance :=
  {| constructor := Named (js "/example/{name}");
     props := [(js "name", VString [])] |}.

(** A class with a path field, a query field and a flag, and an instance. *)
Definition profile_class : RouteType :=
  {| routeKey := Some (js "/users/{id}/profile");
     nameKey := Some (js "profile");
     fields := [(js "id", VUndefined); (js "tab", VUndefined); (js "happy", VUndefined)];
     metadata := [(js "id", Path None);
                  (js "tab", Query (Some (js "t")) None);
                  (js "happy", Query None (Some Boolean))] |}.

Definition profile : Instance :=
  {| constructor := profile_class;
     props := [(js "id", VString (js "a b/c"));
               (js "tab", VString (js "x&y=z"));
               (js "happy", VBool true)] |}.

End Examples.

(** *** Matching, declaratively *)

(** [matches re path groups]: [path] is an instance of the compiled pattern
    [re], every group holding its body and a non-empty run of code units
    other than [/] and [?]. *)
Inductive matches : list item -> jsstring -> record jsstring -> Prop :=
| matches_nil : matches [] [] []
| matches_lit c re s groups :
    matches re s groups ->
    matches (Lit c :: re) (c :: s) groups
| matches_group name body run re s groups :
    run <> [] ->
    forallb segment_char run = true ->
    matches re s groups ->
    matches (Group name body :: re) (body ++ run ++ s) ((name, body ++ run) :: groups).

(** The pattern [fromUrl] compiles: [route ?? tmp[routeKey]]. *)
Definition effective_pattern (type : RouteType) (route : option jsstring) : option jsstring :=
  match route with
  | Some p => Some p
  | None => routeKey type
  end.

(** The URL is an instance of the pattern, up to an optional query string. *)
Definition conforms (re : list item) (url : jsstring) : Prop :=
  exists path groups,
    matches re path groups /\ (url = path \/ exists q, url = path ++ [ch "?"] ++ q).

(** The two loops of [fromUrl] on a fresh instance, for the groups and the
    query string of a match. *)
Definition populate (type : RouteType) (groups : record jsstring)
    (queryParamString : option jsstring) : result Instance :=
  let tmp := construct type in
  let queryParams := match queryParamString with
                     | Some q => usp_new q
                     | None => []
                     end in
  tmp1 <- foldM (read_path groups) (entries (fst (resolveFieldsMetadata tmp))) tmp ;;
  foldM (read_query queryParams) (entries (snd (resolveFieldsMetadata tmp))) tmp1.

(** *** Query parameters of a field *)

(** What [toRelativeUrl] stores for a plain query field: the empty string for
    a Boolean field that is not loosely false, else [value.toString()]. *)
Definition query_text (dataType : option DataType) (v : value) : jsstring :=
  if is_Boolean dataType && negb (is_nullish v) && loose_ne_false v then []
  else to_js_string v.

(** No other property of [obj] writes a query parameter called like [key]
    (names are compared as the scalar value strings [URLSearchParams] keeps). *)
Definition sole_writer (obj : Instance) (f key : jsstring) : Prop :=
  forall g m,
    g <> f ->
    get g (metadata (constructor obj)) = Some m ->
    match m with
    | Query propertyKey _ => usv (nullish_or propertyKey g) <> usv key
    | QuerySerde serialize _ =>
        forall v r k, serialize v = Returned r -> In k (map fst r) -> usv k <> usv key
    | _ => True
    end.

(** An instance of a class with a single plain query field. *)
Definition query_instance (pattern f : jsstring) (propertyKey : option jsstring)
    (dataType : option DataType) (v : value) : Instance :=
  {| constructor := {| routeKey := Some pattern;
                       nameKey := Some (js "example");
                       fields := [(f, VUndefined)];
                       metadata := [(f, Query propertyKey dataType)] |};
     props := [(f, v)] |}.

(** An instance of a class with two flags that share the key happy. *)
Definition shared_key : Instance :=
  {| constructor := {| routeKey := Some (js "/r");
                       nameKey := Some (js "example");
                       fields := [(js "a", VUndefined); (js "b", VUndefined)];
                       metadata := [(js "a", Query (Some (js "happy")) (Some Boolean));
                                    (js "b", Query (Some (js "happy")) (Some Boolean))] |};
     props := [(js "a", VBool false); (js "b", VBool true)] |}.

(** *** Fields of a fresh instance *)

(** [new URLSearchParams] of the captured query string, if any. *)
Definition query_params (queryParamString : option jsstring) : search_params :=
  match queryParamString with
  | Some q => usp_new q
  | None => []
  end.

(** [queryParams.get(name) != null]. *)
Definition present (name : jsstring) (queryParams : search_params) : bool :=
  match usp_get name queryParams with
  | Some _ => true
  | None => false
  end.

(** The entry [resolveFieldsMetadata] makes for a property; the tables keep
    no entry for a property called [__proto__]. *)
Definition path_field_of (meta : record Metadata) (f : jsstring) : option pathField :=
  if eqb_str f (js "__proto__") then None
  else
    match get f meta with
    | Some (Path propertyKey) => Some (PathKey (nullish_or propertyKey f))
    | Some (PathSerde _ deserialize) => Some (PathFn deserialize)
    | _ => None
    end.

Definition query_field_of (meta : record Metadata) (f : jsstring) : option queryField :=
  if eqb_str f (js "__proto__") then None
  else
    match get f meta with
    | Some (Query propertyKey dataType) => Some (QueryKey (nullish_or propertyKey f) dataType)
    | Some (QuerySerde _ deserialize) => Some (QueryFn deserialize)
    | _ => None
    end.

(** The default of a field: its value on a fresh instance. *)
Definition default (type : RouteType) (f : jsstring) : value := prop (construct type) f.


(** *** Patterns *)

(** A pattern cut into literal text and placeholders [{key}]. *)
Inductive part :=
| Text (s : jsstring)
| Hole (key : jsstring).

Definition render_part (p : part) : jsstring :=
  match p with
  | Text s => s
  | Hole key => placeholder key
  end.

Definition render (parts : list part) : jsstring := flat_map render_part parts.

Fixpoint holes (parts : list part) : list jsstring :=
  match parts with
  | [] => []
  | Text _ :: parts' => holes parts'
  | Hole key :: parts' => key :: holes parts'
  end.

Fixpoint texts (parts : list part) : list jsstring :=
  match parts with
  | [] => []
  | Text s :: parts' => s :: texts parts'
  | Hole _ :: parts' => texts parts'
  end.

Definition no_open_brace (s : jsstring) : bool := negb (mem (ch "{") s).

Definition brace_free (s : jsstring) : bool := negb (mem (ch "{") s) && negb (mem (ch "}") s).

(** The value of [encodeURIComponent] when it does not throw. *)
Definition encoded (v : jsstring) : jsstring :=
  match encodeURIComponent v with
  | Ok e => e
  | Throw _ => []
  end.

Definition encodable (v : jsstring) : Prop := exists e, encodeURIComponent v = Ok e.

(** The pattern with every placeholder replaced by the encoded parameter. *)
Definition filled (pathParams : record jsstring) (parts : list part) : jsstring :=
  flat_map (fun p => match p with
                     | Text s => s
                     | Hole key => match get key pathParams with
                                   | Some v => encoded v
                                   | None => placeholder key
                                   end
                     end) parts.

(** A part with its placeholder filled from the parameters. *)
Definition fill_part (l : record jsstring) (p : part) : jsstring :=
  match p with
  | Text s => s
  | Hole key => match get key l with
                | Some v => encoded v
                | None => placeholder key
                end
  end.

Definition has_param (pathParams : record jsstring) (key : jsstring) : bool :=
  match get key pathParams with
  | Some _ => true
  | None => false
  end.

(** The pattern after [url.replace("{key}", v)]: the first placeholder of
    that key takes the value. *)
Fixpoint fill_first (key v : jsstring) (parts : list part) : list part :=
  match parts with
  | [] => []
  | Text s :: parts' => Text s :: fill_first key v parts'
  | Hole key' :: parts' =>
      if eqb_str key' key then Text v :: parts'
      else Hole key' :: fill_first key v parts'
  end.

(** The code units [encodeURIComponent] writes. *)
Definition uri_safe (c : N) : bool := uri_unreserved c || (c =? ch "%")%N.

(** *** Well-formed strings *)

(** A Unicode scalar value: a code point that is no surrogate. *)
Definition scalar_value (cp : N) : bool := (cp <? 0x110000)%N && negb (is_surrogate cp).

(** A string of 16-bit code units without unpaired surrogate. *)
Definition well_formed (s : jsstring) : bool :=
  forallb (fun c => (c <? 0x10000)%N) s
  && forallb (fun cp => negb (is_surrogate cp)) (code_points s).

(** The token [pct_tokens] reads for a byte that [encodeURIComponent] wrote. *)
Definition uri_token (b : N) : token := if uri_unreserved b then Raw b else Oct b.

(** The code units the serializer of [URLSearchParams] writes for a name or
    a value. *)
Definition form_safe (c : N) : bool :=
  form_unreserved c || (c =? ch "+")%N || (c =? ch "%")%N.

(** The code units of a serialized query string. *)
Definition query_safe (c : N) : bool := form_safe c || (c =? ch "&")%N || (c =? ch "=")%N.

(** The string of an entry of the query map. *)
Definition text_of (q : qvalue) : jsstring :=
  match q with
  | QString s => s
  | QArray _ => []
  end.

Definition well_formed_pair (p : jsstring * jsstring) : Prop :=
  well_formed (fst p) = true /\ well_formed (snd p) = true.

(** *** The compiled pattern, part by part *)

(** The code units of an identifier after the first. *)
Definition ident_char (c : N) : bool := is_alnum c || (c =? ch "_")%N.

(** The global replacement with fuel for the whole string. *)
Definition scan (s : jsstring) : list piece := replace_groups (List.length s) s.

(** What [escapeRegExp] makes of a part. *)
Definition escaped_part (p : part) : jsstring :=
  match p with
  | Text s => flat_map escape_char s
  | Hole key => [ch "\"; ch "{"] ++ key ++ [ch "\"; ch "}"]
  end.

Definition pieces_of (p : part) : list piece :=
  match p with
  | Text s => map Src (flat_map escape_char s)
  | Hole key => [Inserted key]
  end.

Definition items_of_part (p : part) : list item :=
  match p with
  | Text s => map Lit s
  | Hole key => [Group key []]
  end.

(** The expression of a pattern: its text, literally, and a group for every
    placeholder. *)
Definition compiled (parts : list part) : list item := flat_map items_of_part parts.

(** No [{] comes next. *)
Definition no_brace_ahead (t : jsstring) : Prop :=
  match t with
  | d :: _ => (d =? ch "{")%N = false
  | [] => True
  end.

(** Every placeholder ends the pattern or is followed by text that starts
    with [/] or [?]. *)
Fixpoint delimited (parts : list part) : bool :=
  match parts with
  | [] => true
  | Text _ :: parts' => delimited parts'
  | Hole _ :: parts' =>
      match parts' with
      | [] => true
      | Text (c :: _) :: _ => negb (segment_char c) && delimited parts'
      | _ => false
      end
  end.

(** *** Errors of the field loops *)

(** What the two loops of [fromUrl] can throw. *)
Definition field_error (e : error) : Prop :=
  match e with
  | MissingPathFieldError _ | MissingQueryFieldError _ | URIError | UserError _ => True
  | _ => False
  end.

(** *** What a field holds after [fromUrl] *)



(** A class whose annotated fields are all plain: no serde functions. *)
Definition plain_fields (type : RouteType) : Prop :=
  forall f m,
    get f (metadata type) = Some m ->
    match m with
    | Path _ | Query _ _ => True
    | PathSerde _ _ | QuerySerde _ _ => False
    end.

(** *** Round trips *)

(** The groups the expression of a pattern captures in its filled form. *)
Definition groups_of (pathParams : record jsstring) (parts : list part) : record jsstring :=
  map (fun k => (k, fill_part pathParams (Hole k))) (holes parts).

(** The query part of a URL and what the expression captures of it. *)
Definition query_suffix (qs : search_params) : jsstring :=
  match qs with
  | [] => []
  | _ => ch "?" :: usp_toString qs
  end.

Definition query_capture (qs : search_params) : option jsstring :=
  match qs with
  | [] => None
  | _ => Some (usp_toString qs)
  end.

(** What a property contributes to the path and to the query parameters
    when it is a plain field that holds a value. *)
Definition path_entry (obj : Instance) (f : jsstring) : record jsstring :=
  match get f (metadata (constructor obj)) with
  | Some (Path propertyKey) => [(nullish_or propertyKey f, to_js_string (prop obj f))]
  | _ => []
  end.

Definition query_entry (obj : Instance) (f : jsstring) : record qvalue :=
  match get f (metadata (constructor obj)) with
  | Some (Query propertyKey dataType) =>
      [(nullish_or propertyKey f, QString (query_text dataType (prop obj f)))]
  | _ => []
  end.

Definition path_pairs (obj : Instance) : record jsstring :=
  flat_map (path_entry obj) (getOwnPropertyNames (props obj)).

Definition query_pairs (obj : Instance) : record qvalue :=
  flat_map (query_entry obj) (getOwnPropertyNames (props obj)).

(** A property without metadata, a plain path field that holds a non-empty
    well-formed string, a plain query field that holds a well-formed string,
    or a Boolean query field that holds [true]; query keys are well-formed. *)
Definition simple_field (obj : Instance) (f : jsstring) : Prop :=
  match get f (metadata (constructor obj)) with
  | None => True
  | Some (Path _) =>
      exists s, prop obj f = VString s /\ s <> [] /\ well_formed s = true
  | Some (Query propertyKey dataType) =>
      well_formed (nullish_or propertyKey f) = true
      /\ (if is_Boolean dataType then prop obj f = VBool true
          else exists s, prop obj f = VString s /\ well_formed s = true)
  | Some _ => False
  end.

(** The pattern of the profile class, in parts. *)
Definition profile_parts : list part :=
  [Text (js "/users/"); Hole (js "id"); Text (js "/profile")].

(** *** Shapes of URLs and expressions *)


(** An expression without literal [?]. *)
Definition question_free_item (i : item) : bool :=
  match i with
  | Lit c => negb (c =? ch "?")%N
  | Group _ body => negb (mem (ch "?") body)
  end.

Definition question_free (re : list item) : bool := forallb question_free_item re.

(** The pattern with every placeholder replaced by the text [raw] gives for
    its key. *)
Definition instance_of (raw : jsstring -> jsstring) (parts : list part) : jsstring :=
  flat_map (fun p => match p with
                     | Text s => s
                     | Hole key => raw key
                     end) parts.

(** The groups of such a URL. *)
Definition segments_of (raw : jsstring -> jsstring) (parts : list part) : record jsstring :=
  map (fun k => (k, raw k)) (holes parts).

(** An instance of the class [type] with the own properties of a fresh one. *)
Definition same_shape (type : RouteType) (tmp : Instance) : Prop :=
  constructor tmp = type /\ map fst (props tmp) = map fst (fields type).

(** A class with a path field and a property without metadata. *)
Definition noted_class : RouteType :=
  {| routeKey := Some (js "/users/{id}");
     nameKey := Some (js "user");
     fields := [(js "id", VUndefined); (js "note", VString (js "draft"))];
     metadata := [(js "id", Path None)] |}.


(** An instance of the profile class without values. *)
Definition blank_profile : Instance :=
  {| constructor := Examples.profile_class;
     props := [(js "id", VNull); (js "tab", VUndefined); (js "happy", VNull)] |}.

(** A class whose own property [__proto__] is a path field of key id. *)
Definition proto_class : RouteType :=
  {| routeKey := Some (js "/users/{id}");
     nameKey := Some (js "user");
     fields := [(js "__proto__", VString (js "unset"))];
     metadata := [(js "__proto__", Path (Some (js "id")))] |}.

(** *** Routes of Next.js *)

(** A route of Next.js in parts: a placeholder is written [[key]]. *)
Definition bracketed (parts : list part) : jsstring :=
  flat_map (fun p => match p with
                     | Text s => s
                     | Hole key => [ch "["] ++ key ++ [ch "]"]
                     end) parts.

(** The replacement with fuel for the whole string. *)
Definition to_braces (s : jsstring) : jsstring := Next.replace_brackets (List.length s) s.

(** A name that a pair of brackets can hold. *)
Definition bracket_name (k : jsstring) : bool :=
  negb (mem (ch "]") k) && negb (existsb line_terminator k).

(** *** Strings of 16-bit code units *)



(** ** Facts about the runtime *)

Unset Implicit Arguments.

Lemma eqb_str_spec (s t : jsstring) : eqb_str s t = true <-> s = t.
Proof.
  revert t; induction s as [|c s IH]; intros [|d t]; simpl; split; try easy.
  - rewrite andb_true_iff, N.eqb_eq, IH. now intros [-> ->].
  - intros [= -> ->]. rewrite N.eqb_refl. now apply IH.
Qed.

Lemma eqb_str_refl (s : jsstring) : eqb_str s s = true.
Proof. now apply eqb_str_spec. Qed.

Lemma eqb_str_neq (s t : jsstring) : s <> t -> eqb_str s t = false.
Proof.
  intros H. destruct (eqb_str s t) eqn:E; [|reflexivity].
  apply eqb_str_spec in E. contradiction.
Qed.

Lemma eqb_str_sym (s t : jsstring) : eqb_str s t = eqb_str t s.
Proof.
  destruct (eqb_str t s) eqn:E.
  - apply eqb_str_spec in E. subst. apply eqb_str_refl.
  - apply eqb_str_neq. intros ->. now rewrite eqb_str_refl in E.
Qed.

Ltac case_key k k' :=
  let E := fresh "E" in
  destruct (eqb_str k k') eqn:E;
  [apply eqb_str_spec in E; try subst | idtac].

Section RecordFacts.
Variable A : Type.
Implicit Types (r : record A) (k : jsstring) (v : A).

Lemma get_set_same r k v : get k (set k v r) = Some v.
Proof.
  induction r as [|[k' v'] r IH]; simpl.
  - now rewrite eqb_str_refl.
  - destruct (eqb_str k' k) eqn:E; simpl; rewrite E; auto.
Qed.

Lemma get_set_other r k k' v : k <> k' -> get k' (set k v r) = get k' r.
Proof.
  intros Hne. induction r as [|[k0 v0] r IH]; simpl.
  - rewrite eqb_str_neq; auto.
  - destruct (eqb_str k0 k) eqn:E; simpl.
    + apply eqb_str_spec in E; subst. rewrite eqb_str_neq; auto.
    + now rewrite IH.
Qed.

Lemma get_In r k v : get k r = Some v -> In (k, v) r.
Proof.
  induction r as [|[k' v'] r IH]; simpl; [easy|].
  destruct (eqb_str k' k) eqn:E.
  - apply eqb_str_spec in E. intros [= ->]. subst. now left.
  - intros H. right. auto.
Qed.

Lemma get_None_notin r k : get k r = None <-> ~ In k (map fst r).
Proof.
  induction r as [|[k' v'] r IH]; simpl; [tauto|].
  destruct (eqb_str k' k) eqn:E.
  - apply eqb_str_spec in E. subst. split; [easy|]. intros H; exfalso; auto.
  - rewrite IH. split.
    + intros H [->|H']; [now rewrite eqb_str_refl in E | auto].
    + tauto.
Qed.

Lemma get_Some_in r k v : get k r = Some v -> In k (map fst r).
Proof. intros H. apply get_In in H. now apply (in_map fst) in H. Qed.

Lemma in_get r k : In k (map fst r) -> exists v, get k r = Some v.
Proof.
  intros H. destruct (get k r) eqn:E; [eauto|].
  apply get_None_notin in E. contradiction.
Qed.

Lemma NoDup_get r k v : NoDup (map fst r) -> In (k, v) r -> get k r = Some v.
Proof.
  induction r as [|[k' v'] r IH]; simpl; [easy|].
  intros Hnd [[= -> ->]|Hin].
  - now rewrite eqb_str_refl.
  - inversion Hnd; subst. destruct (eqb_str k' k) eqn:E; [|auto].
    apply eqb_str_spec in E; subst. exfalso. apply H1.
    now apply (in_map fst) in Hin.
Qed.

Lemma set_keys_in r k v : In k (map fst r) -> map fst (set k v r) = map fst r.
Proof.
  induction r as [|[k' v'] r IH]; simpl; [easy|].
  intros H. destruct (eqb_str k' k) eqn:E; simpl; [reflexivity|].
  f_equal. apply IH. destruct H as [->|H]; [now rewrite eqb_str_refl in E | assumption].
Qed.

Lemma set_keys_notin r k v : ~ In k (map fst r) -> map fst (set k v r) = map fst r ++ [k].
Proof.
  induction r as [|[k' v'] r IH]; simpl; [easy|].
  intros H. destruct (eqb_str k' k) eqn:E; simpl.
  - apply eqb_str_spec in E. subst. exfalso; auto.
  - f_equal. apply IH. auto.
Qed.

Lemma set_NoDup r k v : NoDup (map fst r) -> NoDup (map fst (set k v r)).
Proof.
  intros Hnd. destruct (in_dec (list_eq_dec N.eq_dec) k (map fst r)) as [Hin|Hnot].
  - now rewrite set_keys_in.
  - rewrite set_keys_notin by assumption.
    apply NoDup_app; [assumption | constructor; [easy | constructor] |].
    intros x Hx [<-|[]]. contradiction.
Qed.

(** An assignment to a plain object stores the property, or is the
    assignment to [__proto__] that stores nothing. *)
Lemma put_cases r k v :
  put k v r = set k v r
  \/ (k = js "__proto__" /\ get k r = None /\ put k v r = r).
Proof.
  unfold put. destruct (get k r) eqn:E; [now left|].
  case_key k (js "__proto__"); [right; auto | now left].
Qed.

Lemma put_set r k v : k <> js "__proto__" -> put k v r = set k v r.
Proof.
  intros H. destruct (put_cases r k v) as [E|(E & _)]; [exact E | contradiction].
Qed.

Lemma put_keys r k v k0 :
  In k0 (map fst (put k v r)) -> In k0 (map fst r) \/ k0 = k.
Proof.
  destruct (put_cases r k v) as [->|(_ & _ & ->)]; [|auto].
  destruct (in_dec (list_eq_dec N.eq_dec) k (map fst r)) as [Hin|Hnot].
  - rewrite set_keys_in by assumption. auto.
  - rewrite set_keys_notin by assumption. intros H. apply in_app_iff in H.
    destruct H as [H|[<-|[]]]; auto.
Qed.

Lemma put_NoDup r k v : NoDup (map fst r) -> NoDup (map fst (put k v r)).
Proof.
  destruct (put_cases r k v) as [->|(_ & _ & ->)]; [apply set_NoDup | auto].
Qed.

Lemma get_put_other r k k' v : k <> k' -> get k' (put k v r) = get k' r.
Proof.
  intros H. destruct (put_cases r k v) as [->|(_ & _ & ->)]; [|reflexivity].
  now apply get_set_other.
Qed.

Lemma get_put_same r k v : k <> js "__proto__" -> get k (put k v r) = Some v.
Proof. intros H. rewrite put_set by assumption. apply get_set_same. Qed.

(** [entries] lists every property once. *)
Lemma insert_index_perm i (e : jsstring * A) l :
  Permutation (map snd (insert_index i e l)) (e :: map snd l).
Proof.
  induction l as [|[j e'] l IH]; simpl; [reflexivity|].
  destruct (N.ltb i j); simpl; [reflexivity|].
  rewrite IH. apply perm_swap.
Qed.

Lemma entries_perm r : Permutation (entries r) r.
Proof.
  unfold entries. induction r as [|e r IH]; simpl; [reflexivity|].
  destruct (array_index (fst e)); simpl.
  - rewrite insert_index_perm. simpl. now apply perm_skip.
  - rewrite <- Permutation_middle. now apply perm_skip.
Qed.

Lemma entries_In r e : In e (entries r) <-> In e r.
Proof.
  split; apply Permutation_in; [apply entries_perm | symmetry; apply entries_perm].
Qed.

Lemma entries_keys_In r k : In k (map fst (entries r)) <-> In k (map fst r).
Proof.
  split; apply Permutation_in; apply Permutation_map;
    [apply entries_perm | symmetry; apply entries_perm].
Qed.

Lemma entries_NoDup r : NoDup (map fst r) -> NoDup (map fst (entries r)).
Proof.
  apply Permutation_NoDup. apply Permutation_map. symmetry. apply entries_perm.
Qed.

Lemma entries_single k v : entries [(k, v)] = [(k, v)].
Proof. unfold entries. simpl. destruct (array_index k); reflexivity. Qed.

End RecordFacts.

Lemma getOwnPropertyNames_In A (r : record A) k :
  In k (getOwnPropertyNames r) <-> In k (map fst r).
Proof. apply entries_keys_In. Qed.

(** ** The registry and reverse lookup *)

Lemma register_other_group knownRoutes r g :
  group_or_default (r_group r) <> g ->
  get g (register knownRoutes r) = get g knownRoutes.
Proof.
  intros Hne. unfold register, route.
  destruct (inherited (group_or_default (r_group r))); [reflexivity|].
  destruct (inherited (r_name r)), (routeKey (r_class r)); cbn [registry_after];
    now rewrite get_set_other.
Qed.

Lemma registered_other_group history knownRoutes g :
  (forall r, In r history -> group_or_default (r_group r) <> g) ->
  get g (fold_left register history knownRoutes) = get g knownRoutes.
Proof.
  revert knownRoutes; induction history as [|r history IH]; intros knownRoutes H; simpl.
  - reflexivity.
  - rewrite IH by (intros r' Hr'; apply H; now right).
    apply register_other_group. apply H. now left.
Qed.

(** C10, amended. For every URL and every group under which no route was
    ever registered (no decorator of the history naming a group called like a
    member of [Object.prototype]), [from(url, group)] throws a TypeError,
    [definedRoutes] giving undefined for the group, unless the group is
    called like a member of [Object.prototype]: then [definedRoutes] gives
    that member, which has no entries, and [from] returns null. *)
Theorem from_unregistered_group_throws :
  forall (history : list registration) (url : jsstring) (group : option jsstring),
    plain_groups history ->
    (forall r, In r history -> group_or_default (r_group r) <> group_or_default group) ->
    definedRoutes (registered history) group
    = (if inherited (group_or_default group) then Some [] else None)
    /\ from (registered history) url group
       = (if inherited (group_or_default group) then Ok None else Throw TypeError).
Proof.
  intros history url group _ Hnever.
  assert (H : definedRoutes (registered history) group
              = if inherited (group_or_default group) then Some [] else None).
  { unfold definedRoutes, registered. now rewrite registered_other_group. }
  split; [exact H|]. unfold from. rewrite H.
  now destruct (inherited (group_or_default group)).
Qed.

(** The example classes are registered in the default group only: a lookup
    in the group admin throws. *)
Lemma from_unregistered_group_throws_example :
  definedRoutes (registered Examples.history) (Some (js "admin")) = None
  /\ from (registered Examples.history) (js "/posts/7") (Some (js "admin")) = Throw TypeError.
Proof.
  apply (from_unregistered_group_throws Examples.history (js "/posts/7") (Some (js "admin"))).
  - intros r [<-|[<-|[<-|[]]]]; reflexivity.
  - intros r [<-|[<-|[<-|[]]]]; vm_compute; discriminate.
Defined.

(** C10, counterexample. No class of the example registry is registered in
    a group toString or constructor (all are in the default group), and
    [from] does not throw for these groups: [knownRoutes[group]] is the
    member of [Object.prototype] of that name, without entries, and [from]
    returns null. *)
Lemma from_inherited_group_returns_null :
  map (fun r => group_or_default (r_group r)) Examples.history = [[]; []; []]
  /\ definedRoutes (registered Examples.history) (Some (js "toString")) = Some []
  /\ from (registered Examples.history) (js "/posts/7") (Some (js "toString")) = Ok None
  /\ from (registered Examples.history) (js "/posts/7") (Some (js "constructor")) = Ok None.
Proof. repeat split; vm_compute; reflexivity. Qed.

Lemma first_success_app url l1 l2 :
  first_success url (l1 ++ l2) =
  match first_success url l1 with
  | Some r => Some r
  | None => first_success url l2
  end.
Proof.
  induction l1 as [|[name c] l1 IH]; simpl; [reflexivity|].
  destruct (fromUrl c url None); auto.
Qed.

Lemma first_success_Some url l name inst :
  first_success url l = Some (name, inst) <->
  exists pre candidate post,
    l = pre ++ (name, candidate) :: post
    /\ Forall (fun c => throws url (snd c)) pre
    /\ fromUrl candidate url None = Ok inst.
Proof.
  induction l as [|[n c] l IH]; simpl.
  - split; [discriminate|]. intros (pre & c & post & H & _). now destruct pre.
  - destruct (fromUrl c url None) as [r|e] eqn:E.
    + split.
      * intros H. inversion H; subst. exists [], c, l. auto.
      * intros (pre & c' & post & H & Hpre & Hc). destruct pre as [|p pre].
        -- simpl in H. inversion H; subst. congruence.
        -- simpl in H. inversion H; subst.
           inversion Hpre as [|? ? [e He] _]; subst. simpl in He. congruence.
    + rewrite IH. split.
      * intros (pre & c' & post & H & Hpre & Hc). subst l.
        exists ((n, c) :: pre), c', post. repeat split; auto.
        constructor; auto. now exists e.
      * intros (pre & c' & post & H & Hpre & Hc). destruct pre as [|p pre].
        -- simpl in H. inversion H; subst. congruence.
        -- simpl in H. inversion H; subst. inversion Hpre; subst.
           exists pre, c', post. auto.
Qed.

Lemma first_success_None url l :
  first_success url l = None <-> Forall (fun c => throws url (snd c)) l.
Proof.
  induction l as [|[n c] l IH]; simpl.
  - split; auto.
  - destruct (fromUrl c url None) as [r|e] eqn:E.
    + split; [discriminate|]. intros H. inversion H as [|? ? [e He] _]; subst.
      simpl in He. congruence.
    + rewrite IH. split.
      * intros H. constructor; auto. now exists e.
      * intros H. now inversion H.
Qed.

(** *** What the registrations leave in the registry *)

Lemma registered_snoc history r :
  registered (history ++ [r]) = register (registered history) r.
Proof. unfold registered. now rewrite fold_left_app. Qed.

Lemma register_names_at knownRoutes r g :
  inherited g = false ->
  names_at (register knownRoutes r) g =
  if listed g r
  then set (r_name r)
           (classes_at knownRoutes g (r_name r)
            ++ (if undecorated r then [decorated r] else []))
           (names_at knownRoutes g)
  else names_at knownRoutes g.
Proof.
  intros Hg. unfold listed, in_group. case_key (group_or_default (r_group r)) g.
  - unfold names_at at 1. unfold register, route, undecorated, decorated.
    rewrite Hg. cbn [andb].
    destruct (inherited (r_name r)); cbn [negb];
      destruct (routeKey (r_class r)); cbn [registry_after]; rewrite get_set_same;
      unfold classes_at, names_at; try reflexivity.
    now rewrite app_nil_r.
  - cbn [andb]. unfold names_at. rewrite register_other_group; [reflexivity|].
    intros H. apply eqb_str_spec in H. congruence.
Qed.

Lemma existsb_eqb_str_In n l : existsb (eqb_str n) l = true <-> In n l.
Proof.
  rewrite existsb_exists. split.
  - intros (x & Hx & E). apply eqb_str_spec in E. now subst.
  - intros H. exists n. split; [assumption | apply eqb_str_refl].
Qed.

Lemma first_places_snoc seen l n :
  first_places seen (l ++ [n]) =
  first_places seen l ++ (if existsb (eqb_str n) (seen ++ l) then [] else [n]).
Proof.
  revert seen; induction l as [|m l IH]; intros seen; simpl.
  - rewrite app_nil_r. now destruct (existsb (eqb_str n) seen).
  - destruct (existsb (eqb_str m) seen) eqn:E.
    + rewrite IH. f_equal.
      assert (H : existsb (eqb_str n) (seen ++ m :: l) = existsb (eqb_str n) (seen ++ l)).
      { apply eq_true_iff_eq. rewrite !existsb_eqb_str_In, !in_app_iff. simpl.
        apply existsb_eqb_str_In in E. intuition (subst; auto). }
      now rewrite H.
    + simpl. rewrite IH. now rewrite <- app_assoc.
Qed.

Lemma first_places_In seen l n :
  In n (first_places seen l) <-> In n l /\ ~ In n seen.
Proof.
  revert seen; induction l as [|m l IH]; intros seen; simpl; [tauto|].
  destruct (existsb (eqb_str m) seen) eqn:E.
  - apply existsb_eqb_str_In in E. rewrite IH. split.
    + intros [H1 H2]. auto.
    + intros [[->|H1] H2]; [contradiction | auto].
  - assert (Hm : ~ In m seen).
    { intros H. apply existsb_eqb_str_In in H. congruence. }
    simpl. rewrite IH, in_app_iff. simpl.
    destruct (list_eq_dec N.eq_dec m n) as [->|Hne]; intuition (subst; auto).
Qed.

Lemma filter_snoc A (f : A -> bool) l a :
  filter f (l ++ [a]) = filter f l ++ (if f a then [a] else []).
Proof. rewrite filter_app. simpl. now destruct (f a). Qed.

Lemma classes_at_register knownRoutes r g name :
  inherited g = false ->
  classes_at (register knownRoutes r) g name =
  classes_at knownRoutes g name
  ++ (if listed g r && eqb_str (r_name r) name && undecorated r
      then [decorated r] else []).
Proof.
  intros Hg. unfold classes_at at 1. rewrite (register_names_at _ _ _ Hg).
  destruct (listed g r) eqn:Eg; simpl; [|now rewrite app_nil_r].
  case_key (r_name r) name; simpl.
  - rewrite get_set_same. destruct (undecorated r); [reflexivity|].
    now rewrite !app_nil_r.
  - rewrite get_set_other by (intros H; apply eqb_str_spec in H; congruence).
    now rewrite app_nil_r.
Qed.

(** The registry holds, for every group, the names in the order of their
    first registration and under each name the classes in registration order. *)
Lemma registered_shape history g :
  inherited g = false ->
  NoDup (map fst (names_at (registered history) g))
  /\ map fst (names_at (registered history) g) = names_of history g
  /\ forall name, classes_at (registered history) g name = classes_of history g name.
Proof.
  intros Hg.
  induction history as [|r history (IHnd & IHnames & IHclasses)] using rev_ind.
  - split; [constructor | split; [reflexivity | intros name; reflexivity]].
  - rewrite registered_snoc. split; [|split].
    + rewrite (register_names_at _ _ _ Hg).
      destruct (listed g r); [now apply set_NoDup | assumption].
    + rewrite (register_names_at _ _ _ Hg). unfold names_of in *. rewrite filter_snoc.
      destruct (listed g r) eqn:Eg; [|now rewrite app_nil_r].
      rewrite map_app. change (map r_name [r]) with [r_name r].
      rewrite first_places_snoc. simpl.
      destruct (existsb (eqb_str (r_name r))
                  (map r_name (filter (listed g) history))) eqn:E.
      * rewrite app_nil_r, set_keys_in; [assumption|].
        rewrite IHnames. apply first_places_In. split; [|easy].
        now apply existsb_eqb_str_In.
      * rewrite set_keys_notin; [now rewrite IHnames|].
        rewrite IHnames. intros H. apply first_places_In in H.
        destruct H as [H _]. apply existsb_eqb_str_In in H. congruence.
    + intros name. rewrite (classes_at_register _ _ _ _ Hg), IHclasses.
      unfold classes_of. rewrite filter_snoc, map_app.
      now destruct (listed g r && eqb_str (r_name r) name && undecorated r).
Qed.

Lemma registered_group_defined history g :
  inherited g = false ->
  (exists r, In r history /\ in_group g r = true) ->
  get g (registered history) = Some (names_at (registered history) g).
Proof.
  intros Hi (r & Hin & Hg). induction history as [|r' history IH] using rev_ind; [easy|].
  rewrite registered_snoc. unfold names_at.
  destruct (in_group g r') eqn:Eg.
  - unfold in_group in Eg. apply eqb_str_spec in Eg. subst g.
    unfold register, route. rewrite Hi.
    destruct (inherited (r_name r')), (routeKey (r_class r')); cbn [registry_after];
      now rewrite get_set_same.
  - rewrite register_other_group.
    + apply in_app_iff in Hin. destruct Hin as [Hin|[->|[]]]; [|congruence].
      specialize (IH Hin). unfold names_at in IH. now rewrite IH.
    + intros H. apply eqb_str_spec in H. unfold in_group in Eg. congruence.
Qed.

Lemma insert_index_map A B (g : jsstring * A -> jsstring * B) i e l :
  insert_index i (g e) (map (fun p => (fst p, g (snd p))) l) =
  map (fun p => (fst p, g (snd p))) (insert_index i e l).
Proof.
  induction l as [|[j e'] l IH]; simpl; [reflexivity|].
  destruct (N.ltb i j); simpl; [reflexivity|]. now rewrite IH.
Qed.

(** Changing the values of a record does not change the order of its keys. *)
Lemma entries_map A B (f : jsstring * A -> B) (r : record A) :
  entries (map (fun e => (fst e, f e)) r) = map (fun e => (fst e, f e)) (entries r).
Proof.
  unfold entries. rewrite map_app. f_equal.
  - set (g := fun e : jsstring * A => (fst e, f e)).
    assert (H : index_entries (map g r) = map (fun p => (fst p, g (snd p))) (index_entries r)).
    { induction r as [|e r IH]; simpl; [reflexivity|].
      destruct (array_index (fst e)); [|assumption].
      rewrite IH. apply insert_index_map. }
    rewrite H, !map_map. reflexivity.
  - unfold named_entries. induction r as [|e r IH]; simpl; [reflexivity|].
    destruct (array_index (fst e)); simpl; now rewrite IH.
Qed.

Lemma candidates_in_order_registered history g :
  inherited g = false ->
  candidates_in_order (names_at (registered history) g) = lookup_order history g.
Proof.
  intros Hg.
  destruct (registered_shape history g Hg) as (Hnd & Hnames & Hclasses).
  set (names := names_at (registered history) g) in *.
  assert (H : names = map (fun e => (fst e, classes_of history g (fst e)))
                          (map (fun k => (k, tt)) (map fst names))).
  { rewrite !map_map. simpl. rewrite <- (map_id names) at 1.
    apply map_ext_in. intros [k cs] Hin. simpl. f_equal.
    rewrite <- Hclasses. unfold classes_at. fold names.
    now rewrite (@NoDup_get _ _ _ _ Hnd Hin). }
  unfold candidates_in_order, lookup_order, key_order.
  rewrite H at 1. rewrite entries_map, Hnames, !flat_map_concat_map, !map_map.
  reflexivity.
Qed.

(** ** The matcher *)

Lemma strip_prefix_spec p s rest : strip_prefix p s = Some rest <-> s = p ++ rest.
Proof.
  revert s; induction p as [|c p IH]; intros s; simpl.
  - split; [now intros [= ->] | now intros ->].
  - destruct s as [|d s]; [split; discriminate|].
    destruct (N.eqb_spec c d) as [->|Hne].
    + rewrite IH. split; [now intros -> | now intros [= ->]].
    + split; [discriminate | intros [= ? _]; congruence].
Qed.

Lemma strip_prefix_app p rest : strip_prefix p (p ++ rest) = Some rest.
Proof. now apply strip_prefix_spec. Qed.

Section GreedyFacts.
Variable A : Type.
Variable k : jsstring -> jsstring -> option A.

Lemma greedy_sound s : forall run r,
  greedy k run s = Some r ->
  exists more rest,
    s = more ++ rest /\ more <> [] /\ forallb segment_char more = true
    /\ k (run ++ more) rest = Some r.
Proof.
  induction s as [|c s IH]; intros run r; simpl; [discriminate|].
  destruct (segment_char c) eqn:Ec; [|discriminate].
  destruct (greedy k (run ++ [c]) s) as [r'|] eqn:E.
  - intros [= <-]. destruct (IH _ _ E) as (more & rest & -> & _ & Hall & Hk).
    exists (c :: more), rest. repeat split; [easy | simpl; now rewrite Ec |].
    now rewrite <- app_assoc in Hk.
  - intros Hk. exists [c], s. repeat split; [easy | simpl; now rewrite Ec | assumption].
Qed.

Lemma greedy_complete more : forall run rest r,
  more <> [] -> forallb segment_char more = true ->
  k (run ++ more) rest = Some r ->
  exists r', greedy k run (more ++ rest) = Some r'.
Proof.
  induction more as [|c more IH]; intros run rest r Hne Hall Hk; [easy|].
  simpl in Hall. apply andb_true_iff in Hall. destruct Hall as [Hc Hall].
  simpl. rewrite Hc.
  destruct (greedy k (run ++ [c]) (more ++ rest)) as [r'|] eqn:E; [eauto|].
  destruct more as [|d more]; [simpl; eauto|].
  exfalso. destruct (IH (run ++ [c]) rest r) as [r' Hr']; [easy | assumption | | congruence].
  now rewrite <- app_assoc.
Qed.

(** The longest run is tried first. *)
Lemma greedy_longest more : forall run rest r,
  more <> [] -> forallb segment_char more = true ->
  (match rest with [] => true | c :: _ => negb (segment_char c) end) = true ->
  k (run ++ more) rest = Some r ->
  greedy k run (more ++ rest) = Some r.
Proof.
  induction more as [|c more IH]; intros run rest r Hne Hall Hstop Hk; [easy|].
  simpl in Hall. apply andb_true_iff in Hall. destruct Hall as [Hc Hall].
  simpl. rewrite Hc. destruct more as [|d more].
  - simpl. destruct rest as [|e rest]; simpl; [assumption|].
    apply negb_true_iff in Hstop. now rewrite Hstop.
  - rewrite (IH (run ++ [c]) rest r); [reflexivity | easy | assumption | assumption |].
    now rewrite <- app_assoc.
Qed.

End GreedyFacts.

Lemma match_here_sound re : forall s groups rest,
  match_here re s = Some (groups, rest) ->
  exists path, s = path ++ rest /\ matches re path groups.
Proof.
  induction re as [|[c|name body] re IH]; intros s groups rest; simpl.
  - intros [= <- <-]. exists []. split; [reflexivity | constructor].
  - destruct s as [|d s]; [discriminate|].
    destruct (N.eqb_spec c d) as [->|]; [|discriminate].
    intros H. destruct (IH _ _ _ H) as (path & -> & Hm).
    exists (d :: path). split; [reflexivity | now constructor].
  - destruct (strip_prefix body s) as [s1|] eqn:Es; [|discriminate].
    apply strip_prefix_spec in Es. subst s.
    intros H. apply greedy_sound in H.
    destruct H as (more & rest' & -> & Hne & Hall & Hk).
    destruct (match_here re rest') as [[g r]|] eqn:E; [|discriminate].
    injection Hk as <- <-.
    destruct (IH _ _ _ E) as (path & -> & Hm).
    exists (body ++ more ++ path). split.
    + now rewrite <- !app_assoc.
    + now constructor.
Qed.

Lemma match_here_complete re : forall path groups,
  matches re path groups ->
  forall rest, exists groups' rest', match_here re (path ++ rest) = Some (groups', rest').
Proof.
  intros path groups Hm. induction Hm as [|c re s g Hm IH|name body run re s g Hne Hall Hm IH];
    intros rest; simpl.
  - eauto.
  - rewrite N.eqb_refl. apply IH.
  - rewrite <- !app_assoc, strip_prefix_app.
    destruct (IH rest) as (g' & r' & E).
    edestruct (greedy_complete _
                 (fun run0 rest0 =>
                    match match_here re rest0 with
                    | Some (groups0, r) => Some ((name, body ++ run0) :: groups0, r)
                    | None => None
                    end) run [] (s ++ rest)) as [[g2 r2] H2]; eauto.
    simpl. now rewrite E.
Qed.

Lemma search_sound re s groups rest :
  search re s = Some (groups, rest) ->
  exists pre path, s = pre ++ path ++ rest /\ matches re path groups.
Proof.
  induction s as [|c s IH]; simpl.
  - destruct (match_here re []) as [[g r]|] eqn:E; [|discriminate].
    intros [= <- <-]. apply match_here_sound in E. destruct E as (path & E & Hm).
    exists [], path. auto.
  - destruct (match_here re (c :: s)) as [[g r]|] eqn:E.
    + intros [= <- <-]. apply match_here_sound in E. destruct E as (path & E & Hm).
      exists [], path. auto.
    + intros H. destruct (IH H) as (pre & path & -> & Hm).
      exists (c :: pre), path. auto.
Qed.

Lemma search_complete re pre path post groups :
  matches re path groups -> search re (pre ++ path ++ post) <> None.
Proof.
  intros Hm. induction pre as [|c pre IH]; simpl.
  - destruct (match_here_complete re path groups Hm post) as (g & r & E).
    destruct (path ++ post); simpl; rewrite E; discriminate.
  - destruct (match_here re (c :: pre ++ path ++ post)); [discriminate | assumption].
Qed.

(** [exec] fails exactly when no part of the string is an instance of the
    pattern. *)
Lemma exec_None_iff re url :
  exec re url = None <->
  forall pre path post groups, url = pre ++ path ++ post -> ~ matches re path groups.
Proof.
  unfold exec. split.
  - intros H pre path post groups -> Hm.
    apply (search_complete re pre path post groups Hm).
    destruct (search re (pre ++ path ++ post)) as [[g r]|]; [discriminate | reflexivity].
  - intros H. destruct (search re url) as [[g r]|] eqn:E; [|reflexivity].
    apply search_sound in E. destruct E as (pre & path & -> & Hm).
    exfalso. eapply H; eauto.
Qed.

(** ** Errors of [fromUrl] *)

Lemma foldM_throw A S (step : S -> A -> result S) (P : error -> Prop) l :
  (forall a s e, step s a = Throw e -> P e) ->
  forall s e, foldM step l s = Throw e -> P e.
Proof.
  intros Hstep. induction l as [|a l IH]; intros s e; simpl; [discriminate|].
  destruct (step s a) as [s'|e'] eqn:E; simpl; [apply IH|].
  intros [= <-]. eauto.
Qed.

Lemma decodeURIComponent_throw s e : decodeURIComponent s = Throw e -> e = URIError.
Proof.
  unfold decodeURIComponent. destruct (pct_tokens s) as [ts|]; [|now intros [= <-]].
  destruct (utf8_strict ts); [discriminate | now intros [= <-]].
Qed.

Lemma call_throw A (c : completion A) e : call c = Throw e -> exists what, e = UserError what.
Proof. destruct c; simpl; [discriminate | intros [= <-]; eauto]. Qed.

(** A group that the match holds is read from the match. *)
Lemma group_value_own groups name v :
  get name groups = Some v -> group_value groups name = Some v.
Proof. destruct groups; [discriminate | auto]. Qed.

(** What the loop over the path fields can throw. *)
Lemma read_path_throw groups tmp kv e :
  read_path groups tmp kv = Throw e ->
  (exists name, snd kv = PathKey name /\ e = MissingPathFieldError name
                /\ group_value groups name = None
                /\ is_nullish (prop tmp (fst kv)) = true)
  \/ e = URIError
  \/ exists what, e = UserError what.
Proof.
  destruct kv as [key [name|deserialize]]; cbn [read_path fst snd].
  - destruct (group_value groups name) as [regexValue|] eqn:Eg.
    + destruct (decodeURIComponent regexValue) eqn:Ed; simpl; [discriminate|].
      intros [= <-]. right; left. eapply decodeURIComponent_throw; eauto.
    + destruct (is_nullish (prop tmp key)) eqn:En; simpl; [|discriminate].
      intros [= <-]. left. exists name. auto.
  - destruct (call (deserialize groups)) eqn:Ec; simpl; [discriminate|].
    intros [= <-]. right; right. eapply call_throw; eauto.
Qed.

(** What the loop over the query fields can throw. *)
Lemma read_query_throw queryParams tmp kv e :
  read_query queryParams tmp kv = Throw e ->
  (exists name dataType,
      snd kv = QueryKey name dataType /\ e = MissingQueryFieldError name
      /\ is_Boolean dataType = false /\ usp_get name queryParams = None
      /\ is_undefined (prop tmp (fst kv)) = true)
  \/ exists what, e = UserError what.
Proof.
  destruct kv as [key [name dataType|deserialize]]; simpl.
  - destruct (is_Boolean dataType) eqn:Eb; [discriminate|].
    destruct (usp_get name queryParams) eqn:Eg; [discriminate|].
    destruct (is_undefined (prop tmp key)) eqn:Eu; simpl; [|discriminate].
    intros [= <-]. left. exists name, dataType. auto.
  - destruct (call (deserialize queryParams)) eqn:Ec; simpl; [discriminate|].
    intros [= <-]. right. eapply call_throw; eauto.
Qed.

Lemma read_fields_throw groups queryParams pathFields queryFields tmp e :
  (tmp1 <- foldM (read_path groups) pathFields tmp ;;
   foldM (read_query queryParams) queryFields tmp1) = Throw e ->
  field_error e.
Proof.
  destruct (foldM (read_path groups) pathFields tmp) as [tmp1|e1] eqn:E1; simpl.
  - apply foldM_throw. intros a s e0 H. apply read_query_throw in H.
    destruct H as [(n & t & _ & -> & _)|[what ->]]; exact I.
  - intros [= <-]. revert E1. apply foldM_throw. intros a s e0 H.
    apply read_path_throw in H.
    destruct H as [(n & _ & -> & _)|[->|[what ->]]]; exact I.
Qed.

(** [fromUrl], step by step. *)
Lemma fromUrl_eq type url route :
  fromUrl type url route =
  match effective_pattern type route with
  | None => Throw TypeError
  | Some pattern =>
      re <- RegExp (pathRegex pattern) ;;
      match exec re url with
      | None => Throw ParseError
      | Some (groups, queryParamString) => populate type groups queryParamString
      end
  end.
Proof.
  unfold fromUrl, populate, assertIsRoute, effective_pattern.
  destruct (resolveFieldsMetadata (construct type)) as [pathFields queryFields].
  destruct route as [p|]; simpl.
  - destruct (RegExp (pathRegex p)); simpl; [|reflexivity].
    now destruct (exec a url) as [[groups q]|].
  - destruct (routeKey type) as [p|]; simpl; [|reflexivity].
    destruct (RegExp (pathRegex p)); simpl; [|reflexivity].
    now destruct (exec a url) as [[groups q]|].
Qed.

Lemma populate_throw type groups q e : populate type groups q = Throw e -> field_error e.
Proof. unfold populate. apply read_fields_throw. Qed.

Lemma RegExp_throw ps e : RegExp ps = Throw e -> e = SyntaxError \/ e = Unsupported.
Proof.
  unfold RegExp. destruct (supported ps); [|intros [= <-]; now right].
  destruct (_ && _); [discriminate | intros [= <-]; now left].
Qed.

(** C7, amended. For every target type and URL, the pattern of the type
    being one whose expression this model reads (escaped text and
    placeholders that are no lookbehind and whose names hold ASCII characters
    only), [fromUrl] throws the ParseError exactly when the pattern compiles
    and no part of the URL is an instance of it.  The expression is not
    anchored: a URL with text before or after an instance of the pattern is
    accepted. *)
Theorem fromUrl_ParseError_iff :
  forall (type : RouteType) (url : jsstring) (route : option jsstring),
    (forall pattern,
        effective_pattern type route = Some pattern ->
        supported (pathRegex pattern) = true) ->
    (fromUrl type url route = Throw ParseError <->
     exists pattern re,
       effective_pattern type route = Some pattern
       /\ RegExp (pathRegex pattern) = Ok re
       /\ forall pre path post groups,
            url = pre ++ path ++ post -> ~ matches re path groups).
Proof.
  intros type url route _. rewrite fromUrl_eq.
  destruct (effective_pattern type route) as [pattern|].
  - destruct (RegExp (pathRegex pattern)) as [re|e] eqn:Ere; simpl.
    + destruct (exec re url) as [[groups q]|] eqn:Ex.
      * split.
        -- intros H. apply populate_throw in H. destruct H.
        -- intros (p & re' & Hp & Hre & Hno).
           injection Hp as <-. rewrite Ere in Hre. injection Hre as <-.
           apply exec_None_iff in Hno. congruence.
      * split; [|reflexivity]. intros _. exists pattern, re.
        repeat split; auto. now apply exec_None_iff.
    + split.
      * intros [= ->]. apply RegExp_throw in Ere. destruct Ere; discriminate.
      * intros (p & re' & Hp & Hre & _). injection Hp as <-. congruence.
  - split; [discriminate|]. intros (p & re & H & _). discriminate.
Qed.

(** The example class and /example/: the pattern compiles and the URL holds
    no instance of it. *)
Lemma fromUrl_ParseError_iff_example :
  fromUrl (Examples.Named (js "/example/{name}")) (js "/example/") None = Throw ParseError <->
  exists pattern re,
    effective_pattern (Examples.Named (js "/example/{name}")) None = Some pattern
    /\ RegExp (pathRegex pattern) = Ok re
    /\ forall pre path post groups,
         js "/example/" = pre ++ path ++ post -> ~ matches re path groups.
Proof.
  apply (fromUrl_ParseError_iff (Examples.Named (js "/example/{name}")) (js "/example/") None).
  intros pattern H. injection H as <-. vm_compute. reflexivity.
Defined.

(** C7, counterexample. The URL /x/example/Basic/y is not an instance of
    the pattern /example/{name}, with or without a query string, and
    [fromUrl] does not throw: it matches the part /example/Basic. *)
Lemma fromUrl_accepts_a_substring :
  exists re,
    RegExp (pathRegex (js "/example/{name}")) = Ok re
    /\ ~ conforms re (js "/x/example/Basic/y")
    /\ fromUrl (Examples.Named (js "/example/{name}")) (js "/x/example/Basic/y") None
       = Ok {| constructor := Examples.Named (js "/example/{name}");
               props := [(js "name", VString (js "Basic"))] |}.
Proof.
  eexists. split; [vm_compute; reflexivity|]. split; [|vm_compute; reflexivity].
  intros (path & groups & Hm & Hurl).
  repeat match goal with
         | H : matches (_ :: _) _ _ |- _ => inversion H; clear H; subst
         end.
  destruct Hurl as [H|[q H]]; vm_compute in H; discriminate.
Qed.

(** ** Query parameters of the serialized URL *)

Lemma jsstring_dec (s t : jsstring) : s = t \/ s <> t.
Proof. destruct (list_eq_dec N.eq_dec s t); auto. Qed.

Section AssignFacts.
Variable A : Type.

Lemma assign_list_keys (src : list (jsstring * A)) : forall (r : record A) k,
  In k (map fst (assign_list r src)) -> In k (map fst r) \/ In k (map fst src).
Proof.
  induction src as [|[k' v'] src IH]; intros r k; simpl; [auto|].
  intros H. apply IH in H. destruct H as [H|H]; [|auto].
  apply put_keys in H. destruct H as [H| ->]; auto.
Qed.

Lemma assign_list_NoDup (src : list (jsstring * A)) : forall (r : record A),
  NoDup (map fst r) -> NoDup (map fst (assign_list r src)).
Proof.
  induction src as [|[k' v'] src IH]; intros r H; simpl; [assumption|].
  apply IH. now apply put_NoDup.
Qed.

Lemma assign_list_get_other (src : list (jsstring * A)) : forall (r : record A) k,
  ~ In k (map fst src) -> get k (assign_list r src) = get k r.
Proof.
  induction src as [|[k' v'] src IH]; intros r k Hk; simpl; [reflexivity|].
  simpl in Hk. rewrite IH by tauto. apply get_put_other. tauto.
Qed.

Lemma assign_keys (r src : record A) k :
  In k (map fst (assign r src)) -> In k (map fst r) \/ In k (map fst src).
Proof.
  intros H. apply assign_list_keys in H. rewrite entries_keys_In in H. exact H.
Qed.

Lemma assign_get_other (r src : record A) k :
  ~ In k (map fst src) -> get k (assign r src) = get k r.
Proof.
  intros H. apply assign_list_get_other. now rewrite entries_keys_In.
Qed.

End AssignFacts.

(** The query map after the loop of [toRelativeUrl]. *)
Lemma collect_query_keys obj f key acc acc' g :
  sole_writer obj f key ->
  g <> f ->
  (forall k, In k (map fst (snd acc)) -> k = key \/ usv k <> usv key) ->
  collect obj acc g = Ok acc' ->
  (forall k, In k (map fst (snd acc')) -> k = key \/ usv k <> usv key)
  /\ (forall v, get key (snd acc) = Some v -> get key (snd acc') = Some v)
  /\ (NoDup (map fst (snd acc)) -> NoDup (map fst (snd acc'))).
Proof.
  intros Hsole Hne Hkeys. unfold collect. destruct acc as [pp qp]. simpl in Hkeys.
  destruct (get g (metadata (constructor obj))) as [m|] eqn:Em;
    [|intros [= <-]; auto].
  destruct (is_nullish (prop obj g)); [intros [= <-]; auto|].
  specialize (Hsole g m Hne Em).
  assert (Hset : forall k v,
             usv k <> usv key ->
             (forall k0, In k0 (map fst (put k v qp)) -> k0 = key \/ usv k0 <> usv key)
             /\ (forall v0, get key qp = Some v0 -> get key (put k v qp) = Some v0)
             /\ (NoDup (map fst qp) -> NoDup (map fst (put k v qp)))).
  { intros k v Hk. repeat split.
    - intros k0 H0. apply put_keys in H0. destruct H0 as [H0| ->]; auto.
    - intros v0 H0. rewrite get_put_other; [assumption|]. intros ->. now apply Hk.
    - apply put_NoDup. }
  destruct m as [pk|ser de|pk dt|ser de].
  - intros [= <-]. auto.
  - destruct (call (ser (prop obj g))); simpl; [|discriminate]. intros [= <-]. auto.
  - destruct (_ && _); intros [= <-]; simpl; now apply Hset.
  - destruct (ser (prop obj g)) as [r|] eqn:Es; simpl; [|discriminate].
    intros [= <-]. simpl. repeat split.
    + intros k Hk. apply assign_keys in Hk. destruct Hk as [Hk|Hk]; [auto|].
      right. eapply Hsole; eauto.
    + intros v Hv. rewrite assign_get_other; [assumption|].
      intros Hin. eapply Hsole; eauto.
    + apply assign_list_NoDup.
Qed.

Lemma collect_query_own obj f propertyKey dataType acc acc' :
  get f (metadata (constructor obj)) = Some (Query propertyKey dataType) ->
  is_nullish (prop obj f) = false ->
  nullish_or propertyKey f <> js "__proto__" ->
  (forall k, In k (map fst (snd acc)) ->
             k = nullish_or propertyKey f \/ usv k <> usv (nullish_or propertyKey f)) ->
  collect obj acc f = Ok acc' ->
  (forall k, In k (map fst (snd acc')) ->
             k = nullish_or propertyKey f \/ usv k <> usv (nullish_or propertyKey f))
  /\ get (nullish_or propertyKey f) (snd acc')
     = Some (QString (query_text dataType (prop obj f)))
  /\ (NoDup (map fst (snd acc)) -> NoDup (map fst (snd acc'))).
Proof.
  intros Hm Hv Hproto Hkeys. unfold collect, query_text. destruct acc as [pp qp].
  simpl in Hkeys. rewrite Hm, Hv.
  assert (Hset : forall v,
             (forall k0, In k0 (map fst (put (nullish_or propertyKey f) v qp)) ->
                         k0 = nullish_or propertyKey f
                         \/ usv k0 <> usv (nullish_or propertyKey f))
             /\ (NoDup (map fst qp) ->
                 NoDup (map fst (put (nullish_or propertyKey f) v qp)))).
  { intros v. split; [|apply put_NoDup].
    intros k0 H0. apply put_keys in H0. destruct H0 as [H0| ->]; auto. }
  destruct (_ && _); intros [= <-]; simpl; rewrite get_put_same by assumption;
    repeat split; try reflexivity; apply Hset.
Qed.

Lemma collect_loop_query obj f propertyKey dataType acc :
  get f (metadata (constructor obj)) = Some (Query propertyKey dataType) ->
  In f (getOwnPropertyNames (props obj)) ->
  is_nullish (prop obj f) = false ->
  nullish_or propertyKey f <> js "__proto__" ->
  sole_writer obj f (nullish_or propertyKey f) ->
  foldM (collect obj) (getOwnPropertyNames (props obj)) ([], []) = Ok acc ->
  let key := nullish_or propertyKey f in
  (forall k, In k (map fst (snd acc)) -> k = key \/ usv k <> usv key)
  /\ get key (snd acc) = Some (QString (query_text dataType (prop obj f)))
  /\ NoDup (map fst (snd acc)).
Proof.
  intros Hm Hin Hv Hproto Hsole Hloop key.
  set (P := fun s : params =>
              (forall k, In k (map fst (snd s)) -> k = key \/ usv k <> usv key)
              /\ NoDup (map fst (snd s))).
  set (text := QString (query_text dataType (prop obj f))).
  assert (Hall : forall l s s',
             P s ->
             foldM (collect obj) l s = Ok s' ->
             P s' /\ (In f l \/ get key (snd s) = Some text -> get key (snd s') = Some text)).
  { intros l. induction l as [|g l IH]; intros s s' [Hk Hnd]; simpl.
    - intros [= <-]. split; [now split|]. intros [[]|H]; assumption.
    - destruct (collect obj s g) as [s1|] eqn:E; simpl; [|discriminate].
      intros Hrest. destruct (jsstring_dec g f) as [->|Hne].
      + destruct (collect_query_own obj f propertyKey dataType s s1 Hm Hv Hproto Hk E)
          as (Hk1 & Hget & Hnd1).
        destruct (IH s1 s' (conj Hk1 (Hnd1 Hnd)) Hrest) as [HP' Hget'].
        split; [assumption|]. intros _. apply Hget'. now right.
      + destruct (collect_query_keys obj f key s s1 g Hsole Hne Hk E)
          as (Hk1 & Hget & Hnd1).
        destruct (IH s1 s' (conj Hk1 (Hnd1 Hnd)) Hrest) as [HP' Hget'].
        split; [assumption|].
        intros [[->|Hin']|Hold]; [contradiction | auto | auto]. }
  destruct (Hall (getOwnPropertyNames (props obj)) ([], []) acc) as [[H1 H2] H3].
  - split; [intros k [] | constructor].
  - assumption.
  - repeat split; auto.
Qed.

Lemma usp_remove_In_other name l n v :
  n <> name -> In (n, v) l -> In (n, v) (usp_remove name l).
Proof.
  intros Hne. induction l as [|[n' v'] l IH]; simpl; [easy|].
  intros [[= -> ->]|H].
  - rewrite eqb_str_neq by assumption. now left.
  - destruct (eqb_str n' name); [auto | right; auto].
Qed.

Lemma usp_set_usv_In_same name value l : In (name, value) (usp_set_usv name value l).
Proof.
  induction l as [|[n v] l IH]; simpl; [now left|].
  case_key n name; [now left | now right].
Qed.

Lemma usp_set_usv_In_other name value l n v :
  n <> name -> In (n, v) l -> In (n, v) (usp_set_usv name value l).
Proof.
  intros Hne. induction l as [|[n' v'] l IH]; simpl; [easy|].
  intros [[= -> ->]|H].
  - rewrite eqb_str_neq by assumption. now left.
  - case_key n' name; right; [now apply usp_remove_In_other | auto].
Qed.

Lemma usp_append_all_In name vs l p :
  In p l -> In p (fold_left (fun acc v => usp_append name v acc) vs l).
Proof.
  revert l; induction vs as [|v vs IH]; intros l H; simpl; [assumption|].
  apply IH. unfold usp_append. apply in_app_iff. now left.
Qed.

Lemma add_query_keeps urlParams kv n v :
  usv (fst kv) <> n -> In (n, v) urlParams -> In (n, v) (add_query urlParams kv).
Proof.
  intros Hne Hin. unfold add_query. destruct (snd kv).
  - apply usp_set_usv_In_other; auto.
  - now apply usp_append_all_In.
Qed.

Lemma add_query_all_keep l : forall urlParams n v,
  Forall (fun kv => usv (fst kv) <> n) l ->
  In (n, v) urlParams -> In (n, v) (fold_left add_query l urlParams).
Proof.
  induction l as [|kv l IH]; intros urlParams n v Hall Hin; simpl; [assumption|].
  inversion Hall; subst. apply IH; [assumption|]. now apply add_query_keeps.
Qed.

(** A string entry of the query map that no other entry overwrites reaches
    the parameter list. *)
Lemma add_query_all_In l : forall urlParams key v,
  NoDup (map fst l) ->
  (forall k, In k (map fst l) -> k = key \/ usv k <> usv key) ->
  In (key, QString v) l ->
  In (usv key, usv v) (fold_left add_query l urlParams).
Proof.
  induction l as [|[k x] l IH]; intros urlParams key v Hnd Hkeys Hin; [easy|].
  simpl in *. inversion Hnd as [|? ? Hnot Hnd']; subst.
  destruct Hin as [[= -> ->]|Hin].
  - apply add_query_all_keep; [|apply usp_set_usv_In_same].
    apply Forall_forall. intros [k' x'] Hin'. simpl.
    destruct (Hkeys k') as [->|H]; [right; now apply (in_map fst) in Hin' | | assumption].
    exfalso. apply Hnot. now apply (in_map fst) in Hin'.
  - apply IH; auto.
Qed.

Lemma join_nonempty sep s l : s <> [] -> join sep (s :: l) <> [].
Proof.
  intros Hs. destruct s as [|c s]; [easy|]. simpl. now destruct l.
Qed.

Lemma usp_toString_nonempty qs : qs <> [] -> nonempty (usp_toString qs) = true.
Proof.
  destruct qs as [|p qs]; [easy|]. intros _. unfold usp_toString. simpl map.
  assert (H : form_pair p <> []).
  { unfold form_pair. now destruct (form_encode (fst p)). }
  apply (join_nonempty [ch "&"] _ (map form_pair qs)) in H.
  now destruct (join _ _).
Qed.

(** The shape of a URL that [toRelativePath] returns. *)
Lemma toRelativePath_Ok pattern pathParams queryParams url :
  toRelativePath pattern pathParams (Some queryParams) = Ok url ->
  exists path,
    foldM substitute (entries pathParams) pattern = Ok path
    /\ includes [ch "{"] path = false
    /\ url = match fold_left add_query (entries queryParams) [] with
             | [] => path
             | qs => path ++ [ch "?"] ++ usp_toString qs
             end.
Proof.
  unfold toRelativePath.
  destruct (foldM substitute (entries pathParams) pattern) as [path|]; simpl; [|discriminate].
  destruct (includes [ch "{"] path) eqn:Einc; [discriminate|].
  destruct (fold_left add_query (entries queryParams) []) as [|p qs] eqn:E.
  - intros [= <-]. exists path. auto.
  - rewrite usp_toString_nonempty by discriminate.
    intros [= <-]. exists path. auto.
Qed.

Lemma toRelativeUrl_Ok obj route url :
  toRelativeUrl obj route = Ok url ->
  exists acc pattern,
    foldM (collect obj) (getOwnPropertyNames (props obj)) ([], []) = Ok acc
    /\ effective_pattern (constructor obj) route = Some pattern
    /\ toRelativePath pattern (fst acc) (Some (snd acc)) = Ok url.
Proof.
  unfold toRelativeUrl, effective_pattern.
  destruct (foldM (collect obj) _ _) as [acc|]; simpl; [|discriminate].
  intros H. exists acc.
  destruct route as [p|]; [eauto|]. destruct (routeKey (constructor obj)); [eauto | discriminate].
Qed.

(** The parameter a plain query field contributes to the URL. *)
Lemma toRelativeUrl_query_pair obj route f propertyKey dataType url :
  get f (metadata (constructor obj)) = Some (Query propertyKey dataType) ->
  In f (map fst (props obj)) ->
  is_nullish (prop obj f) = false ->
  nullish_or propertyKey f <> js "__proto__" ->
  sole_writer obj f (nullish_or propertyKey f) ->
  toRelativeUrl obj route = Ok url ->
  exists path qs,
    url = path ++ [ch "?"] ++ usp_toString qs
    /\ In (usv (nullish_or propertyKey f), usv (query_text dataType (prop obj f))) qs.
Proof.
  intros Hm Hin Hv Hproto Hsole Hurl.
  apply toRelativeUrl_Ok in Hurl. destruct Hurl as (acc & pattern & Hloop & _ & Hpath).
  apply getOwnPropertyNames_In in Hin.
  destruct (collect_loop_query obj f propertyKey dataType acc Hm Hin Hv Hproto Hsole Hloop)
    as (Hkeys & Hget & Hnd).
  apply toRelativePath_Ok in Hpath. destruct Hpath as (path & _ & _ & ->).
  assert (H : In (usv (nullish_or propertyKey f), usv (query_text dataType (prop obj f)))
                 (fold_left add_query (entries (snd acc)) [])).
  { apply add_query_all_In.
    - now apply entries_NoDup.
    - intros k Hk. apply Hkeys. now apply entries_keys_In.
    - apply entries_In. now apply get_In. }
  destruct (fold_left add_query (entries (snd acc)) []) as [|p qs]; [easy|].
  exists path, (p :: qs). auto.
Qed.

(** C9, amended. For every plain query field of declared kind Boolean whose
    value is exactly false, whose key is not [__proto__] and is written by no
    other property of the instance, [toRelativeUrl] does not omit the field:
    the query string of every URL it returns holds the parameter key=false. *)
Theorem toRelativeUrl_false_flag :
  forall (obj : Instance) (route : option jsstring) (f : jsstring)
         (propertyKey : option jsstring) (url : jsstring),
    get f (metadata (constructor obj)) = Some (Query propertyKey (Some Boolean)) ->
    get f (props obj) = Some (VBool false) ->
    nullish_or propertyKey f <> js "__proto__" ->
    sole_writer obj f (nullish_or propertyKey f) ->
    toRelativeUrl obj route = Ok url ->
    exists path qs,
      url = path ++ [ch "?"] ++ usp_toString qs
      /\ In (usv (nullish_or propertyKey f), js "false") qs.
Proof.
  intros obj route f propertyKey url Hm Hf Hproto Hsole Hurl.
  assert (Hv : prop obj f = VBool false) by (unfold prop; now rewrite Hf).
  destruct (toRelativeUrl_query_pair obj route f propertyKey (Some Boolean) url)
    as (path & qs & -> & Hin); auto.
  - eapply get_Some_in; eauto.
  - now rewrite Hv.
  - exists path, qs. split; [reflexivity|]. now rewrite Hv in Hin.
Qed.

(** A class with the single field isHappy, of key happy and kind Boolean:
    the value false is written happy=false. *)
Lemma toRelativeUrl_false_flag_example :
  toRelativeUrl (query_instance (js "/r") (js "isHappy") (Some (js "happy")) (Some Boolean)
                                (VBool false)) None
  = Ok (js "/r?happy=false")
  /\ exists path qs,
       js "/r?happy=false" = path ++ [ch "?"] ++ usp_toString qs
       /\ In (usv (js "happy"), js "false") qs.
Proof.
  split; [vm_compute; reflexivity|].
  apply (toRelativeUrl_false_flag
           (query_instance (js "/r") (js "isHappy") (Some (js "happy")) (Some Boolean)
                           (VBool false))
           None (js "isHappy") (Some (js "happy")) (js "/r?happy=false")).
  - reflexivity.
  - reflexivity.
  - vm_compute; discriminate.
  - intros g m Hne H. unfold query_instance in H. cbn [get metadata constructor] in H.
    destruct (eqb_str (js "isHappy") g) eqn:E; [|discriminate].
    apply eqb_str_spec in E. congruence.
  - vm_compute; reflexivity.
Defined.

(** C9, counterexamples. Two flags share the key happy: the first is false,
    the second true, and the URL holds [happy=], the parameter of the second;
    no [happy=false] is written.  A flag whose key is [__proto__] is false:
    the assignment to the query map stores nothing and the URL has no query
    string at all. *)
Lemma toRelativeUrl_false_flag_overwritten_or_dropped :
  (prop shared_key (js "a") = VBool false
   /\ get (js "a") (metadata (constructor shared_key))
      = Some (Query (Some (js "happy")) (Some Boolean))
   /\ toRelativeUrl shared_key None = Ok (js "/r?happy="))
  /\ (let hidden := query_instance (js "/r") (js "flag") (Some (js "__proto__"))
                                   (Some Boolean) (VBool false) in
      prop hidden (js "flag") = VBool false
      /\ toRelativeUrl hidden None = Ok (js "/r")).
Proof. repeat split; vm_compute; reflexivity. Qed.

(** ** The loops of [fromUrl] *)

Lemma resolve_get meta acc g f :
  get (js "__proto__") (fst acc) = None ->
  get (js "__proto__") (snd acc) = None ->
  get f (fst (resolve meta acc g))
  = (if eqb_str g f
     then match path_field_of meta g with
          | Some x => Some x
          | None => get f (fst acc)
          end
     else get f (fst acc))
  /\ get f (snd (resolve meta acc g))
     = (if eqb_str g f
        then match query_field_of meta g with
             | Some x => Some x
             | None => get f (snd acc)
             end
        else get f (snd acc)).
Proof.
  unfold resolve, path_field_of, query_field_of. destruct acc as [pf qf].
  cbn [fst snd]. intros Hp Hq.
  case_key g (js "__proto__").
  - unfold put. rewrite Hp, Hq, eqb_str_refl.
    destruct (get (js "__proto__") meta) as [[pk|ser de|pk dt|ser de]|]; cbn [fst snd];
      now destruct (eqb_str (js "__proto__") f).
  - assert (Hg : g <> js "__proto__").
    { intros H. apply eqb_str_spec in H. congruence. }
    destruct (get g meta) as [[pk|ser de|pk dt|ser de]|]; simpl;
      rewrite ?(put_set _ _ _ _ Hg);
      case_key g f; try rewrite get_set_same; try rewrite get_set_other by congruence;
      try (rewrite get_set_other by (intros H; apply eqb_str_spec in H; congruence));
      auto.
Qed.

Lemma resolve_proto meta acc g :
  get (js "__proto__") (fst acc) = None /\ get (js "__proto__") (snd acc) = None ->
  get (js "__proto__") (fst (resolve meta acc g)) = None
  /\ get (js "__proto__") (snd (resolve meta acc g)) = None.
Proof.
  intros [Hp Hq]. destruct (resolve_get meta acc g (js "__proto__") Hp Hq) as [G1 G2].
  rewrite G1, G2. case_key g (js "__proto__"); auto.
Qed.

Lemma resolve_NoDup meta acc g :
  NoDup (map fst (fst acc)) /\ NoDup (map fst (snd acc)) ->
  NoDup (map fst (fst (resolve meta acc g))) /\ NoDup (map fst (snd (resolve meta acc g))).
Proof.
  unfold resolve. destruct acc as [pf qf]. simpl. intros [H1 H2].
  destruct (get g meta) as [[pk|ser de|pk dt|ser de]|]; simpl;
    split; auto; now apply put_NoDup.
Qed.

Lemma resolve_fold meta l : forall acc f,
  get (js "__proto__") (fst acc) = None /\ get (js "__proto__") (snd acc) = None ->
  let acc' := fold_left (resolve meta) l acc in
  get f (fst acc')
  = match (if existsb (eqb_str f) l then path_field_of meta f else None) with
    | Some x => Some x
    | None => get f (fst acc)
    end
  /\ get f (snd acc')
     = match (if existsb (eqb_str f) l then query_field_of meta f else None) with
       | Some x => Some x
       | None => get f (snd acc)
       end.
Proof.
  induction l as [|g l IH]; intros acc f Hacc; simpl; [auto|].
  destruct (IH (resolve meta acc g) f (resolve_proto meta acc g Hacc)) as [H1 H2].
  rewrite H1, H2.
  destruct (resolve_get meta acc g f (proj1 Hacc) (proj2 Hacc)) as [G1 G2]. rewrite G1, G2.
  rewrite (eqb_str_sym f g). destruct (eqb_str g f) eqn:E; simpl; [|auto].
  apply eqb_str_spec in E. subst g.
  destruct (path_field_of meta f), (query_field_of meta f);
    destruct (existsb (eqb_str f) l); auto.
Qed.

Lemma resolve_fold_NoDup meta l : forall acc,
  NoDup (map fst (fst acc)) /\ NoDup (map fst (snd acc)) ->
  NoDup (map fst (fst (fold_left (resolve meta) l acc)))
  /\ NoDup (map fst (snd (fold_left (resolve meta) l acc))).
Proof.
  induction l as [|g l IH]; intros acc H; simpl; [assumption|].
  apply IH. now apply resolve_NoDup.
Qed.

(** The path fields and the query fields of a fresh instance: the own
    properties with metadata of either kind. *)
Lemma resolveFieldsMetadata_spec type f :
  let tmp := construct type in
  get f (fst (resolveFieldsMetadata tmp))
  = (if existsb (eqb_str f) (map fst (fields type))
     then path_field_of (metadata type) f else None)
  /\ get f (snd (resolveFieldsMetadata tmp))
     = (if existsb (eqb_str f) (map fst (fields type))
        then query_field_of (metadata type) f else None)
  /\ NoDup (map fst (fst (resolveFieldsMetadata tmp)))
  /\ NoDup (map fst (snd (resolveFieldsMetadata tmp))).
Proof.
  simpl. unfold resolveFieldsMetadata. simpl.
  destruct (resolve_fold (metadata type) (getOwnPropertyNames (fields type)) ([], []) f
              (conj eq_refl eq_refl))
    as [H1 H2].
  assert (Hmem : existsb (eqb_str f) (getOwnPropertyNames (fields type))
                 = existsb (eqb_str f) (map fst (fields type))).
  { apply eq_true_iff_eq. rewrite !existsb_eqb_str_In. apply getOwnPropertyNames_In. }
  rewrite Hmem in H1, H2. rewrite H1, H2. repeat split.
  - destruct (existsb _ _); [destruct (path_field_of _ _)|]; reflexivity.
  - destruct (existsb _ _); [destruct (query_field_of _ _)|]; reflexivity.
  - apply resolve_fold_NoDup. simpl. split; constructor.
  - apply resolve_fold_NoDup. simpl. split; constructor.
Qed.

Lemma prop_set_same tmp k v : prop (set_prop tmp k v) k = v.
Proof. unfold prop, set_prop. simpl. now rewrite get_set_same. Qed.

Lemma prop_set_other tmp k k' v : k <> k' -> prop (set_prop tmp k v) k' = prop tmp k'.
Proof. intros H. unfold prop, set_prop. simpl. now rewrite get_set_other. Qed.

Section OwnKey.
Variable X : Type.
Variable step : Instance -> jsstring * X -> result Instance.
Hypothesis step_frame :
  forall tmp k x tmp', step tmp (k, x) = Ok tmp' ->
                       forall k', k <> k' -> prop tmp' k' = prop tmp k'.

(** A loop in which every step writes its own property only. *)
Lemma foldM_frame l : forall tmp tmp' k,
  foldM step l tmp = Ok tmp' -> ~ In k (map fst l) -> prop tmp' k = prop tmp k.
Proof.
  induction l as [|[k0 x0] l IH]; intros tmp tmp' k; simpl.
  - now intros [= <-].
  - destruct (step tmp (k0, x0)) as [t1|] eqn:E; simpl; [|discriminate].
    intros H Hk. rewrite (IH _ _ _ H) by tauto.
    apply (step_frame _ _ _ _ E). tauto.
Qed.

Lemma foldM_at l : forall tmp tmp' k x,
  NoDup (map fst l) -> In (k, x) l -> foldM step l tmp = Ok tmp' ->
  exists t0 t1,
    step t0 (k, x) = Ok t1 /\ prop t0 k = prop tmp k /\ prop tmp' k = prop t1 k.
Proof.
  induction l as [|[k0 x0] l IH]; intros tmp tmp' k x Hnd Hin; [easy|]. simpl.
  inversion Hnd as [|? ? Hnot Hnd']; subst.
  destruct (step tmp (k0, x0)) as [t1|] eqn:E; simpl; [|discriminate].
  intros H. destruct Hin as [[= -> ->]|Hin].
  - exists tmp, t1. repeat split; auto. now apply (foldM_frame l t1 tmp').
  - destruct (IH _ _ _ _ Hnd' Hin H) as (t0 & t2 & H0 & H1 & H2).
    exists t0, t2. repeat split; auto. rewrite H1.
    apply (step_frame _ _ _ _ E). intros ->. apply Hnot.
    now apply (in_map fst) in Hin.
Qed.

Lemma foldM_throw_at l : forall tmp e,
  NoDup (map fst l) -> foldM step l tmp = Throw e ->
  exists k x t0, In (k, x) l /\ step t0 (k, x) = Throw e /\ prop t0 k = prop tmp k.
Proof.
  induction l as [|[k0 x0] l IH]; intros tmp e Hnd; simpl; [discriminate|].
  inversion Hnd as [|? ? Hnot Hnd']; subst.
  destruct (step tmp (k0, x0)) as [t1|e1] eqn:E; simpl.
  - intros H. destruct (IH _ _ Hnd' H) as (k & x & t0 & Hin & Hs & Hp).
    exists k, x, t0. repeat split; auto. rewrite Hp.
    apply (step_frame _ _ _ _ E). intros ->. apply Hnot.
    now apply (in_map fst) in Hin.
  - intros [= <-]. exists k0, x0, tmp. auto.
Qed.

End OwnKey.

Lemma read_path_frame groups tmp k x tmp' :
  read_path groups tmp (k, x) = Ok tmp' -> forall k', k <> k' -> prop tmp' k' = prop tmp k'.
Proof.
  cbn [read_path]. destruct x as [name|de].
  - destruct (group_value groups name) as [j|].
    + destruct (decodeURIComponent j); simpl; [|discriminate].
      intros [= <-] k' H. now apply prop_set_other.
    + destruct (negb _); [now intros [= <-] | discriminate].
  - destruct (call (de groups)); simpl; [|discriminate].
    intros [= <-] k' H. now apply prop_set_other.
Qed.

Lemma read_query_frame queryParams tmp k x tmp' :
  read_query queryParams tmp (k, x) = Ok tmp' ->
  forall k', k <> k' -> prop tmp' k' = prop tmp k'.
Proof.
  simpl. destruct x as [name dt|de].
  - destruct (is_Boolean dt); [intros [= <-] k' H; now apply prop_set_other|].
    destruct (usp_get name queryParams); [intros [= <-] k' H; now apply prop_set_other|].
    destruct (negb _); [now intros [= <-] | discriminate].
  - destruct (call (de queryParams)); simpl; [|discriminate].
    intros [= <-] k' H. now apply prop_set_other.
Qed.

Lemma path_field_not_query type f x :
  get f (fst (resolveFieldsMetadata (construct type))) = Some x ->
  ~ In f (map fst (entries (snd (resolveFieldsMetadata (construct type))))).
Proof.
  destruct (resolveFieldsMetadata_spec type f) as (H1 & H2 & _). simpl in H1, H2.
  rewrite H1. intros H. rewrite entries_keys_In. apply get_None_notin. rewrite H2.
  destruct (existsb _ _); [|discriminate].
  unfold path_field_of in H. unfold query_field_of.
  destruct (eqb_str f (js "__proto__")); [discriminate|].
  now destruct (get f (metadata type)) as [[| | |]|].
Qed.

Lemma query_field_not_path type f x :
  get f (snd (resolveFieldsMetadata (construct type))) = Some x ->
  ~ In f (map fst (entries (fst (resolveFieldsMetadata (construct type))))).
Proof.
  destruct (resolveFieldsMetadata_spec type f) as (H1 & H2 & _). simpl in H1, H2.
  rewrite H2. intros H. rewrite entries_keys_In. apply get_None_notin. rewrite H1.
  destruct (existsb _ _); [|discriminate].
  unfold query_field_of in H. unfold path_field_of.
  destruct (eqb_str f (js "__proto__")); [discriminate|].
  now destruct (get f (metadata type)) as [[| | |]|].
Qed.

Lemma populate_cases type groups q :
  populate type groups q =
  (tmp1 <- foldM (read_path groups) (entries (fst (resolveFieldsMetadata (construct type))))
                 (construct type) ;;
   foldM (read_query (query_params q)) (entries (snd (resolveFieldsMetadata (construct type))))
         tmp1).
Proof. reflexivity. Qed.

(** What a returned instance holds for a plain path field. *)
Lemma populate_path_field type groups q r f name :
  populate type groups q = Ok r ->
  get f (fst (resolveFieldsMetadata (construct type))) = Some (PathKey name) ->
  match group_value groups name with
  | Some raw => exists v, decodeURIComponent raw = Ok v /\ prop r f = VString v
  | None => prop r f = default type f /\ is_nullish (default type f) = false
  end.
Proof.
  rewrite populate_cases. intros Hpop Hf.
  destruct (foldM (read_path groups) _ _) as [tmp1|] eqn:E1; simpl in Hpop; [|discriminate].
  destruct (resolveFieldsMetadata_spec type f) as (_ & _ & Hnd1 & _).
  assert (Hr : prop r f = prop tmp1 f).
  { apply (foldM_frame _ _ (read_query_frame (query_params q)) _ _ _ _ Hpop).
    eapply path_field_not_query; eauto. }
  destruct (foldM_at _ _ (read_path_frame groups) _ _ _ f (PathKey name)
                     (entries_NoDup _ _ Hnd1)
                     (proj2 (entries_In _ _ _) (get_In _ _ _ _ Hf)) E1)
    as (t0 & t1 & Hstep & H0 & H1).
  rewrite Hr, H1. unfold default. rewrite <- H0. cbn [read_path] in Hstep.
  destruct (group_value groups name) as [raw|].
  - destruct (decodeURIComponent raw) as [v|]; simpl in Hstep; [|discriminate].
    injection Hstep as <-. exists v. split; [reflexivity | apply prop_set_same].
  - destruct (is_nullish (prop t0 f)); simpl in Hstep; [discriminate|].
    injection Hstep as <-. auto.
Qed.

(** What a returned instance holds for a plain query field. *)
Lemma populate_query_field type groups q r f name dataType :
  populate type groups q = Ok r ->
  get f (snd (resolveFieldsMetadata (construct type))) = Some (QueryKey name dataType) ->
  if is_Boolean dataType then prop r f = VBool (present name (query_params q))
  else match usp_get name (query_params q) with
       | Some v => prop r f = VString v
       | None => prop r f = default type f /\ is_undefined (default type f) = false
       end.
Proof.
  rewrite populate_cases. intros Hpop Hf.
  destruct (foldM (read_path groups) _ _) as [tmp1|] eqn:E1; simpl in Hpop; [|discriminate].
  destruct (resolveFieldsMetadata_spec type f) as (_ & _ & _ & Hnd2).
  assert (H1 : prop tmp1 f = default type f).
  { apply (foldM_frame _ _ (read_path_frame groups) _ _ _ _ E1).
    eapply query_field_not_path; eauto. }
  destruct (foldM_at _ _ (read_query_frame (query_params q)) _ _ _ f (QueryKey name dataType)
                     (entries_NoDup _ _ Hnd2)
                     (proj2 (entries_In _ _ _) (get_In _ _ _ _ Hf)) Hpop)
    as (t0 & t1 & Hstep & H0 & H2).
  rewrite H2. rewrite <- H1, <- H0. simpl in Hstep. unfold present.
  destruct (is_Boolean dataType).
  - injection Hstep as <-. apply prop_set_same.
  - destruct (usp_get name (query_params q)) as [v|].
    + injection Hstep as <-. apply prop_set_same.
    + destruct (is_undefined (prop t0 f)); simpl in Hstep; [discriminate|].
      injection Hstep as <-. auto.
Qed.



(** The steps of a [fromUrl] that got to the loops. *)
Lemma fromUrl_populate type url route (res : result Instance) :
  fromUrl type url route = res ->
  (forall e, res = Throw e -> field_error e) \/ (exists r, res = Ok r) ->
  exists pattern re groups q,
    effective_pattern type route = Some pattern
    /\ RegExp (pathRegex pattern) = Ok re
    /\ exec re url = Some (groups, q)
    /\ populate type groups q = res.
Proof.
  rewrite fromUrl_eq. intros H Hres.
  assert (Hno : forall e, res = Throw e -> field_error e).
  { destruct Hres as [H0|[r ->]]; [assumption | discriminate]. }
  destruct (effective_pattern type route) as [pattern|];
    [|subst res; destruct (Hno _ eq_refl)].
  destruct (RegExp (pathRegex pattern)) as [re|e] eqn:Ere; simpl in H.
  - destruct (exec re url) as [[groups q]|] eqn:Ex;
      [|subst res; destruct (Hno _ eq_refl)].
    exists pattern, re, groups, q. auto.
  - subst res. apply RegExp_throw in Ere. destruct Ere; subst e; destruct (Hno _ eq_refl).
Qed.

Lemma own_query_field type f propertyKey dataType :
  In f (map fst (fields type)) ->
  f <> js "__proto__" ->
  get f (metadata type) = Some (Query propertyKey dataType) ->
  get f (snd (resolveFieldsMetadata (construct type)))
  = Some (QueryKey (nullish_or propertyKey f) dataType).
Proof.
  intros Hin Hf Hm. destruct (resolveFieldsMetadata_spec type f) as (_ & H2 & _).
  simpl in H2. rewrite H2. apply existsb_eqb_str_In in Hin. rewrite Hin.
  unfold query_field_of. now rewrite (eqb_str_neq _ _ Hf), Hm.
Qed.

Lemma own_path_field type f propertyKey :
  In f (map fst (fields type)) ->
  f <> js "__proto__" ->
  get f (metadata type) = Some (Path propertyKey) ->
  get f (fst (resolveFieldsMetadata (construct type)))
  = Some (PathKey (nullish_or propertyKey f)).
Proof.
  intros Hin Hf Hm. destruct (resolveFieldsMetadata_spec type f) as (H1 & _).
  simpl in H1. rewrite H1. apply existsb_eqb_str_In in Hin. rewrite Hin.
  unfold path_field_of. now rewrite (eqb_str_neq _ _ Hf), Hm.
Qed.


Lemma path_field_own type f name :
  get f (fst (resolveFieldsMetadata (construct type))) = Some (PathKey name) ->
  exists propertyKey,
    In f (map fst (fields type))
    /\ get f (metadata type) = Some (Path propertyKey)
    /\ nullish_or propertyKey f = name.
Proof.
  destruct (resolveFieldsMetadata_spec type f) as (H1 & _). simpl in H1. rewrite H1.
  destruct (existsb _ _) eqn:E; [|discriminate]. apply existsb_eqb_str_In in E.
  unfold path_field_of. destruct (eqb_str f (js "__proto__")); [discriminate|].
  destruct (get f (metadata type)) as [[pk|s d|pk dt|s d]|]; try discriminate.
  intros [= <-]. eauto.
Qed.


(** ** Boolean flags and arrays in the query string *)

Lemma join_cons sep s l : l <> [] -> join sep (s :: l) = s ++ sep ++ join sep l.
Proof. destruct l; [easy | reflexivity]. Qed.









(** ** Substitution of the placeholders *)

Lemma in_range_spec lo hi c : in_range lo hi c = true <-> (lo <= c /\ c <= hi)%N.
Proof. unfold in_range. now rewrite andb_true_iff, !N.leb_le. Qed.

Lemma hex_digit_unreserved n : uri_unreserved (hex_digit n) = true.
Proof.
  unfold hex_digit. pose proof (N.mod_lt n 16 ltac:(discriminate)) as Hlt.
  set (d := (n mod 16)%N) in *. unfold uri_unreserved, is_alnum.
  destruct (N.ltb_spec d 10).
  - assert (H1 : is_digit (48 + d) = true) by (apply in_range_spec; lia).
    now rewrite H1.
  - assert (H1 : is_upper (55 + d) = true) by (apply in_range_spec; lia).
    rewrite H1. now rewrite orb_true_r.
Qed.

Lemma uri_byte_safe b : forallb uri_safe (uri_byte b) = true.
Proof.
  unfold uri_byte. destruct (uri_unreserved b) eqn:E; simpl.
  - unfold uri_safe. now rewrite E.
  - unfold uri_safe. rewrite !hex_digit_unreserved. reflexivity.
Qed.

Lemma forallb_flat_map A B (p : B -> bool) (f : A -> list B) l :
  (forall a, forallb p (f a) = true) -> forallb p (flat_map f l) = true.
Proof.
  intros H. induction l as [|a l IH]; simpl; [reflexivity|].
  now rewrite forallb_app, H, IH.
Qed.

Lemma encodeURIComponent_safe v e :
  encodeURIComponent v = Ok e -> forallb uri_safe e = true.
Proof.
  unfold encodeURIComponent. destruct (existsb is_surrogate (code_points v)); [discriminate|].
  intros [= <-]. apply forallb_flat_map. apply uri_byte_safe.
Qed.

Lemma encoded_safe v : forallb uri_safe (encoded v) = true.
Proof.
  unfold encoded. destruct (encodeURIComponent v) eqn:E; [|reflexivity].
  eapply encodeURIComponent_safe; eauto.
Qed.

Lemma mem_false_of_forallb (p : N -> bool) c s :
  p c = false -> forallb p s = true -> mem c s = false.
Proof.
  intros Hc. unfold mem. induction s as [|d s IH]; simpl; [reflexivity|].
  rewrite andb_true_iff. intros [Hd Hs]. rewrite (IH Hs), orb_false_r.
  destruct (N.eqb_spec c d) as [->|]; [congruence | reflexivity].
Qed.

Lemma mem_app c s t : mem c (s ++ t) = mem c s || mem c t.
Proof. unfold mem. apply existsb_app. Qed.

Lemma includes_char c s : includes [c] s = mem c s.
Proof.
  induction s as [|d s IH]; simpl; [reflexivity|].
  rewrite IH. now destruct (c =? d)%N.
Qed.

(** No occurrence of the needle starts in a text without its first code unit. *)
Lemma replace_first_skip c n v pre rest :
  mem c pre = false ->
  replace_first (c :: n) v (pre ++ rest) = pre ++ replace_first (c :: n) v rest.
Proof.
  induction pre as [|d pre IH]; [reflexivity|].
  unfold mem. simpl existsb. intros H. apply orb_false_iff in H. destruct H as [Hd Hpre].
  cbn [app replace_first strip_prefix]. rewrite Hd. f_equal. now apply IH.
Qed.

Lemma strip_prefix_key k : forall k' rest,
  mem (ch "}") k = false -> mem (ch "}") k' = false ->
  strip_prefix (k ++ [ch "}"]) (k' ++ ch "}" :: rest)
  = if eqb_str k' k then Some rest else None.
Proof.
  induction k as [|c k IH]; intros [|c' k'] rest Hk Hk'.
  - reflexivity.
  - unfold mem in Hk'. cbn [existsb] in Hk'. apply orb_false_iff in Hk'.
    destruct Hk' as [Hc' _]. cbn [app strip_prefix eqb_str]. now rewrite Hc'.
  - unfold mem in Hk. cbn [existsb] in Hk. apply orb_false_iff in Hk.
    destruct Hk as [Hc _]. cbn [app strip_prefix eqb_str].
    rewrite N.eqb_sym in Hc. now rewrite Hc.
  - unfold mem in Hk, Hk'. cbn [existsb] in Hk, Hk'.
    apply orb_false_iff in Hk. apply orb_false_iff in Hk'.
    destruct Hk as [_ Hk]. destruct Hk' as [_ Hk'].
    cbn [app strip_prefix eqb_str]. rewrite (N.eqb_sym c' c).
    destruct (c =? c')%N; [|reflexivity]. now apply IH.
Qed.

Lemma brace_free_spec s :
  brace_free s = true <-> mem (ch "{") s = false /\ mem (ch "}") s = false.
Proof. unfold brace_free. now rewrite andb_true_iff, !negb_true_iff. Qed.

Lemma no_open_brace_spec s : no_open_brace s = true <-> mem (ch "{") s = false.
Proof. unfold no_open_brace. apply negb_true_iff. Qed.

(** [url.replace("{key}", v)] on a pattern is [fill_first] on its parts. *)
Lemma replace_first_render key v parts :
  mem (ch "}") key = false ->
  forallb no_open_brace (texts parts) = true ->
  forallb brace_free (holes parts) = true ->
  replace_first (placeholder key) v (render parts) = render (fill_first key v parts).
Proof.
  intros Hkey. induction parts as [|[s|key'] parts IH]; simpl; intros Ht Hh.
  - reflexivity.
  - apply andb_true_iff in Ht. destruct Ht as [Hs Ht].
    apply no_open_brace_spec in Hs.
    unfold placeholder at 1. cbn [app]. rewrite replace_first_skip by assumption.
    f_equal. now apply IH.
  - apply andb_true_iff in Hh. destruct Hh as [Hk' Hh].
    apply brace_free_spec in Hk'. destruct Hk' as [Hopen Hclose].
    assert (Hmem : mem (ch "{") (key' ++ [ch "}"]) = false).
    { rewrite mem_app, Hopen. reflexivity. }
    assert (Hs : strip_prefix (key ++ [ch "}"]) ((key' ++ [ch "}"]) ++ render parts)
                 = if eqb_str key' key then Some (render parts) else None).
    { rewrite <- app_assoc. now apply strip_prefix_key. }
    rewrite Hs. destruct (eqb_str key' key); [reflexivity|].
    cbn [render flat_map render_part]. fold (render (fill_first key v parts)).
    unfold placeholder. cbn [app]. f_equal.
    change (ch "{" :: key ++ [ch "}"]) with (placeholder key).
    unfold placeholder at 1. cbn [app].
    rewrite replace_first_skip by assumption.
    f_equal. now apply IH.
Qed.

Lemma fill_first_texts key v parts :
  no_open_brace v = true ->
  forallb no_open_brace (texts parts) = true ->
  forallb no_open_brace (texts (fill_first key v parts)) = true.
Proof.
  intros Hv. induction parts as [|[s|key'] parts IH]; simpl; auto.
  - rewrite !andb_true_iff. intros [Hs Ht]. auto.
  - intros Ht. destruct (eqb_str key' key); simpl; [now rewrite Hv | auto].
Qed.

Lemma fill_first_holes_In key v parts k :
  In k (holes (fill_first key v parts)) -> In k (holes parts).
Proof.
  induction parts as [|[s|key'] parts IH]; simpl; auto.
  destruct (eqb_str key' key); simpl; [auto | intuition].
Qed.

Lemma fill_first_holes key v parts :
  forallb brace_free (holes parts) = true ->
  forallb brace_free (holes (fill_first key v parts)) = true.
Proof.
  rewrite !forallb_forall. intros H k Hk. apply H. eapply fill_first_holes_In; eauto.
Qed.

Lemma fill_first_NoDup key v parts :
  NoDup (holes parts) -> NoDup (holes (fill_first key v parts)).
Proof.
  induction parts as [|[s|key'] parts IH]; simpl; auto.
  intros H. inversion H; subst. destruct (eqb_str key' key); simpl; [assumption|].
  constructor; auto. intros Hin. apply fill_first_holes_In in Hin. contradiction.
Qed.

Lemma filled_eq l parts : filled l parts = flat_map (fill_part l) parts.
Proof. reflexivity. Qed.

Lemma fill_part_other k0 v0 l parts :
  ~ In k0 (holes parts) ->
  flat_map (fill_part ((k0, v0) :: l)) parts = flat_map (fill_part l) parts.
Proof.
  induction parts as [|[s|key] parts IH]; simpl; intros H; [reflexivity | |].
  - f_equal. auto.
  - rewrite IH by tauto. f_equal.
    rewrite eqb_str_neq; [reflexivity|]. intros ->. tauto.
Qed.

Lemma fill_first_filled k0 v0 l parts :
  NoDup (holes parts) ->
  flat_map (fill_part l) (fill_first k0 (encoded v0) parts)
  = flat_map (fill_part ((k0, v0) :: l)) parts.
Proof.
  induction parts as [|[s|key] parts IH]; simpl; intros Hnd; [reflexivity | |].
  - f_equal. auto.
  - inversion Hnd; subst. rewrite (eqb_str_sym k0 key).
    destruct (eqb_str key k0) eqn:E; simpl.
    + apply eqb_str_spec in E. subst. f_equal. symmetry. now apply fill_part_other.
    + f_equal. auto.
Qed.

(** The loop of [toRelativePath] over the parameters. *)
Lemma substitute_all l : forall parts,
  forallb no_open_brace (texts parts) = true ->
  forallb brace_free (holes parts) = true ->
  NoDup (holes parts) ->
  Forall (fun kv => mem (ch "}") (fst kv) = false /\ encodable (snd kv)) l ->
  foldM substitute l (render parts) = Ok (flat_map (fill_part l) parts).
Proof.
  induction l as [|[k0 v0] l IH]; intros parts Ht Hh Hnd Hl; simpl.
  - reflexivity.
  - inversion Hl as [|? ? [Hk0 [e He]] Hl']; subst. simpl in Hk0, He.
    unfold substitute at 1. cbn [fst snd]. rewrite He. cbn [bind].
    rewrite replace_first_render by assumption.
    assert (Hsafe : no_open_brace e = true).
    { apply no_open_brace_spec. apply (mem_false_of_forallb uri_safe); [reflexivity|].
      eapply encodeURIComponent_safe; eauto. }
    rewrite IH; auto using fill_first_texts, fill_first_holes, fill_first_NoDup.
    f_equal. replace e with (encoded v0) by (unfold encoded; now rewrite He).
    now apply fill_first_filled.
Qed.

Lemma get_entries A (r : record A) k : NoDup (map fst r) -> get k (entries r) = get k r.
Proof.
  intros Hnd. destruct (get k r) as [v|] eqn:E.
  - apply NoDup_get; [now apply entries_NoDup|]. apply entries_In. now apply get_In.
  - apply get_None_notin. rewrite entries_keys_In. now apply get_None_notin.
Qed.

Lemma fill_part_ext l l' parts :
  (forall k, get k l = get k l') -> flat_map (fill_part l) parts = flat_map (fill_part l') parts.
Proof.
  intros H. apply flat_map_ext. intros [s|key]; simpl; [reflexivity|]. now rewrite H.
Qed.

Lemma mem_flat_map A c (f : A -> jsstring) l :
  mem c (flat_map f l) = existsb (fun a => mem c (f a)) l.
Proof.
  induction l as [|a l IH]; simpl; [reflexivity|]. now rewrite mem_app, IH.
Qed.

(** A brace is left exactly when a placeholder has no parameter. *)
Lemma filled_brace l parts :
  forallb no_open_brace (texts parts) = true ->
  mem (ch "{") (filled l parts) = negb (forallb (has_param l) (holes parts)).
Proof.
  rewrite filled_eq, mem_flat_map.
  induction parts as [|[s|key] parts IH]; simpl; intros Ht; [reflexivity | |].
  - apply andb_true_iff in Ht. destruct Ht as [Hs Ht].
    apply no_open_brace_spec in Hs. rewrite Hs. auto.
  - rewrite (IH Ht). unfold has_param. destruct (get key l) as [v|].
    + rewrite (mem_false_of_forallb uri_safe (ch "{") _ eq_refl (encoded_safe v)).
      reflexivity.
    + reflexivity.
Qed.





(** ** Encoding and decoding *)

Ltac nlia := zify; Z.to_euclidean_division_equations; lia.

Lemma in_range_false lo hi c : in_range lo hi c = false <-> (c < lo \/ hi < c)%N.
Proof.
  unfold in_range. rewrite andb_false_iff, !N.leb_gt. tauto.
Qed.

(** Boolean tests on code units, settled by arithmetic. *)
Ltac test_true := first [apply in_range_spec | apply N.ltb_lt | apply N.leb_le]; nlia.
Ltac test_false := first [apply in_range_false | apply N.ltb_ge | apply N.leb_gt]; nlia.

Lemma code_points_ind (P : jsstring -> Prop) :
  P [] ->
  (forall c, P [c]) ->
  (forall c d s, is_high c && is_low d = true -> P s -> P (c :: d :: s)) ->
  (forall c d s, is_high c && is_low d = false -> P (d :: s) -> P (c :: d :: s)) ->
  forall s, P s.
Proof.
  intros Hnil Hone Hpair Hstep s.
  assert (H : P s /\ forall c, P (c :: s)).
  { induction s as [|d s [IH1 IH2]]; [auto|]. split; [apply IH2|].
    intros c. destruct (is_high c && is_low d) eqn:E; auto. }
  apply H.
Qed.

Lemma code_points_pair c d s :
  is_high c && is_low d = true ->
  code_points (c :: d :: s) = (0x10000 + (c - 0xD800) * 0x400 + (d - 0xDC00))%N :: code_points s.
Proof. intros H. cbn [code_points]. now rewrite H. Qed.

Lemma code_points_single c d s :
  is_high c && is_low d = false ->
  code_points (c :: d :: s) = c :: code_points (d :: s).
Proof. intros H. cbn [code_points]. now rewrite H. Qed.

(** A well-formed string is the UTF-16 form of its code points, which are
    scalar values. *)
Lemma well_formed_code_points s :
  well_formed s = true ->
  flat_map utf16 (code_points s) = s
  /\ forallb scalar_value (code_points s) = true.
Proof.
  unfold well_formed. induction s as [|c|c d s Hcd IH|c d s Hcd IH] using code_points_ind.
  - auto.
  - cbn [forallb code_points flat_map app]. rewrite !andb_true_r.
    intros H. apply andb_true_iff in H. destruct H as [Hc Hs].
    unfold utf16, scalar_value. rewrite Hc, Hs. apply N.ltb_lt in Hc.
    split; [reflexivity|]. rewrite andb_true_r. test_true.
  - rewrite code_points_pair by assumption. cbn [forallb flat_map].
    intros H. rewrite !andb_true_iff in H. destruct H as [(Hc & Hd & Hs) (Hcp & Hcps)].
    destruct IH as [IH1 IH2]; [now rewrite Hs, Hcps|].
    rewrite IH1, IH2. apply andb_true_iff in Hcd. destruct Hcd as [Hhi Hlo].
    apply in_range_spec in Hhi, Hlo.
    set (cp := (0x10000 + (c - 0xD800) * 0x400 + (d - 0xDC00))%N) in *.
    assert (Hrange : (0x10000 <= cp /\ cp < 0x110000)%N) by (unfold cp; nlia).
    split.
    + unfold utf16. replace (cp <? 0x10000)%N with false by (symmetry; test_false).
      cbn [app]. f_equal; [|f_equal]; unfold cp; nlia.
    + unfold scalar_value. rewrite Hcp, andb_true_r.
      replace (cp <? 0x110000)%N with true by (symmetry; test_true). reflexivity.
  - rewrite code_points_single by assumption. cbn [forallb flat_map].
    intros H. rewrite !andb_true_iff in H. destruct H as [(Hc & Hd & Hs) (Hcp & Hcps)].
    destruct IH as [IH1 IH2].
    { cbn [forallb]. now rewrite Hd, Hs, Hcps. }
    rewrite IH1, IH2. unfold utf16, scalar_value. rewrite Hc, Hcp.
    apply N.ltb_lt in Hc. split; [reflexivity|]. rewrite andb_true_r.
    replace (c <? 0x110000)%N with true by (symmetry; test_true). reflexivity.
Qed.

Lemma scalar_id cps :
  forallb scalar_value cps = true -> map scalar cps = cps.
Proof.
  induction cps as [|cp cps IH]; simpl; [reflexivity|].
  rewrite andb_true_iff. intros [Hcp Hcps]. rewrite IH by assumption.
  unfold scalar_value in Hcp. apply andb_true_iff in Hcp. destruct Hcp as [_ Hs].
  unfold scalar. apply negb_true_iff in Hs. now rewrite Hs.
Qed.

Lemma usv_well_formed s : well_formed s = true -> usv s = s.
Proof.
  intros H. apply well_formed_code_points in H. destruct H as [H1 H2].
  unfold usv. now rewrite scalar_id.
Qed.

Lemma utf8_encode_well_formed s :
  well_formed s = true -> utf8_encode s = flat_map utf8 (code_points s).
Proof.
  intros H. apply well_formed_code_points in H. destruct H as [H1 H2].
  unfold utf8_encode. now rewrite scalar_id.
Qed.

Lemma scalar_value_spec cp :
  scalar_value cp = true <-> (cp < 0x110000 /\ (cp < 0xD800 \/ 0xDFFF < cp))%N.
Proof.
  unfold scalar_value, is_surrogate.
  rewrite andb_true_iff, negb_true_iff, in_range_false, N.ltb_lt. tauto.
Qed.

Lemma hex_val_hex_digit n : hex_val (hex_digit n) = Some (n mod 16)%N.
Proof.
  unfold hex_digit. pose proof (N.mod_lt n 16 ltac:(discriminate)) as Hlt.
  set (d := (n mod 16)%N) in *. unfold hex_val, is_digit.
  destruct (N.ltb_spec d 10).
  - replace (in_range 48 57 (48 + d)) with true by (symmetry; test_true).
    f_equal. lia.
  - replace (in_range 48 57 (55 + d)) with false by (symmetry; test_false).
    replace (in_range 65 70 (55 + d)) with true by (symmetry; test_true).
    f_equal. lia.
Qed.

Lemma uri_unreserved_ascii b : uri_unreserved b = true -> (b < 128)%N.
Proof.
  unfold uri_unreserved, is_alnum, is_digit, is_upper, is_lower, mem.
  rewrite !orb_true_iff, !in_range_spec, existsb_exists.
  intros [[[H|H]|H]|(x & Hx & E)]; try lia.
  apply N.eqb_eq in E. subst x.
  repeat (destruct Hx as [<-|Hx]; [vm_compute; reflexivity|]). destruct Hx.
Qed.

Lemma uri_unreserved_not_percent b : uri_unreserved b = true -> (b =? ch "%")%N = false.
Proof.
  intros H. apply N.eqb_neq. intros ->. vm_compute in H. discriminate.
Qed.

(** What was percent-encoded is read back byte by byte. *)
Lemma pct_tokens_uri_bytes bs :
  Forall (fun b => (b < 256)%N) bs ->
  pct_tokens (flat_map uri_byte bs) = Some (map uri_token bs).
Proof.
  induction 1 as [|b bs Hb Hbs IH]; [reflexivity|].
  cbn [flat_map map]. unfold uri_byte at 1, uri_token at 1.
  destruct (uri_unreserved b) eqn:E.
  - cbn [app pct_tokens]. rewrite (uri_unreserved_not_percent b E), IH. reflexivity.
  - unfold pct. cbn [app pct_tokens]. rewrite N.eqb_refl, !hex_val_hex_digit, IH.
    cbn [option_map]. do 3 f_equal. nlia.
Qed.

Lemma utf8_bytes cp :
  (cp < 0x110000)%N -> Forall (fun b => (b < 256)%N) (utf8 cp).
Proof.
  intros H. unfold utf8.
  destruct (N.ltb_spec cp 0x80); [|destruct (N.ltb_spec cp 0x800);
                                    [|destruct (N.ltb_spec cp 0x10000)]];
    repeat constructor; nlia.
Qed.

Lemma uri_token_high b : (128 <= b)%N -> uri_token b = Oct b.
Proof.
  intros H. unfold uri_token. destruct (uri_unreserved b) eqn:E; [|reflexivity].
  apply uri_unreserved_ascii in E. lia.
Qed.

Lemma option_map_cons_app A (c : A) (o : option (list A)) :
  option_map (cons c) o = option_map (app [c]) o.
Proof. now destruct o. Qed.

(** [decodeURIComponent] reads the UTF-8 form of a scalar value back. *)
Lemma utf8_strict_cp cp ts :
  scalar_value cp = true ->
  utf8_strict (map uri_token (utf8 cp) ++ ts) = option_map (app (utf16 cp)) (utf8_strict ts).
Proof.
  intros Hcp. apply scalar_value_spec in Hcp. destruct Hcp as [Hmax Hsur].
  unfold utf8.
  destruct (N.ltb_spec cp 0x80) as [H1|H1];
    [|destruct (N.ltb_spec cp 0x800) as [H2|H2];
      [|destruct (N.ltb_spec cp 0x10000) as [H3|H3]]].
  - replace (utf16 cp) with [cp]
      by (unfold utf16; replace (cp <? 0x10000)%N with true by (symmetry; test_true);
          reflexivity).
    cbn [map app]. unfold uri_token. destruct (uri_unreserved cp); cbn [utf8_strict].
    + apply option_map_cons_app.
    + replace (cp <? 0x80)%N with true by (symmetry; test_true).
      apply option_map_cons_app.
  - cbn [map app]. rewrite !uri_token_high by nlia. cbn [utf8_strict].
    replace (0xC0 + cp / 64 <? 0x80)%N with false by (symmetry; test_false).
    replace (in_range 0xC2 0xDF (0xC0 + cp / 64)) with true by (symmetry; test_true).
    unfold cont.
    replace (in_range 0x80 0xBF (0x80 + cp mod 64)) with true by (symmetry; test_true).
    do 3 f_equal. nlia.
  - cbn [map app]. rewrite !uri_token_high by nlia. cbn [utf8_strict].
    replace (0xE0 + cp / 4096 <? 0x80)%N with false by (symmetry; test_false).
    replace (in_range 0xC2 0xDF (0xE0 + cp / 4096)) with false by (symmetry; test_false).
    replace (in_range 0xE0 0xEF (0xE0 + cp / 4096)) with true by (symmetry; test_true).
    unfold cont.
    replace (in_range 0x80 0xBF (0x80 + cp mod 64)) with true by (symmetry; test_true).
    replace (in_range (if (0xE0 + cp / 4096 =? 0xE0)%N then 0xA0%N else 0x80%N)
                      (if (0xE0 + cp / 4096 =? 0xED)%N then 0x9F%N else 0xBF%N)
                      (0x80 + (cp / 64) mod 64)) with true.
    + cbn [andb]. do 3 f_equal. nlia.
    + symmetry. apply in_range_spec.
      destruct (N.eqb_spec (0xE0 + cp / 4096) 0xE0), (N.eqb_spec (0xE0 + cp / 4096) 0xED);
        nlia.
  - cbn [map app]. rewrite !uri_token_high by nlia. cbn [utf8_strict].
    replace (0xF0 + cp / 262144 <? 0x80)%N with false by (symmetry; test_false).
    replace (in_range 0xC2 0xDF (0xF0 + cp / 262144)) with false by (symmetry; test_false).
    replace (in_range 0xE0 0xEF (0xF0 + cp / 262144)) with false by (symmetry; test_false).
    replace (in_range 0xF0 0xF4 (0xF0 + cp / 262144)) with true by (symmetry; test_true).
    unfold cont.
    replace (in_range 0x80 0xBF (0x80 + cp mod 64)) with true by (symmetry; test_true).
    replace (in_range 0x80 0xBF (0x80 + (cp / 64) mod 64)) with true
      by (symmetry; test_true).
    replace (in_range (if (0xF0 + cp / 262144 =? 0xF0)%N then 0x90%N else 0x80%N)
                      (if (0xF0 + cp / 262144 =? 0xF4)%N then 0x8F%N else 0xBF%N)
                      (0x80 + (cp / 4096) mod 64)) with true.
    + cbn [andb]. do 3 f_equal. nlia.
    + symmetry. apply in_range_spec.
      destruct (N.eqb_spec (0xF0 + cp / 262144) 0xF0),
               (N.eqb_spec (0xF0 + cp / 262144) 0xF4); nlia.
Qed.

Lemma utf8_strict_cps cps :
  forallb scalar_value cps = true ->
  utf8_strict (map uri_token (flat_map utf8 cps)) = Some (flat_map utf16 cps).
Proof.
  induction cps as [|cp cps IH]; [reflexivity|].
  cbn [forallb flat_map]. rewrite andb_true_iff. intros [Hcp Hcps].
  rewrite map_app, utf8_strict_cp, IH by assumption. reflexivity.
Qed.

Lemma utf8_cps_bytes cps :
  forallb scalar_value cps = true -> Forall (fun b => (b < 256)%N) (flat_map utf8 cps).
Proof.
  induction cps as [|cp cps IH]; [constructor|].
  cbn [forallb flat_map]. rewrite andb_true_iff. intros [Hcp Hcps].
  apply Forall_app. split; [|auto]. apply utf8_bytes.
  now apply scalar_value_spec in Hcp.
Qed.

(** [decodeURIComponent] undoes [encodeURIComponent] on well-formed strings. *)
Lemma decodeURIComponent_encoded s :
  well_formed s = true ->
  encodeURIComponent s = Ok (encoded s) /\ decodeURIComponent (encoded s) = Ok s.
Proof.
  intros Hwf. pose proof (well_formed_code_points s Hwf) as [H16 Hsc].
  assert (Hsur : existsb is_surrogate (code_points s) = false).
  { apply not_true_is_false. rewrite existsb_exists. intros (cp & Hin & Hs).
    rewrite forallb_forall in Hsc. apply Hsc in Hin. unfold scalar_value in Hin.
    rewrite Hs in Hin. now rewrite andb_false_r in Hin. }
  assert (He : encodeURIComponent s = Ok (flat_map uri_byte (flat_map utf8 (code_points s)))).
  { unfold encodeURIComponent. now rewrite Hsur. }
  unfold encoded. rewrite He. split; [reflexivity|].
  unfold decodeURIComponent.
  rewrite pct_tokens_uri_bytes by now apply utf8_cps_bytes.
  rewrite utf8_strict_cps by assumption. now rewrite H16.
Qed.

(** The decoder of [URLSearchParams] reads the UTF-8 form of a scalar value
    back. *)
Lemma utf8_decode_cp cp bs :
  scalar_value cp = true ->
  utf8_decode_from utf8_start (utf8 cp ++ bs) = cp :: utf8_decode_from utf8_start bs.
Proof.
  intros Hcp. apply scalar_value_spec in Hcp. destruct Hcp as [Hmax Hsur].
  unfold utf8.
  destruct (N.ltb_spec cp 0x80) as [H1|H1];
    [|destruct (N.ltb_spec cp 0x800) as [H2|H2];
      [|destruct (N.ltb_spec cp 0x10000) as [H3|H3]]].
  - cbn [app utf8_decode_from utf8_step utf8_start u_need]. unfold utf8_lead.
    replace (cp <? 0x80)%N with true by (symmetry; test_true). reflexivity.
  - cbn [app utf8_decode_from utf8_step utf8_start u_need]. unfold utf8_lead.
    replace (0xC0 + cp / 64 <? 0x80)%N with false by (symmetry; test_false).
    replace (in_range 0xC2 0xDF (0xC0 + cp / 64)) with true by (symmetry; test_true).
    cbn [app utf8_decode_from utf8_step u_need u_lo u_hi u_cp].
    replace (in_range 0x80 0xBF (0x80 + cp mod 64)) with true by (symmetry; test_true).
    cbn [app]. f_equal. nlia.
  - cbn [app utf8_decode_from utf8_step utf8_start u_need]. unfold utf8_lead.
    replace (0xE0 + cp / 4096 <? 0x80)%N with false by (symmetry; test_false).
    replace (in_range 0xC2 0xDF (0xE0 + cp / 4096)) with false by (symmetry; test_false).
    replace (in_range 0xE0 0xEF (0xE0 + cp / 4096)) with true by (symmetry; test_true).
    cbn [app utf8_decode_from utf8_step u_need u_lo u_hi u_cp].
    replace (in_range (if (0xE0 + cp / 4096 =? 0xE0)%N then 0xA0%N else 0x80%N)
                      (if (0xE0 + cp / 4096 =? 0xED)%N then 0x9F%N else 0xBF%N)
                      (0x80 + (cp / 64) mod 64)) with true.
    + cbn [app utf8_decode_from utf8_step u_need u_lo u_hi u_cp].
      replace (in_range 0x80 0xBF (0x80 + cp mod 64)) with true by (symmetry; test_true).
      cbn [app]. f_equal. nlia.
    + symmetry. apply in_range_spec.
      destruct (N.eqb_spec (0xE0 + cp / 4096) 0xE0), (N.eqb_spec (0xE0 + cp / 4096) 0xED);
        nlia.
  - cbn [app utf8_decode_from utf8_step utf8_start u_need]. unfold utf8_lead.
    replace (0xF0 + cp / 262144 <? 0x80)%N with false by (symmetry; test_false).
    replace (in_range 0xC2 0xDF (0xF0 + cp / 262144)) with false by (symmetry; test_false).
    replace (in_range 0xE0 0xEF (0xF0 + cp / 262144)) with false by (symmetry; test_false).
    replace (in_range 0xF0 0xF4 (0xF0 + cp / 262144)) with true by (symmetry; test_true).
    cbn [app utf8_decode_from utf8_step u_need u_lo u_hi u_cp].
    replace (in_range (if (0xF0 + cp / 262144 =? 0xF0)%N then 0x90%N else 0x80%N)
                      (if (0xF0 + cp / 262144 =? 0xF4)%N then 0x8F%N else 0xBF%N)
                      (0x80 + (cp / 4096) mod 64)) with true.
    + cbn [app utf8_decode_from utf8_step u_need u_lo u_hi u_cp].
      replace (in_range 0x80 0xBF (0x80 + (cp / 64) mod 64)) with true
        by (symmetry; test_true).
      cbn [app utf8_decode_from utf8_step u_need u_lo u_hi u_cp].
      replace (in_range 0x80 0xBF (0x80 + cp mod 64)) with true by (symmetry; test_true).
      cbn [app]. f_equal. nlia.
    + symmetry. apply in_range_spec.
      destruct (N.eqb_spec (0xF0 + cp / 262144) 0xF0),
               (N.eqb_spec (0xF0 + cp / 262144) 0xF4); nlia.
Qed.

Lemma utf8_decode_cps cps :
  forallb scalar_value cps = true ->
  utf8_decode_from utf8_start (flat_map utf8 cps) = cps.
Proof.
  induction cps as [|cp cps IH]; [reflexivity|].
  cbn [forallb flat_map]. rewrite andb_true_iff. intros [Hcp Hcps].
  rewrite utf8_decode_cp by assumption. f_equal. auto.
Qed.

Lemma utf8_decode_encode s : well_formed s = true -> utf8_decode (utf8_encode s) = s.
Proof.
  intros Hwf. rewrite utf8_encode_well_formed by assumption.
  pose proof (well_formed_code_points s Hwf) as [H16 Hsc].
  unfold utf8_decode. now rewrite utf8_decode_cps.
Qed.

Lemma test_differs (p : N -> bool) c d : p c = true -> p d = false -> (c =? d)%N = false.
Proof. intros Hc Hd. apply N.eqb_neq. intros ->. congruence. Qed.

Lemma hex_digit_alnum n : is_alnum (hex_digit n) = true.
Proof.
  unfold hex_digit. pose proof (N.mod_lt n 16 ltac:(discriminate)) as Hlt.
  set (d := (n mod 16)%N) in *. unfold is_alnum.
  destruct (N.ltb_spec d 10).
  - assert (H1 : is_digit (48 + d) = true) by (apply in_range_spec; lia).
    now rewrite H1.
  - assert (H1 : is_upper (55 + d) = true) by (apply in_range_spec; lia).
    rewrite H1. now rewrite orb_true_r.
Qed.

Lemma hex_digit_form_safe n : form_safe (hex_digit n) = true.
Proof. unfold form_safe, form_unreserved. now rewrite hex_digit_alnum. Qed.

Lemma form_byte_safe b : forallb form_safe (form_byte b) = true.
Proof.
  unfold form_byte. destruct (b =? ch " ")%N; [reflexivity|].
  destruct (form_unreserved b) eqn:E; cbn [forallb pct].
  - unfold form_safe. now rewrite E.
  - rewrite !hex_digit_form_safe. reflexivity.
Qed.

Lemma form_encode_safe s : forallb form_safe (form_encode s) = true.
Proof. unfold form_encode. apply forallb_flat_map. apply form_byte_safe. Qed.

Lemma percent_decode_plain c r :
  (c =? ch "%")%N = false -> percent_decode (c :: r) = c :: percent_decode r.
Proof.
  intros H. destruct r as [|h1 [|h2 r]]; cbn [percent_decode]; rewrite ?H; reflexivity.
Qed.

Lemma percent_decode_pct b r :
  (b < 256)%N -> percent_decode (pct b ++ r) = b :: percent_decode r.
Proof.
  intros Hb. unfold pct. cbn [app percent_decode].
  rewrite N.eqb_refl, !hex_val_hex_digit. f_equal. nlia.
Qed.

(** The bytes of a name or value are read back from its encoding. *)
Lemma form_decode_bytes bs :
  Forall (fun b => (b < 256)%N) bs ->
  percent_decode (plus_to_space (flat_map form_byte bs)) = bs.
Proof.
  induction 1 as [|b bs Hb Hbs IH]; [reflexivity|].
  cbn [flat_map]. unfold plus_to_space in *. rewrite map_app. unfold form_byte at 1.
  destruct (N.eqb_spec b (ch " ")) as [->|Hsp].
  - cbn [map app]. rewrite percent_decode_plain by reflexivity. now rewrite IH.
  - destruct (form_unreserved b) eqn:E.
    + cbn [map app].
      rewrite (test_differs form_unreserved b (ch "+") E eq_refl).
      rewrite percent_decode_plain by (apply (test_differs form_unreserved); auto).
      now rewrite IH.
    + unfold pct at 1. cbn [map].
      rewrite !(test_differs is_alnum _ (ch "+") (hex_digit_alnum _) eq_refl).
      change (if (ch "%" =? ch "+")%N then ch " " else ch "%") with (ch "%").
      change [ch "%"; hex_digit (b / 16); hex_digit (b mod 16)] with (pct b).
      rewrite percent_decode_pct by assumption. now rewrite IH.
Qed.

Lemma utf8_encode_bytes s :
  well_formed s = true -> Forall (fun b => (b < 256)%N) (utf8_encode s).
Proof.
  intros Hwf. rewrite utf8_encode_well_formed by assumption.
  apply utf8_cps_bytes. now apply well_formed_code_points.
Qed.

Lemma form_decode_encode s : well_formed s = true -> form_decode (form_encode s) = s.
Proof.
  intros Hwf. unfold form_decode, form_encode.
  rewrite form_decode_bytes by now apply utf8_encode_bytes.
  now apply utf8_decode_encode.
Qed.

Lemma split_on_without sep s : mem sep s = false -> split_on sep s = [s].
Proof.
  unfold mem. induction s as [|c s IH]; [reflexivity|]. cbn [existsb split_on].
  intros H. apply orb_false_iff in H. destruct H as [Hc Hs].
  rewrite N.eqb_sym in Hc. rewrite Hc, (IH Hs). reflexivity.
Qed.

Lemma split_on_app sep s rest :
  mem sep s = false -> split_on sep (s ++ sep :: rest) = s :: split_on sep rest.
Proof.
  unfold mem. induction s as [|c s IH]; cbn [existsb split_on app].
  - intros _. now rewrite N.eqb_refl.
  - intros H. apply orb_false_iff in H. destruct H as [Hc Hs].
    rewrite N.eqb_sym in Hc. rewrite Hc, (IH Hs). reflexivity.
Qed.

Lemma split_on_join sep items :
  items <> [] ->
  Forall (fun i => mem sep i = false) items ->
  split_on sep (join [sep] items) = items.
Proof.
  intros Hne Hall. induction Hall as [|i items Hi Hall IH]; [easy|].
  destruct items as [|i2 items].
  - now apply split_on_without.
  - rewrite join_cons by discriminate. cbn [app].
    rewrite split_on_app by assumption. f_equal. now apply IH.
Qed.

Lemma split_first_app sep a b :
  mem sep a = false -> split_first sep (a ++ sep :: b) = (a, b).
Proof.
  unfold mem. induction a as [|c a IH]; cbn [existsb split_first app].
  - intros _. now rewrite N.eqb_refl.
  - intros H. apply orb_false_iff in H. destruct H as [Hc Ha].
    rewrite N.eqb_sym in Hc. rewrite Hc, (IH Ha). reflexivity.
Qed.

Lemma code_points_ascii (s : jsstring) :
  forallb (fun c => (c <? 128)%N) s = true -> code_points s = s.
Proof.
  induction s as [|c|c d s Hcd IH|c d s Hcd IH] using code_points_ind; try reflexivity.
  - cbn [forallb]. rewrite andb_true_iff. intros [Hc _]. apply N.ltb_lt in Hc.
    apply andb_true_iff in Hcd. destruct Hcd as [Hhi _]. apply in_range_spec in Hhi. lia.
  - rewrite code_points_single by assumption. cbn [forallb].
    rewrite andb_true_iff. intros [_ H]. f_equal. now apply IH.
Qed.

Lemma utf8_encode_ascii s :
  forallb (fun c => (c <? 128)%N) s = true -> utf8_encode s = s.
Proof.
  intros H. unfold utf8_encode. rewrite code_points_ascii by assumption.
  induction s as [|c s IH]; [reflexivity|]. cbn [forallb] in H.
  apply andb_true_iff in H. destruct H as [Hc Hs]. cbn [map flat_map].
  rewrite IH by assumption. unfold scalar, is_surrogate, utf8.
  replace (in_range 0xD800 0xDFFF c) with false
    by (symmetry; apply N.ltb_lt in Hc; test_false).
  now rewrite Hc.
Qed.

Lemma form_pair_safe p : forallb query_safe (form_pair p) = true.
Proof.
  assert (H : forall s, forallb form_safe s = true -> forallb query_safe s = true).
  { intros s. rewrite !forallb_forall. intros H c Hc. unfold query_safe.
    now rewrite (H c Hc). }
  unfold form_pair. rewrite !forallb_app. cbn [forallb].
  rewrite !H by apply form_encode_safe. reflexivity.
Qed.

Lemma forallb_join (p : N -> bool) sep l :
  forallb p sep = true -> Forall (fun s => forallb p s = true) l ->
  forallb p (join sep l) = true.
Proof.
  intros Hsep. induction 1 as [|s l Hs Hl IH]; [reflexivity|].
  destruct l as [|s2 l]; [assumption|].
  rewrite join_cons by discriminate. rewrite !forallb_app, Hs, Hsep. exact IH.
Qed.

Lemma usp_toString_safe qs : forallb query_safe (usp_toString qs) = true.
Proof.
  unfold usp_toString. apply forallb_join; [reflexivity|].
  apply Forall_forall. intros s Hs. apply in_map_iff in Hs.
  destruct Hs as (p & <- & _). apply form_pair_safe.
Qed.

Lemma query_safe_ascii c : query_safe c = true -> (c < 128)%N.
Proof.
  unfold query_safe, form_safe, form_unreserved, is_alnum, is_digit, is_upper, is_lower, mem.
  rewrite !orb_true_iff, !in_range_spec, existsb_exists.
  intros [[[[[[[H|H]|H]|(x & Hx & E)]|H]|H]|H]|H]; try lia;
    try (apply N.eqb_eq in H; subst c; vm_compute; reflexivity).
  apply N.eqb_eq in E. subst x.
  repeat (destruct Hx as [<-|Hx]; [vm_compute; reflexivity|]). destruct Hx.
Qed.

Lemma usp_toString_ascii qs :
  forallb (fun c => (c <? 128)%N) (usp_toString qs) = true.
Proof.
  pose proof (usp_toString_safe qs) as H. rewrite forallb_forall in *.
  intros c Hc. apply N.ltb_lt. apply query_safe_ascii. auto.
Qed.

Lemma form_parse_pair n v :
  well_formed n = true -> well_formed v = true ->
  match form_encode n ++ ch "=" :: form_encode v with
  | [] => []
  | _ :: _ =>
      let (a, b) := split_first (ch "=") (form_encode n ++ ch "=" :: form_encode v) in
      [(form_decode a, form_decode b)]
  end = [(n, v)].
Proof.
  intros Hn Hv.
  rewrite split_first_app
    by (apply (mem_false_of_forallb form_safe); [reflexivity | apply form_encode_safe]).
  rewrite !form_decode_encode by assumption.
  now destruct (form_encode n).
Qed.

(** The parser of [URLSearchParams] reads back what its serializer wrote. *)
Lemma usp_new_toString qs :
  qs <> [] ->
  Forall well_formed_pair qs ->
  usp_new (usp_toString qs) = qs.
Proof.
  intros Hne Hwf. unfold usp_new.
  assert (Hq : mem (ch "?") (usp_toString qs) = false).
  { apply (mem_false_of_forallb query_safe); [reflexivity | apply usp_toString_safe]. }
  assert (Hstrip : match usp_toString qs with
                   | c :: r => if (c =? ch "?")%N then r else usp_toString qs
                   | [] => usp_toString qs
                   end = usp_toString qs).
  { destruct (usp_toString qs) as [|c r]; [reflexivity|].
    unfold mem in Hq. cbn [existsb] in Hq. apply orb_false_iff in Hq.
    destruct Hq as [Hc _]. rewrite N.eqb_sym in Hc. now rewrite Hc. }
  rewrite Hstrip, utf8_encode_ascii by apply usp_toString_ascii.
  unfold form_parse, usp_toString. rewrite split_on_join.
  - clear Hne Hq Hstrip. induction Hwf as [|[n v] qs [Hn Hv] Hwf IH]; [reflexivity|].
    cbn [map flat_map]. rewrite IH. simpl in Hn, Hv.
    change (form_pair (n, v)) with (form_encode n ++ ch "=" :: form_encode v).
    rewrite (form_parse_pair n v Hn Hv). reflexivity.
  - now destruct qs.
  - apply Forall_forall. intros s Hs. apply in_map_iff in Hs. destruct Hs as (p & <- & _).
    unfold form_pair. rewrite !mem_app.
    rewrite !(mem_false_of_forallb form_safe (ch "&") _ eq_refl (form_encode_safe _)).
    reflexivity.
Qed.

Lemma usp_get_usv_get name l : usp_get_usv name l = get name l.
Proof. induction l as [|[n v] l IH]; simpl; [reflexivity|]. now rewrite IH. Qed.

Lemma usp_set_usv_fresh name value l :
  ~ In name (map fst l) -> usp_set_usv name value l = l ++ [(name, value)].
Proof.
  induction l as [|[n v] l IH]; simpl; [reflexivity|].
  intros H. rewrite eqb_str_neq by tauto. rewrite IH by tauto. reflexivity.
Qed.

(** The parameter list of a query map of well-formed strings with different
    keys: one pair per entry. *)
Lemma add_query_strings l : forall urlParams,
  Forall (fun kv => exists s, snd kv = QString s
                              /\ well_formed (fst kv) = true /\ well_formed s = true) l ->
  NoDup (map fst l) ->
  (forall k, In k (map fst l) -> ~ In k (map fst urlParams)) ->
  fold_left add_query l urlParams
  = urlParams ++ map (fun kv => (fst kv, text_of (snd kv))) l.
Proof.
  induction l as [|[k q] l IH]; intros urlParams Hall Hnd Hfresh.
  - simpl. now rewrite app_nil_r.
  - inversion Hall as [|? ? (s & Hq & Hk & Hs) Hall']; subst.
    inversion Hnd as [|? ? Hnot Hnd']; subst. simpl in Hq, Hk. subst q.
    cbn [fold_left map fst snd text_of]. unfold add_query at 2. cbn [fst snd].
    unfold usp_set. rewrite !usv_well_formed by assumption.
    rewrite usp_set_usv_fresh by (apply Hfresh; now left).
    rewrite IH; auto.
    + now rewrite <- app_assoc.
    + intros k' Hk' Hin. rewrite map_app, in_app_iff in Hin. simpl in Hin.
      destruct Hin as [Hin|[<-|[]]]; [|contradiction].
      apply (Hfresh k'); [now right | assumption].
Qed.

(** ** The expression of a pattern *)

Lemma lazy_name_cons c d s :
  lazy_name (c :: d :: s)
  = if ((c =? ch "\") && (d =? ch "}"))%N then Some ([], s)
    else if line_terminator c then None
    else match lazy_name (d :: s) with
         | Some (n, r) => Some (c :: n, r)
         | None => None
         end.
Proof. reflexivity. Qed.

Lemma lazy_name_length s : forall n r,
  lazy_name s = Some (n, r) -> (List.length r < List.length s)%nat.
Proof.
  induction s as [|c s IH]; intros n r H; [discriminate|].
  destruct s as [|d s']; [discriminate|]. rewrite lazy_name_cons in H.
  destruct ((c =? ch "\") && (d =? ch "}"))%N.
  - injection H as <- <-. simpl. lia.
  - destruct (line_terminator c); [discriminate|].
    destruct (lazy_name (d :: s')) as [[n' r']|] eqn:E; [|discriminate].
    injection H as <- <-. specialize (IH _ _ eq_refl). simpl in *. lia.
Qed.

Lemma replace_groups_fuel fuel : forall s fuel',
  (List.length s <= fuel)%nat -> (List.length s <= fuel')%nat ->
  replace_groups fuel s = replace_groups fuel' s.
Proof.
  induction fuel as [|fuel IH]; intros s fuel' H H'.
  - destruct s; [|simpl in H; lia]. now destruct fuel'.
  - destruct s as [|c s]; [now destruct fuel'|].
    destruct fuel' as [|fuel']; [simpl in H'; lia|].
    cbn [replace_groups]. simpl in H, H'.
    destruct (strip_prefix [ch "\"; ch "{"] (c :: s)) as [after|] eqn:E.
    + apply strip_prefix_spec in E.
      assert (Hlen : (List.length after < List.length (c :: s))%nat)
        by (rewrite E; simpl; lia).
      simpl in Hlen.
      destruct (lazy_name after) as [[n rest]|] eqn:L.
      * apply lazy_name_length in L. f_equal. apply IH; lia.
      * f_equal. apply IH; lia.
    + f_equal. apply IH; lia.
Qed.

Lemma scan_cons c s :
  scan (c :: s)
  = match strip_prefix [ch "\"; ch "{"] (c :: s) with
    | Some after =>
        match lazy_name after with
        | Some (n, rest) => Inserted n :: scan rest
        | None => Src c :: scan s
        end
    | None => Src c :: scan s
    end.
Proof.
  unfold scan. cbn [List.length replace_groups].
  destruct (strip_prefix [ch "\"; ch "{"] (c :: s)) as [after|] eqn:E; [|reflexivity].
  apply strip_prefix_spec in E.
  assert (Hlen : (List.length after < List.length (c :: s))%nat)
    by (rewrite E; simpl; lia).
  simpl in Hlen.
  destruct (lazy_name after) as [[n rest]|] eqn:L; [|reflexivity].
  apply lazy_name_length in L. f_equal. apply replace_groups_fuel; lia.
Qed.

Lemma no_group_here c s :
  (c =? ch "\")%N = false \/ no_brace_ahead s ->
  strip_prefix [ch "\"; ch "{"] (c :: s) = None.
Proof.
  intros H. cbn [strip_prefix]. rewrite N.eqb_sym.
  destruct (c =? ch "\")%N; [|reflexivity].
  destruct H as [H|H]; [discriminate|].
  destruct s as [|d s]; [reflexivity|]. simpl in H. rewrite N.eqb_sym, H. reflexivity.
Qed.

Lemma plain_not_backslash c : reRegExpChar c = false -> (c =? ch "\")%N = false.
Proof. intros H. apply N.eqb_neq. intros ->. vm_compute in H. discriminate. Qed.

Lemma escaped_text_ahead s t :
  mem (ch "{") s = false -> no_brace_ahead t ->
  no_brace_ahead (flat_map escape_char s ++ t).
Proof.
  destruct s as [|c s]; [trivial|]. intros H _. cbn [flat_map]. unfold escape_char.
  unfold mem in H. cbn [existsb] in H. apply orb_false_iff in H. destruct H as [H _].
  destruct (reRegExpChar c); cbn [app no_brace_ahead]; [reflexivity|].
  now rewrite N.eqb_sym.
Qed.

Lemma scan_text s : forall t,
  mem (ch "{") s = false -> no_brace_ahead t ->
  scan (flat_map escape_char s ++ t) = map Src (flat_map escape_char s) ++ scan t.
Proof.
  induction s as [|c s IH]; intros t Hs Ht; [reflexivity|].
  unfold mem in Hs. cbn [existsb] in Hs. apply orb_false_iff in Hs.
  destruct Hs as [Hc Hs]. fold (mem (ch "{") s) in Hs.
  pose proof (escaped_text_ahead s t Hs Ht) as Hahead.
  cbn [flat_map]. unfold escape_char at 1 3. destruct (reRegExpChar c) eqn:E.
  - cbn [app map].
    rewrite scan_cons, no_group_here by (right; cbn; now rewrite N.eqb_sym).
    rewrite scan_cons, no_group_here by (right; exact Hahead).
    now rewrite IH.
  - cbn [app map].
    rewrite scan_cons, no_group_here by (left; now apply plain_not_backslash).
    now rewrite IH.
Qed.

Lemma ident_char_spec c :
  ident_char c = true ->
  reRegExpChar c = false /\ line_terminator c = false
  /\ (c =? ch ">")%N = false /\ (c =? ch "}")%N = false.
Proof.
  unfold ident_char, is_alnum, is_digit, is_upper, is_lower.
  rewrite !orb_true_iff, !in_range_spec, N.eqb_eq. intros H.
  assert (Hc : (48 <= c <= 57 \/ 65 <= c <= 90 \/ 97 <= c <= 122 \/ c = 95)%N).
  { destruct H as [[[H|H]|H]|H]; [tauto..|]. right. right. right. subst c. reflexivity. }
  clear H. unfold reRegExpChar, line_terminator, mem.
  rewrite <- !not_true_iff_false, !existsb_exists, !N.eqb_eq.
  repeat split.
  - intros (x & Hx & Ex). apply N.eqb_eq in Ex. subst x.
    vm_compute in Hx. intuition lia.
  - intros (x & Hx & Ex). apply N.eqb_eq in Ex. subst x.
    vm_compute in Hx. intuition lia.
  - intros ->. vm_compute in Hc. intuition lia.
  - intros ->. vm_compute in Hc. intuition lia.
Qed.

Lemma identifier_chars k : identifier k = true -> forallb ident_char k = true.
Proof.
  destruct k as [|c k]; [discriminate|]. unfold identifier. cbn [forallb].
  rewrite !andb_true_iff. intros [Hc Hk]. split; [|exact Hk].
  unfold ident_char, is_alnum. rewrite !orb_true_iff in *. tauto.
Qed.

Lemma lazy_name_ident k : forall t,
  forallb ident_char k = true ->
  lazy_name (k ++ ch "\" :: ch "}" :: t) = Some (k, t).
Proof.
  induction k as [|c k IH]; intros t H; [reflexivity|].
  cbn [forallb] in H. apply andb_true_iff in H. destruct H as [Hc Hk].
  apply ident_char_spec in Hc. destruct Hc as (Hre & Hlt & _).
  cbn [app]. destruct (k ++ ch "\" :: ch "}" :: t) as [|d r] eqn:E;
    [destruct k; discriminate|].
  rewrite lazy_name_cons, <- E, (IH t Hk), Hlt, (plain_not_backslash c Hre). reflexivity.
Qed.

Lemma scan_hole k t :
  forallb ident_char k = true ->
  scan ([ch "\"; ch "{"] ++ k ++ [ch "\"; ch "}"] ++ t) = Inserted k :: scan t.
Proof.
  intros H. cbn [app]. rewrite scan_cons. cbn [strip_prefix]. rewrite !N.eqb_refl.
  now rewrite (lazy_name_ident k t H).
Qed.

Lemma escaped_ahead parts :
  forallb no_open_brace (texts parts) = true ->
  no_brace_ahead (flat_map escaped_part parts).
Proof.
  induction parts as [|[s|k] parts IH]; intros H; [exact I| |reflexivity].
  cbn [texts forallb] in H. apply andb_true_iff in H. destruct H as [Hs H].
  cbn [flat_map escaped_part]. apply escaped_text_ahead; [|now apply IH].
  unfold no_open_brace in Hs. now apply negb_true_iff in Hs.
Qed.

Lemma scan_parts parts :
  forallb no_open_brace (texts parts) = true ->
  forallb identifier (holes parts) = true ->
  scan (flat_map escaped_part parts) = flat_map pieces_of parts.
Proof.
  induction parts as [|[s|k] parts IH]; intros Ht Hh; [reflexivity| |].
  - cbn [texts forallb] in Ht. apply andb_true_iff in Ht. destruct Ht as [Hs Ht].
    cbn [flat_map escaped_part pieces_of].
    rewrite scan_text, IH; auto.
    + unfold no_open_brace in Hs. now apply negb_true_iff in Hs.
    + now apply escaped_ahead.
  - cbn [holes forallb] in Hh. apply andb_true_iff in Hh. destruct Hh as [Hk Hh].
    cbn [flat_map escaped_part pieces_of]. rewrite <- !app_assoc.
    rewrite scan_hole by now apply identifier_chars. now rewrite (IH Ht Hh).
Qed.

Lemma escapeRegExp_flat s : escapeRegExp s = flat_map escape_char s.
Proof.
  unfold escapeRegExp. destruct (existsb reRegExpChar s) eqn:E; [reflexivity|].
  induction s as [|c s IH]; [reflexivity|]. cbn [existsb] in E.
  apply orb_false_iff in E. destruct E as [Hc Hs].
  cbn [flat_map]. unfold escape_char at 1. rewrite Hc, <- (IH Hs). reflexivity.
Qed.

Lemma escape_ident k : forallb ident_char k = true -> flat_map escape_char k = k.
Proof.
  induction k as [|c k IH]; [reflexivity|]. cbn [forallb]. intros H.
  apply andb_true_iff in H. destruct H as [Hc Hk]. apply ident_char_spec in Hc.
  destruct Hc as (Hre & _). cbn [flat_map]. unfold escape_char at 1.
  now rewrite Hre, (IH Hk).
Qed.

Lemma escape_render parts :
  forallb identifier (holes parts) = true ->
  flat_map escape_char (render parts) = flat_map escaped_part parts.
Proof.
  unfold render. induction parts as [|[s|k] parts IH]; intros H; [reflexivity| |].
  - cbn [flat_map render_part escaped_part]. rewrite flat_map_app. now rewrite (IH H).
  - cbn [holes forallb] in H. apply andb_true_iff in H. destruct H as [Hk H].
    cbn [flat_map render_part escaped_part]. unfold placeholder.
    rewrite !flat_map_app, (IH H), (escape_ident k (identifier_chars k Hk)).
    reflexivity.
Qed.

Lemma items_of_escape d ps :
  items_of (Src (ch "\") :: Src d :: ps) = Lit d :: items_of ps.
Proof. reflexivity. Qed.

Lemma items_of_plain c ps :
  (c =? ch "\")%N = false -> items_of (Src c :: ps) = Lit c :: items_of ps.
Proof. intros H. cbn [items_of]. now rewrite H. Qed.

Lemma items_of_text s : forall ps,
  items_of (map Src (flat_map escape_char s) ++ ps) = map Lit s ++ items_of ps.
Proof.
  induction s as [|c s IH]; intros ps; [reflexivity|].
  cbn [flat_map]. unfold escape_char at 1. destruct (reRegExpChar c) eqn:E.
  - cbn [app map]. now rewrite items_of_escape, IH.
  - cbn [app map]. now rewrite items_of_plain, IH by now apply plain_not_backslash.
Qed.

Lemma split_first_without sep s : mem sep s = false -> split_first sep s = (s, []).
Proof.
  unfold mem. induction s as [|c s IH]; cbn [existsb split_first]; [reflexivity|].
  intros H. apply orb_false_iff in H. destruct H as [Hc Hs].
  rewrite N.eqb_sym, Hc, (IH Hs). reflexivity.
Qed.

Lemma group_of_ident k : forallb ident_char k = true -> group_of k = Group k [].
Proof.
  intros H. unfold group_of.
  assert (Hm : mem (ch ">") k = false).
  { apply (mem_false_of_forallb ident_char); [reflexivity | exact H]. }
  now rewrite (split_first_without _ _ Hm), Hm.
Qed.

Lemma items_of_parts parts :
  forallb identifier (holes parts) = true ->
  items_of (flat_map pieces_of parts) = compiled parts.
Proof.
  unfold compiled. induction parts as [|[s|k] parts IH]; intros H; [reflexivity| |].
  - cbn [flat_map pieces_of items_of_part]. now rewrite items_of_text, (IH H).
  - cbn [holes forallb] in H. apply andb_true_iff in H. destruct H as [Hk H].
    cbn [flat_map pieces_of items_of_part app items_of].
    now rewrite (group_of_ident k (identifier_chars k Hk)), (IH H).
Qed.

Lemma group_names_lits s re : group_names (map Lit s ++ re) = group_names re.
Proof. induction s as [|c s IH]; [reflexivity|]. exact IH. Qed.

Lemma group_names_compiled parts : group_names (compiled parts) = holes parts.
Proof.
  unfold compiled. induction parts as [|[s|k] parts IH]; [reflexivity| |].
  - cbn [flat_map items_of_part holes]. now rewrite group_names_lits.
  - cbn [flat_map items_of_part holes app group_names]. now rewrite IH.
Qed.

Lemma distinct_NoDup l : NoDup l -> distinct l = true.
Proof.
  induction 1 as [|n l Hn Hl IH]; [reflexivity|]. cbn [distinct]. rewrite IH, andb_true_r.
  apply negb_true_iff. apply not_true_iff_false. rewrite existsb_exists.
  intros (x & Hx & E). apply eqb_str_spec in E. now subst x.
Qed.

(** [escapeRegExp] escapes the syntax characters of the grammar, and no
    other character. *)
Lemma reRegExpChar_syntax c : reRegExpChar c = syntax_character c.
Proof.
  apply eq_true_iff_eq. unfold reRegExpChar, syntax_character, mem.
  rewrite !existsb_exists.
  split; intros (x & Hx & E); exists x; (split; [|exact E]);
    vm_compute in Hx; vm_compute; tauto.
Qed.

(** Escaped text is a sequence of pattern characters and identity escapes. *)
Lemma supported_text s : forall ps,
  supported (map Src (flat_map escape_char s) ++ ps) = supported ps.
Proof.
  induction s as [|c s IH]; intros ps; [reflexivity|].
  cbn [flat_map]. unfold escape_char at 1. destruct (reRegExpChar c) eqn:E.
  - cbn [app map supported]. rewrite N.eqb_refl.
    rewrite <- reRegExpChar_syntax, E. cbn [andb]. apply IH.
  - cbn [app map supported]. rewrite (plain_not_backslash c E).
    rewrite <- reRegExpChar_syntax, E. cbn [negb andb]. apply IH.
Qed.

Lemma literal_text_ident k : forallb ident_char k = true -> literal_text k = true.
Proof.
  induction k as [|c k IH]; [reflexivity|]. cbn [forallb literal_text].
  intros H. apply andb_true_iff in H. destruct H as [Hc Hk].
  destruct (ident_char_spec c Hc) as (Hr & _).
  rewrite (plain_not_backslash c Hr), <- reRegExpChar_syntax, Hr. cbn [negb andb]. auto.
Qed.

Lemma ident_char_ascii c : ident_char c = true -> (c <? 128)%N = true.
Proof.
  unfold ident_char, is_alnum, is_digit, is_upper, is_lower.
  rewrite !orb_true_iff, !in_range_spec, N.eqb_eq, N.ltb_lt. intros H.
  destruct H as [[[H|H]|H]|H]; [lia..|]. subst c. reflexivity.
Qed.

(** A placeholder named by an identifier makes a named group. *)
Lemma named_group_ident k : identifier k = true -> named_group k = true.
Proof.
  intros Hk. pose proof (identifier_chars k Hk) as Hc. unfold named_group.
  assert (Hm : mem (ch ">") k = false).
  { apply (mem_false_of_forallb ident_char); [reflexivity | exact Hc]. }
  rewrite (split_first_without _ _ Hm), (literal_text_ident k Hc). cbn [fst].
  rewrite andb_true_r. apply andb_true_iff. split.
  - destruct k as [|c k]; [reflexivity|]. cbn [forallb] in Hc.
    apply andb_true_iff in Hc. destruct Hc as [Hc _].
    destruct (ident_char_spec c Hc) as (_ & _ & _ & _).
    apply negb_true_iff. apply orb_false_iff.
    split; apply N.eqb_neq; intros ->; vm_compute in Hc; discriminate.
  - apply forallb_forall. intros c Hin. apply ident_char_ascii.
    rewrite forallb_forall in Hc. auto.
Qed.

Lemma supported_parts parts :
  forallb identifier (holes parts) = true ->
  supported (flat_map pieces_of parts) = true.
Proof.
  induction parts as [|[s|k] parts IH]; intros H; [reflexivity| |].
  - cbn [flat_map pieces_of]. rewrite supported_text. now apply IH.
  - cbn [holes forallb] in H. apply andb_true_iff in H. destruct H as [Hk H].
    cbn [flat_map pieces_of app supported]. now rewrite (named_group_ident k Hk), (IH H).
Qed.

(** The expression compiled for a pattern with brace-free text and
    placeholders named by different identifiers. *)
Lemma RegExp_render parts :
  forallb no_open_brace (texts parts) = true ->
  forallb identifier (holes parts) = true ->
  NoDup (holes parts) ->
  RegExp (pathRegex (render parts)) = Ok (compiled parts).
Proof.
  intros Ht Hh Hnd. unfold RegExp, pathRegex.
  change (replace_groups (List.length (escapeRegExp (render parts)))
                         (escapeRegExp (render parts)))
    with (scan (escapeRegExp (render parts))).
  rewrite escapeRegExp_flat, (escape_render parts Hh), (scan_parts parts Ht Hh).
  rewrite (supported_parts parts Hh).
  rewrite (items_of_parts parts Hh), group_names_compiled, Hh, (distinct_NoDup _ Hnd).
  reflexivity.
Qed.

(** ** Matching a filled pattern *)

Lemma match_here_lits s re x : match_here (map Lit s ++ re) (s ++ x) = match_here re x.
Proof.
  induction s as [|c s IH]; [reflexivity|]. cbn [map app match_here].
  now rewrite N.eqb_refl.
Qed.

Lemma uri_safe_segment c : uri_safe c = true -> segment_char c = true.
Proof.
  intros H. unfold segment_char.
  destruct (c =? ch "/")%N eqn:E1;
    [apply N.eqb_eq in E1; subst c; vm_compute in H; discriminate|].
  destruct (c =? ch "?")%N eqn:E2;
    [apply N.eqb_eq in E2; subst c; vm_compute in H; discriminate|].
  reflexivity.
Qed.

Lemma match_filled pp parts : forall rest,
  delimited parts = true ->
  (forall k, In k (holes parts) ->
             fill_part pp (Hole k) <> []
             /\ forallb segment_char (fill_part pp (Hole k)) = true) ->
  match rest with [] => true | c :: _ => negb (segment_char c) end = true ->
  match_here (compiled parts) (filled pp parts ++ rest) = Some (groups_of pp parts, rest).
Proof.
  induction parts as [|[s|k] parts IH]; intros rest Hd Hv Hr; [reflexivity| |].
  - rewrite filled_eq. unfold compiled. cbn [flat_map items_of_part fill_part].
    rewrite <- app_assoc, match_here_lits. rewrite <- filled_eq. now apply IH.
  - destruct (Hv k (or_introl eq_refl)) as [Hne Hseg].
    assert (Hd' : delimited parts = true).
    { cbn [delimited] in Hd. destruct parts as [|[[|c s]|k'] parts']; try discriminate;
        [reflexivity|]. now apply andb_true_iff in Hd. }
    specialize (IH rest Hd' (fun k' H => Hv k' (or_intror H)) Hr).
    rewrite filled_eq. unfold compiled, groups_of.
    cbn [flat_map items_of_part holes map app match_here strip_prefix].
    rewrite <- app_assoc. apply greedy_longest; [exact Hne | exact Hseg | |].
    + cbn [delimited] in Hd. destruct parts as [|[[|c s]|k'] parts']; try discriminate.
      * exact Hr.
      * cbn [flat_map fill_part app]. now apply andb_true_iff in Hd.
    + rewrite <- filled_eq. fold (compiled parts). rewrite IH. reflexivity.
Qed.

Lemma search_here re s r : match_here re s = Some r -> search re s = Some r.
Proof. intros H. destruct s; simpl; now rewrite H. Qed.

Lemma span_all p s : forallb p s = true -> span p s = (s, []).
Proof.
  induction s as [|c s IH]; [reflexivity|]. cbn [forallb span]. intros H.
  apply andb_true_iff in H. destruct H as [Hc Hs]. now rewrite Hc, (IH Hs).
Qed.

Lemma query_tail_query qs :
  query_tail (ch "?" :: usp_toString qs) = Some (usp_toString qs).
Proof.
  unfold query_tail. rewrite N.eqb_refl, span_all; [reflexivity|].
  pose proof (usp_toString_safe qs) as H. rewrite forallb_forall in *.
  intros c Hc. specialize (H c Hc). apply negb_true_iff. apply N.eqb_neq.
  intros ->. vm_compute in H. discriminate.
Qed.

(** The expression of a pattern reads its filled form, with or without a
    query part. *)
Lemma exec_filled pp parts qs :
  delimited parts = true ->
  (forall k, In k (holes parts) ->
             fill_part pp (Hole k) <> []
             /\ forallb segment_char (fill_part pp (Hole k)) = true) ->
  exec (compiled parts) (filled pp parts ++ query_suffix qs)
  = Some (groups_of pp parts, query_capture qs).
Proof.
  intros Hd Hv. unfold exec.
  rewrite (search_here _ _ (groups_of pp parts, query_suffix qs)).
  - destruct qs as [|p qs]; [reflexivity|]. unfold query_suffix, query_capture.
    now rewrite query_tail_query.
  - apply match_filled; [exact Hd | exact Hv |]. now destruct qs.
Qed.

(** ** The URL of a simple instance *)

Lemma set_fresh A (r : record A) k v : ~ In k (map fst r) -> set k v r = r ++ [(k, v)].
Proof.
  induction r as [|[k' v'] r IH]; simpl; [reflexivity|].
  intros H. rewrite eqb_str_neq by tauto. rewrite IH by tauto. reflexivity.
Qed.

Lemma NoDup_app_disjoint A (l l' : list A) :
  NoDup (l ++ l') -> forall a, In a l' -> ~ In a l.
Proof.
  induction l as [|b l IH]; intros H a Ha; [easy|].
  cbn [app] in H. inversion H as [|? ? Hb Hl]; subst.
  intros [->|Hin].
  - apply Hb. apply in_or_app. now right.
  - now apply (IH Hl a Ha).
Qed.

Lemma put_fresh A (r : record A) k v :
  k <> js "__proto__" -> ~ In k (map fst r) -> put k v r = r ++ [(k, v)].
Proof. intros Hk H. rewrite put_set by assumption. now apply set_fresh. Qed.

Lemma collect_step obj f pp qp :
  simple_field obj f ->
  (forall k, In k (map fst (path_entry obj f)) ->
             k <> js "__proto__" /\ ~ In k (map fst pp)) ->
  (forall k, In k (map fst (query_entry obj f)) ->
             k <> js "__proto__" /\ ~ In k (map fst qp)) ->
  collect obj (pp, qp) f = Ok (pp ++ path_entry obj f, qp ++ query_entry obj f).
Proof.
  unfold simple_field, collect, path_entry, query_entry.
  destruct (get f (metadata (constructor obj))) as [[pk|ser de|pk dt|ser de]|];
    intros Hf Hp Hq; try contradiction.
  - destruct Hf as (s & Hv & _). rewrite Hv. cbn [is_nullish to_js_string].
    rewrite put_fresh by (apply Hp; now left). now rewrite app_nil_r.
  - destruct Hf as [_ Hv]. unfold query_text. destruct (is_Boolean dt).
    + rewrite Hv. cbn [is_nullish negb andb loose_ne_false].
      rewrite put_fresh by (apply Hq; now left). now rewrite app_nil_r.
    + destruct Hv as (s & Hv & _). rewrite Hv. cbn [is_nullish andb to_js_string].
      rewrite put_fresh by (apply Hq; now left). now rewrite app_nil_r.
  - now rewrite !app_nil_r.
Qed.

Lemma collect_simple obj names : forall pp qp,
  (forall f, In f names -> simple_field obj f) ->
  NoDup (map fst (pp ++ flat_map (path_entry obj) names)) ->
  NoDup (map fst (qp ++ flat_map (query_entry obj) names)) ->
  ~ In (js "__proto__") (map fst (flat_map (path_entry obj) names)) ->
  ~ In (js "__proto__") (map fst (flat_map (query_entry obj) names)) ->
  foldM (collect obj) names (pp, qp)
  = Ok (pp ++ flat_map (path_entry obj) names, qp ++ flat_map (query_entry obj) names).
Proof.
  induction names as [|f names IH]; intros pp qp Hs Hp Hq Hpp Hpq.
  - simpl. now rewrite !app_nil_r.
  - cbn [foldM flat_map] in *. rewrite app_assoc in Hp, Hq.
    rewrite map_app, in_app_iff in Hpp, Hpq.
    rewrite collect_step.
    + cbn [bind]. rewrite IH; [now rewrite <- !app_assoc | | assumption | assumption | tauto..].
      intros g Hg. apply Hs. now right.
    + apply Hs. now left.
    + intros k Hk. split; [intros ->; tauto|].
      rewrite map_app in Hp. apply NoDup_app_remove_r in Hp.
      rewrite map_app in Hp. now apply (NoDup_app_disjoint _ _ _ Hp).
    + intros k Hk. split; [intros ->; tauto|].
      rewrite map_app in Hq. apply NoDup_app_remove_r in Hq.
      rewrite map_app in Hq. now apply (NoDup_app_disjoint _ _ _ Hq).
Qed.

Lemma path_pairs_In obj k v :
  (forall f, In f (map fst (props obj)) -> simple_field obj f) ->
  In (k, v) (path_pairs obj) ->
  exists f pk,
    In f (map fst (props obj))
    /\ get f (metadata (constructor obj)) = Some (Path pk)
    /\ k = nullish_or pk f
    /\ prop obj f = VString v /\ v <> [] /\ well_formed v = true.
Proof.
  intros Hs H. unfold path_pairs in H. apply in_flat_map in H.
  destruct H as (f & Hf & H). unfold getOwnPropertyNames in Hf.
  apply (proj1 (entries_keys_In _ _ _)) in Hf. specialize (Hs f Hf).
  unfold path_entry in H. unfold simple_field in Hs.
  destruct (get f (metadata (constructor obj))) as [[pk|ser de|pk dt|ser de]|] eqn:Em;
    try contradiction.
  destruct Hs as (s & Hv & Hne & Hwf). destruct H as [[= <- <-]|[]].
  exists f, pk. rewrite Hv. cbn [to_js_string]. auto 10.
Qed.

Lemma path_pairs_own obj f pk :
  In f (map fst (props obj)) ->
  get f (metadata (constructor obj)) = Some (Path pk) ->
  In (nullish_or pk f, to_js_string (prop obj f)) (path_pairs obj).
Proof.
  intros Hf Hm. unfold path_pairs. apply in_flat_map. exists f. split.
  - unfold getOwnPropertyNames. now apply (proj2 (entries_keys_In _ _ _)).
  - unfold path_entry. rewrite Hm. now left.
Qed.

Lemma query_pairs_In obj k q :
  (forall f, In f (map fst (props obj)) -> simple_field obj f) ->
  In (k, q) (query_pairs obj) ->
  exists s, q = QString s /\ well_formed k = true /\ well_formed s = true.
Proof.
  intros Hs H. unfold query_pairs in H. apply in_flat_map in H.
  destruct H as (f & Hf & H). unfold getOwnPropertyNames in Hf.
  apply (proj1 (entries_keys_In _ _ _)) in Hf. specialize (Hs f Hf).
  unfold query_entry in H. unfold simple_field in Hs.
  destruct (get f (metadata (constructor obj))) as [[pk|ser de|pk dt|ser de]|];
    try contradiction.
  destruct Hs as [Hk Hv]. destruct H as [[= <- <-]|[]].
  unfold query_text. destruct (is_Boolean dt).
  - rewrite Hv. exists []. auto.
  - destruct Hv as (s & Hv & Hwf). rewrite Hv. exists s. auto.
Qed.

Lemma query_pairs_own obj f pk dt :
  In f (map fst (props obj)) ->
  get f (metadata (constructor obj)) = Some (Query pk dt) ->
  In (nullish_or pk f, QString (query_text dt (prop obj f))) (query_pairs obj).
Proof.
  intros Hf Hm. unfold query_pairs. apply in_flat_map. exists f. split.
  - unfold getOwnPropertyNames. now apply (proj2 (entries_keys_In _ _ _)).
  - unfold query_entry. rewrite Hm. now left.
Qed.

(** The two maps [toRelativeUrl] collects from an instance of simple fields
    with different keys. *)
Lemma collect_pairs obj :
  (forall f, In f (map fst (props obj)) -> simple_field obj f) ->
  NoDup (map fst (path_pairs obj)) ->
  NoDup (map fst (query_pairs obj)) ->
  ~ In (js "__proto__") (map fst (path_pairs obj)) ->
  ~ In (js "__proto__") (map fst (query_pairs obj)) ->
  foldM (collect obj) (getOwnPropertyNames (props obj)) ([], [])
  = Ok (path_pairs obj, query_pairs obj).
Proof.
  intros Hs Hp Hq Hpp Hpq. apply (collect_simple obj _ [] []); [|assumption..].
  intros f Hf. apply Hs. unfold getOwnPropertyNames in Hf. now apply (proj1 (entries_keys_In _ _ _)) in Hf.
Qed.

Lemma identifier_brace_free k : identifier k = true -> brace_free k = true.
Proof.
  intros H. apply identifier_chars in H. unfold brace_free.
  rewrite (mem_false_of_forallb ident_char (ch "{") k eq_refl H).
  rewrite (mem_false_of_forallb ident_char (ch "}") k eq_refl H). reflexivity.
Qed.

Lemma forallb_same A (p q : A -> bool) l :
  (forall x, p x = q x) -> forallb p l = forallb q l.
Proof. intros H. induction l as [|x l IH]; [reflexivity|]. simpl. now rewrite H, IH. Qed.

Lemma has_param_entries pp k :
  NoDup (map fst pp) -> has_param (entries pp) k = has_param pp k.
Proof. intros H. unfold has_param. now rewrite get_entries. Qed.

(** The URL of a pattern whose placeholders all have a parameter. *)
Lemma toRelativePath_filled parts pp qp :
  forallb no_open_brace (texts parts) = true ->
  forallb identifier (holes parts) = true ->
  NoDup (holes parts) ->
  NoDup (map fst pp) ->
  Forall (fun kv => mem (ch "}") (fst kv) = false /\ encodable (snd kv)) pp ->
  forallb (has_param pp) (holes parts) = true ->
  toRelativePath (render parts) pp (Some qp)
  = Ok (filled pp parts ++ query_suffix (fold_left add_query (entries qp) [])).
Proof.
  intros Ht Hi Hnd Hpp Hall Hhas. unfold toRelativePath.
  rewrite (substitute_all (entries pp) parts Ht); [|
    | assumption
    | apply Forall_forall; intros kv Hkv; apply (proj1 (entries_In _ _ _)) in Hkv;
      revert kv Hkv; now apply Forall_forall ].
  - cbn [bind]. rewrite <- filled_eq.
    rewrite includes_char, (filled_brace _ _ Ht).
    rewrite (forallb_same _ _ (has_param pp)), Hhas
      by (intros k; now apply has_param_entries).
    cbn [negb]. rewrite (filled_eq (entries pp)), (fill_part_ext (entries pp) pp), <- filled_eq
      by (intros k; now apply get_entries).
    destruct (fold_left add_query (entries qp) []) as [|p qs] eqn:E.
    + cbn [query_suffix]. rewrite (app_nil_r (filled pp parts)). reflexivity.
    + rewrite usp_toString_nonempty by discriminate. reflexivity.
  - rewrite forallb_forall in *. intros k Hk. apply identifier_brace_free. auto.
Qed.

(** ** Reading back the URL of a simple instance *)

Lemma foldM_total A S (step : S -> A -> result S) l :
  (forall a, In a l -> forall s, exists s', step s a = Ok s') ->
  forall s, exists s', foldM step l s = Ok s'.
Proof.
  induction l as [|a l IH]; intros H s; [now exists s|].
  destruct (H a (or_introl eq_refl) s) as [s1 E]. cbn [foldM]. rewrite E. cbn [bind].
  apply IH. intros b Hb. apply H. now right.
Qed.

Lemma get_map_values A B (g : A -> B) (r : record A) k :
  get k (map (fun kv => (fst kv, g (snd kv))) r) = option_map g (get k r).
Proof.
  induction r as [|[k' v] r IH]; [reflexivity|]. simpl.
  destruct (eqb_str k' k); [reflexivity | exact IH].
Qed.

Lemma get_map_keys A (g : jsstring -> A) l k :
  In k l -> get k (map (fun k => (k, g k)) l) = Some (g k).
Proof.
  induction l as [|k' l IH]; [easy|]. simpl. intros H.
  destruct (eqb_str k' k) eqn:E.
  - apply eqb_str_spec in E. now subst.
  - destruct H as [->|H]; [rewrite eqb_str_refl in E; discriminate | auto].
Qed.

Lemma encoded_nonempty v : v <> [] -> well_formed v = true -> encoded v <> [].
Proof.
  intros Hne Hwf E. destruct (decodeURIComponent_encoded v Hwf) as [_ Hd].
  rewrite E in Hd. vm_compute in Hd. injection Hd as <-. now apply Hne.
Qed.

Lemma query_params_capture qs :
  Forall well_formed_pair qs -> query_params (query_capture qs) = qs.
Proof.
  intros H. destruct qs as [|p qs]; [reflexivity|]. unfold query_capture, query_params.
  apply usp_new_toString; [discriminate | assumption].
Qed.

(** The two loops of [fromUrl] return when every path field finds its group
    and every query field that is no flag finds its parameter. *)
Lemma populate_total type groups q :
  (forall f x, get f (fst (resolveFieldsMetadata (construct type))) = Some x ->
     exists name raw v,
       x = PathKey name /\ group_value groups name = Some raw
       /\ decodeURIComponent raw = Ok v) ->
  (forall f x, get f (snd (resolveFieldsMetadata (construct type))) = Some x ->
     exists name dt,
       x = QueryKey name dt
       /\ (is_Boolean dt = true \/ exists v, usp_get name (query_params q) = Some v)) ->
  exists r, populate type groups q = Ok r.
Proof.
  intros Hp Hq. rewrite populate_cases.
  pose proof (resolveFieldsMetadata_spec type []) as Hspec. cbv zeta in Hspec.
  destruct Hspec as (_ & _ & Hnp & Hnq).
  destruct (foldM_total _ _ (read_path groups)
              (entries (fst (resolveFieldsMetadata (construct type))))) with
      (s := construct type) as [tmp1 E1].
  { intros [f x] Hin tmp. apply (proj1 (entries_In _ _ _)) in Hin.
    apply NoDup_get in Hin; [|assumption].
    destruct (Hp f x Hin) as (name & raw & v & -> & Hg & Hd).
    unfold read_path. rewrite Hg, Hd. cbn [bind]. eauto. }
  rewrite E1. cbn [bind]. apply foldM_total.
  intros [f x] Hin tmp. apply (proj1 (entries_In _ _ _)) in Hin.
  apply NoDup_get in Hin; [|assumption].
  destruct (Hq f x Hin) as (name & dt & -> & Hc).
  unfold read_query. destruct (is_Boolean dt); [eauto|].
  destruct Hc as [Hc|[v Hv]]; [discriminate|]. rewrite Hv. eauto.
Qed.

(** C1, amended.  The round trip holds for an instance with the own
    properties of its class whose annotated properties are simple: plain path
    fields that hold non-empty well-formed strings, plain query fields that
    hold well-formed strings, Boolean query fields that hold [true], under
    well-formed query keys that differ from field to field.  The pattern has
    brace-free text, its placeholders are identifiers, each ends the pattern
    or precedes a [/] or a [?], and they are the keys of the path fields,
    each once.  Then [toRelativeUrl] returns a URL, [fromUrl] of the class
    and that URL returns an instance, and the two instances agree on every
    annotated property. *)
Theorem round_trip_of_simple_instance obj parts :
  routeKey (constructor obj) = Some (render parts) ->
  forallb no_open_brace (texts parts) = true ->
  forallb identifier (holes parts) = true ->
  NoDup (holes parts) ->
  delimited parts = true ->
  (forall f, In f (map fst (props obj)) <-> In f (map fst (fields (constructor obj)))) ->
  (forall f, In f (map fst (props obj)) -> simple_field obj f) ->
  Permutation (holes parts) (map fst (path_pairs obj)) ->
  NoDup (map fst (query_pairs obj)) ->
  ~ In (js "__proto__") (map fst (props obj)) ->
  ~ In (js "__proto__") (holes parts) ->
  ~ In (js "__proto__") (map fst (query_pairs obj)) ->
  exists url r,
    toRelativeUrl obj None = Ok url
    /\ fromUrl (constructor obj) url None = Ok r
    /\ forall f, In f (map fst (props obj)) ->
                 get f (metadata (constructor obj)) <> None ->
                 prop r f = prop obj f.
Proof.
  intros Hroute Ht Hi Hnd Hd Hown Hs Hperm Hq Hxf Hxh Hxq.
  set (pp := path_pairs obj) in *. set (qp := query_pairs obj) in *.
  set (qs := map (fun kv => (fst kv, text_of (snd kv))) (entries qp)).
  set (type := constructor obj) in *.
  assert (Hpp : NoDup (map fst pp)) by (eapply Permutation_NoDup; eauto).
  assert (Hhole : forall k, In k (holes parts) ->
                    exists v, get k pp = Some v /\ v <> [] /\ well_formed v = true).
  { intros k Hk. apply (Permutation_in _ Hperm) in Hk. apply in_get in Hk.
    destruct Hk as [v Hv]. exists v. split; [assumption|]. apply get_In in Hv.
    destruct (path_pairs_In obj k v Hs Hv) as (f & pk & _ & _ & _ & _ & Hne & Hwf). auto. }
  assert (Hqs : Forall well_formed_pair qs).
  { apply Forall_forall. intros [k v] Hin. unfold qs in Hin. apply in_map_iff in Hin.
    destruct Hin as ([k' q] & [= <- <-] & Hin). apply (proj1 (entries_In _ _ _)) in Hin.
    destruct (query_pairs_In obj k' q Hs Hin) as (s & -> & Hk & Hv). now split. }
  assert (Hurl : toRelativeUrl obj None = Ok (filled pp parts ++ query_suffix qs)).
  { unfold toRelativeUrl. rewrite (collect_pairs obj Hs Hpp Hq); [
      | intros H; apply Hxh; apply (Permutation_in _ (Permutation_sym Hperm)); exact H
      | exact Hxq ].
    cbn [bind fst snd].
    fold type pp qp. rewrite Hroute.
    rewrite (toRelativePath_filled parts pp qp Ht Hi Hnd Hpp).
    - rewrite add_query_strings; [reflexivity | | now apply entries_NoDup | easy].
      apply Forall_forall. intros [k q] Hin. apply (proj1 (entries_In _ _ _)) in Hin.
      destruct (query_pairs_In obj k q Hs Hin) as (s & -> & Hk & Hv). exists s. auto.
    - apply Forall_forall. intros [k v] Hkv.
      destruct (path_pairs_In obj k v Hs Hkv) as (f & pk & _ & _ & _ & _ & _ & Hwf).
      split; [|exists (encoded v); now apply decodeURIComponent_encoded].
      assert (Hk : In k (holes parts)).
      { apply (Permutation_in _ (Permutation_sym Hperm)).
        now apply (in_map fst) in Hkv. }
      rewrite forallb_forall in Hi. specialize (Hi k Hk).
      apply (mem_false_of_forallb ident_char); [reflexivity | now apply identifier_chars].
    - apply forallb_forall. intros k Hk. destruct (Hhole k Hk) as (v & Hv & _).
      unfold has_param. now rewrite Hv. }
  assert (Hexec : exec (compiled parts) (filled pp parts ++ query_suffix qs)
                  = Some (groups_of pp parts, query_capture qs)).
  { apply exec_filled; [assumption|]. intros k Hk.
    destruct (Hhole k Hk) as (v & Hv & Hne & Hwf). cbn [fill_part]. rewrite Hv.
    split; [now apply encoded_nonempty|].
    pose proof (encoded_safe v) as H. rewrite forallb_forall in *.
    intros c Hc. apply uri_safe_segment. auto. }
  assert (Hgroups : forall f pk,
             In f (map fst (props obj)) -> get f (metadata type) = Some (Path pk) ->
             exists s, prop obj f = VString s /\ well_formed s = true
                       /\ get (nullish_or pk f) (groups_of pp parts) = Some (encoded s)).
  { intros f pk Hf Hm. pose proof (path_pairs_own obj f pk Hf Hm) as Hin.
    pose proof (Hs f Hf) as Hsf. unfold simple_field in Hsf. fold type in Hsf.
    rewrite Hm in Hsf. destruct Hsf as (s & Hv & Hne & Hwf).
    rewrite Hv in Hin. cbn [to_js_string] in Hin. fold pp in Hin.
    exists s. split; [assumption|]. split; [assumption|]. unfold groups_of.
    rewrite (get_map_keys _ (fun k => fill_part pp (Hole k))).
    - cbn [fill_part]. now rewrite (NoDup_get _ _ _ _ Hpp Hin).
    - apply (Permutation_in _ (Permutation_sym Hperm)).
      now apply (in_map fst) in Hin. }
  assert (Hquery : forall f pk dt,
             In f (map fst (props obj)) -> get f (metadata type) = Some (Query pk dt) ->
             usp_get (nullish_or pk f) qs = Some (query_text dt (prop obj f))).
  { intros f pk dt Hf Hm. pose proof (query_pairs_own obj f pk dt Hf Hm) as Hin.
    pose proof (Hs f Hf) as Hsf. unfold simple_field in Hsf. fold type in Hsf.
    rewrite Hm in Hsf. destruct Hsf as [Hk _]. fold qp in Hin.
    unfold usp_get. rewrite (usv_well_formed _ Hk), usp_get_usv_get. unfold qs.
    rewrite get_map_values, get_entries by assumption.
    now rewrite (NoDup_get _ _ _ _ Hq Hin). }
  assert (Hpop : exists r, populate type (groups_of pp parts) (query_capture qs) = Ok r).
  { apply populate_total.
    - intros f x Hx. pose proof (resolveFieldsMetadata_spec type f) as Hspec.
      cbv zeta in Hspec. destruct Hspec as (Hpf & _). rewrite Hx in Hpf.
      destruct (existsb (eqb_str f) (map fst (fields type))) eqn:Eown; [|discriminate].
      apply existsb_eqb_str_In in Eown. apply Hown in Eown.
      pose proof (Hs f Eown) as Hsf. unfold simple_field in Hsf. fold type in Hsf.
      unfold path_field_of in Hpf.
      destruct (eqb_str f (js "__proto__")); [discriminate|].
      destruct (get f (metadata type)) as [[pk|ser de|pk dt|ser de]|] eqn:Em;
        try discriminate; try contradiction.
      injection Hpf as ->. destruct (Hgroups f pk Eown Em) as (s & Hv & Hwf & Hg).
      exists (nullish_or pk f), (encoded s), s. repeat split.
      + now apply group_value_own.
      + now apply decodeURIComponent_encoded.
    - intros f x Hx. pose proof (resolveFieldsMetadata_spec type f) as Hspec.
      cbv zeta in Hspec. destruct Hspec as (_ & Hqf & _). rewrite Hx in Hqf.
      destruct (existsb (eqb_str f) (map fst (fields type))) eqn:Eown; [|discriminate].
      apply existsb_eqb_str_In in Eown. apply Hown in Eown.
      pose proof (Hs f Eown) as Hsf. unfold simple_field in Hsf. fold type in Hsf.
      unfold query_field_of in Hqf.
      destruct (eqb_str f (js "__proto__")); [discriminate|].
      destruct (get f (metadata type)) as [[pk|ser de|pk dt|ser de]|] eqn:Em;
        try discriminate; try contradiction.
      injection Hqf as ->. exists (nullish_or pk f), dt. split; [reflexivity|].
      right. rewrite (query_params_capture qs Hqs), (Hquery f pk dt Eown Em). eauto. }
  destruct Hpop as [r Hr].
  exists (filled pp parts ++ query_suffix qs), r.
  split; [exact Hurl|]. split.
  - rewrite fromUrl_eq. unfold effective_pattern. fold type. rewrite Hroute.
    rewrite (RegExp_render parts Ht Hi Hnd). cbn [bind]. rewrite Hexec. exact Hr.
  - intros f Hf Hm. pose proof (Hs f Hf) as Hsf. unfold simple_field in Hsf.
    fold type in Hsf, Hm.
    assert (Hfield : In f (map fst (fields type))) by now apply Hown.
    assert (Hname : f <> js "__proto__") by (intros ->; contradiction).
    destruct (get f (metadata type)) as [[pk|ser de|pk dt|ser de]|] eqn:Em;
      try contradiction.
    + destruct (Hgroups f pk Hf Em) as (s & Hv & Hwf & Hg).
      pose proof (populate_path_field type _ _ r f _ Hr
                    (own_path_field type f pk Hfield Hname Em))
        as Hread.
      rewrite (group_value_own _ _ _ Hg) in Hread. destruct Hread as (v & Hdv & Hpv).
      destruct (decodeURIComponent_encoded s Hwf) as [_ Hds].
      rewrite Hds in Hdv. injection Hdv as <-. now rewrite Hpv, Hv.
    + pose proof (populate_query_field type _ _ r f _ dt Hr
                    (own_query_field type f pk dt Hfield Hname Em)) as Hread.
      unfold present in Hread.
      rewrite (query_params_capture qs Hqs), (Hquery f pk dt Hf Em) in Hread.
      destruct Hsf as [_ Hv]. unfold query_text in Hread.
      destruct (is_Boolean dt).
      * now rewrite Hread, Hv.
      * destruct Hv as (s & Hv & _). rewrite Hv in Hread. cbn [andb to_js_string] in Hread.
        now rewrite Hread, Hv.
Qed.

(** The round trip of the profile /users/a%20b%2Fc/profile?t=x%26y%3Dz&happy=. *)
Lemma round_trip_of_simple_instance_example :
  exists url r,
    toRelativeUrl Examples.profile None = Ok url
    /\ fromUrl Examples.profile_class url None = Ok r
    /\ forall f, In f (map fst (props Examples.profile)) ->
                 get f (metadata Examples.profile_class) <> None ->
                 prop r f = prop Examples.profile f.
Proof.
  apply (round_trip_of_simple_instance Examples.profile profile_parts).
  - reflexivity.
  - reflexivity.
  - reflexivity.
  - repeat constructor; simpl; tauto.
  - reflexivity.
  - intros f. reflexivity.
  - intros f [<-|[<-|[<-|[]]]].
    + exists (js "a b/c"). repeat split. discriminate.
    + split; [reflexivity|]. exists (js "x&y=z"). split; reflexivity.
    + split; reflexivity.
  - apply Permutation_refl.
  - repeat constructor; simpl; intuition discriminate.
  - vm_compute; intuition discriminate.
  - vm_compute; intuition discriminate.
  - vm_compute; intuition discriminate.
Defined.

(** C1, counterexample.  An instance of the example class whose name is the
    empty string has the URL /example/, which [fromUrl] does not parse; and a
    flag that is [false] is written as happy=false and read back as [true]. *)
Lemma round_trip_loses_empty_string_and_false :
  (prop Examples.unnamed (js "name") = VString []
   /\ toRelativeUrl Examples.unnamed None = Ok (js "/example/")
   /\ fromUrl (constructor Examples.unnamed) (js "/example/") None = Throw ParseError)
  /\ (let flagged := query_instance (js "/example") (js "happy") None (Some Boolean)
                                    (VBool false) in
      prop flagged (js "happy") = VBool false
      /\ toRelativeUrl flagged None = Ok (js "/example?happy=false")
      /\ exists r, fromUrl (constructor flagged) (js "/example?happy=false") None = Ok r
                   /\ prop r (js "happy") = VBool true).
Proof.
  split.
  - repeat split; vm_compute; reflexivity.
  - cbv zeta. split; [reflexivity|]. split; [vm_compute; reflexivity|].
    eexists. split; vm_compute; reflexivity.
Qed.

(** ** The registry: what it holds and what [from] reports *)

(** [fromUrl] reads every URL for a class whose pattern the model reads. *)
Lemma fromUrl_readable candidate url :
  readable candidate = true -> fromUrl candidate url None <> Throw Unsupported.
Proof.
  unfold readable. rewrite fromUrl_eq. cbn [effective_pattern].
  destruct (routeKey candidate) as [p|]; [|discriminate].
  intros Hs. unfold RegExp. rewrite Hs.
  destruct (_ && _); cbn [bind]; [|discriminate].
  destruct (exec _ url) as [[groups q]|]; [|discriminate].
  intros H. apply populate_throw in H. exact H.
Qed.

Lemma first_route_flat url name cs :
  Forall (fun c => readable (snd c) = true) (map (pair name) cs) ->
  first_route url name cs = Ok (first_success url (map (pair name) cs)).
Proof.
  induction cs as [|c cs IH]; simpl; [reflexivity|].
  intros H. inversion H as [|? ? Hc Hcs]; subst. cbn [snd] in Hc.
  pose proof (fromUrl_readable c url Hc) as Hne.
  destruct (fromUrl c url None) as [r|e]; [reflexivity|].
  destruct e; try (exact (IH Hcs)). now elim Hne.
Qed.

Lemma first_named_flat url l :
  Forall (fun c => readable (snd c) = true)
         (flat_map (fun e => map (pair (fst e)) (snd e)) l) ->
  first_named url l = Ok (first_success url (flat_map (fun e => map (pair (fst e)) (snd e)) l)).
Proof.
  induction l as [|[name cs] l IH]; simpl; [reflexivity|].
  intros H. apply Forall_app in H. destruct H as [Hcs Hl].
  rewrite (first_route_flat url name cs Hcs). cbn [bind].
  rewrite first_success_app.
  destruct (first_success url (map (pair name) cs)); [reflexivity|]. now apply IH.
Qed.

Lemma first_route_Some url name cs n inst :
  first_route url name cs = Ok (Some (n, inst)) ->
  n = name /\ exists c, In c cs /\ fromUrl c url None = Ok inst.
Proof.
  induction cs as [|c cs IH]; simpl; [discriminate|].
  destruct (fromUrl c url None) as [r|e] eqn:E.
  - intros [= <- <-]. split; [reflexivity|]. exists c. auto.
  - intros H.
    assert (H' : first_route url name cs = Ok (Some (n, inst))) by (destruct e; easy).
    destruct (IH H') as (Hn & c' & Hc' & Hr). split; [exact Hn|]. exists c'. auto.
Qed.

Lemma first_named_Some url l name inst :
  first_named url l = Ok (Some (name, inst)) ->
  exists cs c, In (name, cs) l /\ In c cs /\ fromUrl c url None = Ok inst.
Proof.
  induction l as [|[n cs] l IH]; simpl; [discriminate|].
  destruct (first_route url n cs) as [[[n' i']|]|e] eqn:E; cbn [bind]; [| |discriminate].
  - intros [= -> ->]. destruct (first_route_Some _ _ _ _ _ E) as (-> & c & Hc & Hr).
    exists cs, c. auto.
  - intros H. destruct (IH H) as (cs' & c & Hin & Hc & Hr). exists cs', c. auto.
Qed.

Lemma register_inherited_group knownRoutes r g :
  inherited g = true -> get g (register knownRoutes r) = get g knownRoutes.
Proof.
  intros Hi. destruct (jsstring_dec (group_or_default (r_group r)) g) as [E|Hne];
    [|now apply register_other_group].
  unfold register, route. rewrite E, Hi. reflexivity.
Qed.

(** The registry has no entry for a group called like a member of
    [Object.prototype]. *)
Lemma registered_inherited_group history g :
  inherited g = true -> get g (registered history) = None.
Proof.
  intros Hi. induction history as [|r history IH] using rev_ind; [reflexivity|].
  now rewrite registered_snoc, register_inherited_group.
Qed.

Lemma plain_groups_in_group history g :
  plain_groups history ->
  (exists r, In r history /\ in_group g r = true) ->
  inherited g = false.
Proof.
  intros Hp (r & Hin & Hg). unfold in_group in Hg. apply eqb_str_spec in Hg. subst g.
  now apply Hp.
Qed.

(** C8, amended. For every URL and every group with a registration (no
    decorator of the history naming a group called like a member of
    [Object.prototype], and the patterns of the classes of the group being
    patterns whose expressions the model reads), [from(url, group)] tries the
    classes of the group in enumeration order: name by name as
    [Object.entries] lists the names (array indices in ascending order
    first, then the names in the order of their first registration), and
    under one name in registration order; a class registered under a name
    called like a member of [Object.prototype] is no candidate.  It returns
    the first class whose parse succeeds, skips every class whose parse
    throws, and returns null exactly when every class of the group throws. *)
Theorem from_first_in_lookup_order :
  forall (history : list registration) (url : jsstring) (group : option jsstring),
    plain_groups history ->
    (exists r, In r history /\ in_group (group_or_default group) r = true) ->
    Forall (fun c => readable (snd c) = true)
           (lookup_order history (group_or_default group)) ->
    let order := lookup_order history (group_or_default group) in
    (exists found, from (registered history) url group = Ok found)
    /\ (forall name inst,
          from (registered history) url group = Ok (Some (name, inst)) <->
          exists pre candidate post,
            order = pre ++ (name, candidate) :: post
            /\ Forall (fun c => throws url (snd c)) pre
            /\ fromUrl candidate url None = Ok inst)
    /\ (from (registered history) url group = Ok None <->
        Forall (fun c => throws url (snd c)) order).
Proof.
  intros history url group Hplain Hreg Hread order.
  pose proof (plain_groups_in_group _ _ Hplain Hreg) as Hg.
  assert (H : from (registered history) url group = Ok (first_success url order)).
  { unfold from, definedRoutes. rewrite (registered_group_defined _ _ Hg Hreg).
    rewrite <- (candidates_in_order_registered _ _ Hg) in Hread.
    rewrite (first_named_flat _ _ Hread).
    fold (candidates_in_order (names_at (registered history) (group_or_default group))).
    now rewrite (candidates_in_order_registered _ _ Hg). }
  rewrite H. split; [eauto | split].
  - intros name inst. rewrite <- first_success_Some. split; congruence.
  - rewrite <- first_success_None. split; congruence.
Qed.

(** The lookup order of a registry with the names user, 10 and 2,
    registered in this order: the classes of the names 2 and 10 come first. *)
Lemma from_first_in_lookup_order_example :
  let url := js "/posts/7" in
  lookup_order Examples.numbered []
  = [(js "2", decorated Examples.twos); (js "10", decorated Examples.tens);
     (js "user", decorated Examples.users)]
  /\ (exists found, from (registered Examples.numbered) url None = Ok found)
  /\ (forall name inst,
        from (registered Examples.numbered) url None = Ok (Some (name, inst)) <->
        exists pre candidate post,
          lookup_order Examples.numbered [] = pre ++ (name, candidate) :: post
          /\ Forall (fun c => throws url (snd c)) pre
          /\ fromUrl candidate url None = Ok inst)
  /\ (from (registered Examples.numbered) url None = Ok None <->
      Forall (fun c => throws url (snd c)) (lookup_order Examples.numbered [])).
Proof.
  split; [vm_compute; reflexivity|].
  apply (from_first_in_lookup_order Examples.numbered (js "/posts/7") None).
  - intros r [<-|[<-|[<-|[]]]]; reflexivity.
  - exists Examples.users. split; [now left | reflexivity].
  - repeat constructor.
Defined.

(** C8, counterexample. Three classes are registered: user at /users/{id},
    page at /{section}/{id}, and a second class of the name user at
    /posts/{id}.  For /posts/7 the first class in registration order whose
    parse succeeds is page; [from] returns the later class of the name user.
    With the names user, 10 and 2, registered in this order, [from] returns
    the class of the name 2, the last one registered, although the class of
    the name 10 parses the URL too. *)
Lemma from_not_in_registration_order :
  fromUrl (decorated Examples.users) (js "/posts/7") None = Throw ParseError
  /\ fromUrl (decorated Examples.pages) (js "/posts/7") None
     = Ok {| constructor := decorated Examples.pages;
             props := [(js "section", VString (js "posts")); (js "id", VString (js "7"))] |}
  /\ from (registered Examples.history) (js "/posts/7") None
     = Ok (Some (js "user",
                 {| constructor := decorated Examples.posts;
                    props := [(js "id", VString (js "7"))] |}))
  /\ fromUrl (decorated Examples.tens) (js "/posts/7") None
     = Ok {| constructor := decorated Examples.tens;
             props := [(js "id", VString (js "7"))] |}
  /\ from (registered Examples.numbered) (js "/posts/7") None
     = Ok (Some (js "2",
                 {| constructor := decorated Examples.twos;
                    props := [(js "section", VString (js "posts"));
                              (js "id", VString (js "7"))] |})).
Proof. repeat split; vm_compute; reflexivity. Qed.

Lemma registered_candidate history g name c :
  inherited g = false ->
  In c (classes_at (registered history) g name) ->
  exists r, In r history /\ c = decorated r /\ r_name r = name
            /\ group_or_default (r_group r) = g /\ routeKey (r_class r) = None.
Proof.
  intros Hi. destruct (registered_shape history g Hi) as (_ & _ & H). rewrite H.
  unfold classes_of.
  intros Hin. apply in_map_iff in Hin. destruct Hin as (r & <- & Hr).
  apply filter_In in Hr. destruct Hr as [Hr Hc]. rewrite !andb_true_iff in Hc.
  destruct Hc as [[Hg Hn] Hu]. exists r. repeat split; auto.
  - now apply eqb_str_spec in Hn.
  - unfold listed, in_group in Hg. apply andb_true_iff in Hg. destruct Hg as [Hg _].
    now apply eqb_str_spec in Hg.
  - unfold undecorated in Hu. now destruct (routeKey (r_class r)).
Qed.

Lemma definedRoutes_classes_at knownRoutes group names name candidates :
  definedRoutes knownRoutes group = Some names ->
  get name names = Some candidates ->
  classes_at knownRoutes (group_or_default group) name = candidates.
Proof.
  unfold definedRoutes, classes_at, names_at.
  destruct (get (group_or_default group) knownRoutes) as [names'|].
  - intros [= ->] Hn. now rewrite Hn.
  - destruct (inherited (group_or_default group)); [|discriminate].
    intros [= <-]. discriminate.
Qed.

(** What [definedRoutes] gives for a registry that the decorators built. *)
Lemma definedRoutes_registered history group names :
  definedRoutes (registered history) group = Some names ->
  names = []
  \/ (inherited (group_or_default group) = false
      /\ names = names_at (registered history) (group_or_default group)).
Proof.
  unfold definedRoutes, names_at.
  destruct (inherited (group_or_default group)) eqn:Hi.
  - rewrite (registered_inherited_group _ _ Hi). intros [= <-]. now left.
  - destruct (get (group_or_default group) (registered history)); [|discriminate].
    intros [= <-]. now right.
Qed.

(** X1. Whatever decorators ran (none of them naming a group called like a
    member of [Object.prototype]), every class that [definedRoutes(group)]
    lists under a name is a class that [route] decorated with that name in
    that group: [routeName] gives the name, [routePath] the path of its
    registration, and the list under the name holds the classes of the name
    in registration order. *)
Theorem definedRoutes_holds_decorated_classes history group names name candidates c :
  plain_groups history ->
  definedRoutes (registered history) group = Some names ->
  get name names = Some candidates ->
  In c candidates ->
  candidates = classes_of history (group_or_default group) name
  /\ routeName c = Ok (Some name)
  /\ exists r, In r history /\ c = decorated r /\ routePath c = Ok (r_path r)
               /\ group_or_default (r_group r) = group_or_default group
               /\ routeKey (r_class r) = None.
Proof.
  intros _ Hd Hn Hc.
  destruct (definedRoutes_registered _ _ _ Hd) as [->|[Hi _]]; [discriminate|].
  pose proof (definedRoutes_classes_at _ _ _ _ _ Hd Hn) as Hat.
  split.
  - rewrite <- Hat. now destruct (registered_shape history (group_or_default group) Hi)
      as (_ & _ & H).
  - rewrite <- Hat in Hc.
    destruct (registered_candidate _ _ _ _ Hi Hc) as (r & Hr & -> & Hname & Hg & Hk).
    split; [now rewrite <- Hname|]. exists r. auto 10.
Qed.

(** The second class of the name user in the example registry. *)
Lemma definedRoutes_holds_decorated_classes_example :
  [decorated Examples.users; decorated Examples.posts]
  = classes_of Examples.history (group_or_default None) (js "user")
  /\ routeName (decorated Examples.posts) = Ok (Some (js "user"))
  /\ exists r, In r Examples.history /\ decorated Examples.posts = decorated r
               /\ routePath (decorated Examples.posts) = Ok (r_path r)
               /\ group_or_default (r_group r) = group_or_default None
               /\ routeKey (r_class r) = None.
Proof.
  apply (definedRoutes_holds_decorated_classes Examples.history None
           [(js "user", [decorated Examples.users; decorated Examples.posts]);
            (js "page", [decorated Examples.pages])]
           (js "user")).
  - intros r [<-|[<-|[<-|[]]]]; reflexivity.
  - reflexivity.
  - reflexivity.
  - right. left. reflexivity.
Defined.

(** ** What [fromUrl] keeps of a fresh instance *)

Lemma foldM_preserves A S (step : S -> A -> result S) (P : S -> Prop) l :
  (forall a s s', In a l -> P s -> step s a = Ok s' -> P s') ->
  forall s s', P s -> foldM step l s = Ok s' -> P s'.
Proof.
  induction l as [|a l IH]; intros Hstep s s' Hs; cbn [foldM].
  - now intros [= <-].
  - destruct (step s a) as [s1|e] eqn:E; cbn [bind]; [|discriminate].
    apply IH.
    + intros b t t' Hb. apply Hstep. now right.
    + apply (Hstep a s s1); auto. now left.
Qed.

Lemma set_prop_shape type tmp key v :
  same_shape type tmp -> In key (map fst (fields type)) ->
  same_shape type (set_prop tmp key v).
Proof.
  intros [Hc Hp] Hk. split; [exact Hc|]. unfold set_prop. cbn [props].
  rewrite set_keys_in; [exact Hp | now rewrite Hp].
Qed.

Lemma read_path_shape type groups tmp key x tmp' :
  same_shape type tmp -> In key (map fst (fields type)) ->
  read_path groups tmp (key, x) = Ok tmp' -> same_shape type tmp'.
Proof.
  intros Hs Hk. unfold read_path. destruct x as [name|deserialize].
  - destruct (group_value groups name) as [raw|].
    + destruct (decodeURIComponent raw); cbn [bind]; [|discriminate].
      intros [= <-]. now apply set_prop_shape.
    + destruct (negb (is_nullish (prop tmp key))); [|discriminate]. now intros [= <-].
  - destruct (call (deserialize groups)); cbn [bind]; [|discriminate].
    intros [= <-]. now apply set_prop_shape.
Qed.

Lemma read_query_shape type queryParams tmp key x tmp' :
  same_shape type tmp -> In key (map fst (fields type)) ->
  read_query queryParams tmp (key, x) = Ok tmp' -> same_shape type tmp'.
Proof.
  intros Hs Hk. unfold read_query. destruct x as [name dataType|deserialize].
  - destruct (is_Boolean dataType).
    + intros [= <-]. now apply set_prop_shape.
    + destruct (usp_get name queryParams).
      * intros [= <-]. now apply set_prop_shape.
      * destruct (negb (is_undefined (prop tmp key))); [|discriminate]. now intros [= <-].
  - destruct (call (deserialize queryParams)); cbn [bind]; [|discriminate].
    intros [= <-]. now apply set_prop_shape.
Qed.

Lemma field_entries_own type f :
  (In f (map fst (entries (fst (resolveFieldsMetadata (construct type)))))
   \/ In f (map fst (entries (snd (resolveFieldsMetadata (construct type)))))) ->
  In f (map fst (fields type)) /\ get f (metadata type) <> None.
Proof.
  pose proof (resolveFieldsMetadata_spec type f) as Hspec. cbv zeta in Hspec.
  destruct Hspec as (Hp & Hq & _). unfold path_field_of, query_field_of in *.
  intros [H|H]; apply (proj1 (entries_keys_In _ _ _)) in H; apply in_get in H;
    destruct H as [x Hx]; [rewrite Hx in Hp | rewrite Hx in Hq];
    destruct (existsb (eqb_str f) (map fst (fields type))) eqn:E; try discriminate;
    apply existsb_eqb_str_In in E; (split; [exact E|]);
    destruct (eqb_str f (js "__proto__")); try discriminate;
    destruct (get f (metadata type)); discriminate.
Qed.

Lemma populate_shape type groups q r :
  populate type groups q = Ok r -> same_shape type r.
Proof.
  rewrite populate_cases.
  destruct (foldM (read_path groups) _ (construct type)) as [tmp1|e] eqn:E1;
    cbn [bind]; [|discriminate].
  intros E2.
  assert (H1 : same_shape type tmp1).
  { revert E1. apply foldM_preserves; [|now split].
    intros [key x] s s' Hin Hs. apply read_path_shape; [exact Hs|].
    apply field_entries_own. left. now apply (in_map fst) in Hin. }
  revert E2. apply foldM_preserves; [|exact H1].
  intros [key x] s s' Hin Hs. apply read_query_shape; [exact Hs|].
  apply field_entries_own. right. now apply (in_map fst) in Hin.
Qed.

Lemma fromUrl_Ok_populate type url route r :
  fromUrl type url route = Ok r -> exists groups q, populate type groups q = Ok r.
Proof.
  rewrite fromUrl_eq. destruct (effective_pattern type route); [|discriminate].
  destruct (RegExp (pathRegex j)); cbn [bind]; [|discriminate].
  destruct (exec a url) as [[groups q]|]; [|discriminate]. eauto.
Qed.

Lemma fromUrl_shape type url route r :
  fromUrl type url route = Ok r -> same_shape type r.
Proof.
  intros H. destruct (fromUrl_Ok_populate _ _ _ _ H) as (groups & q & Hp).
  now apply populate_shape in Hp.
Qed.

Lemma populate_unannotated type groups q r f :
  populate type groups q = Ok r ->
  get f (metadata type) = None ->
  prop r f = default type f.
Proof.
  rewrite populate_cases.
  destruct (foldM (read_path groups) _ (construct type)) as [tmp1|e] eqn:E1;
    cbn [bind]; [|discriminate].
  intros E2 Hm. unfold default.
  rewrite (foldM_frame _ (read_query (query_params q)) (read_query_frame (query_params q))
             _ _ _ f E2).
  - apply (foldM_frame _ (read_path groups) (read_path_frame groups) _ _ _ f E1).
    intros Hin. destruct (field_entries_own type f (or_introl Hin)) as [_ Hne].
    now apply Hne.
  - intros Hin. destruct (field_entries_own type f (or_intror Hin)) as [_ Hne].
    now apply Hne.
Qed.

(** ** Missing path fields *)

(** C4, amended. Deserializing the URL /example/ against the pattern
    /example/{name} throws the ParseError, whatever the fields of the type and
    their defaults: the group of the placeholder needs at least one code unit.
    The example class, whose path field name has no default, gets the
    MissingPathFieldError naming the key whenever the URL matches a pattern
    passed to [fromUrl] that has no placeholder name, as /example/ does for
    the pattern /example/.  Deserializing /example/Basic against
    /example/{name} succeeds and assigns name = Basic. *)
Theorem fromUrl_example_name :
  (forall type : RouteType,
      routeKey type = Some (js "/example/{name}") ->
      fromUrl type (js "/example/") None = Throw ParseError)
  /\ (forall (pattern p : jsstring) (re : list item) (url : jsstring)
             (groups : record jsstring) (q : option jsstring),
         RegExp (pathRegex p) = Ok re ->
         exec re url = Some (groups, q) ->
         get (js "name") groups = None ->
         fromUrl (Examples.Named pattern) url (Some p)
         = Throw (MissingPathFieldError (js "name")))
  /\ fromUrl (Examples.Named (js "/example/{name}")) (js "/example/") (Some (js "/example/"))
     = Throw (MissingPathFieldError (js "name"))
  /\ fromUrl (Examples.Named (js "/example/{name}")) (js "/example/Basic") None
     = Ok {| constructor := Examples.Named (js "/example/{name}");
             props := [(js "name", VString (js "Basic"))] |}.
Proof.
  split; [|split; [|split; vm_compute; reflexivity]].
  - intros type Hroute. rewrite fromUrl_eq. unfold effective_pattern. rewrite Hroute.
    replace (RegExp (pathRegex (js "/example/{name}")))
      with (Ok (map Lit (js "/example/") ++ [Group (js "name") []]))
      by (vm_compute; reflexivity).
    reflexivity.
  - intros pattern p re url groups q Hre Hex Hg.
    rewrite fromUrl_eq. cbn [effective_pattern]. rewrite Hre. cbn [bind].
    rewrite Hex, populate_cases.
    assert (Ht : resolveFieldsMetadata (construct (Examples.Named pattern))
                 = ([(js "name", PathKey (js "name"))], [])) by (vm_compute; reflexivity).
    rewrite Ht. cbn [fst snd]. rewrite entries_single. cbn [foldM read_path].
    assert (Hv : group_value groups (js "name") = None).
    { destruct groups; [reflexivity | exact Hg]. }
    rewrite Hv. reflexivity.
Qed.

(** The pattern of the example class compiles and /example/ holds no
    instance of it. *)
Lemma fromUrl_example_name_applied :
  fromUrl (Examples.Named (js "/example/{name}")) (js "/example/") None = Throw ParseError.
Proof.
  apply (proj1 fromUrl_example_name (Examples.Named (js "/example/{name}"))).
  reflexivity.
Defined.

(** C4, counterexample. /example/ against /example/{name}, the field name
    having no default: the error is the ParseError, not the
    MissingPathFieldError. *)
Lemma fromUrl_empty_segment_is_ParseError :
  fromUrl (Examples.Named (js "/example/{name}")) (js "/example/") None = Throw ParseError
  /\ Throw ParseError <> @Throw Instance (MissingPathFieldError (js "name")).
Proof. split; [vm_compute; reflexivity | discriminate]. Qed.

(** ** Defaults *)











(** X5. The instance [fromUrl] returns is an instance of the class it was
    given, with the own properties of a fresh instance and no others, and
    every property without routing metadata holds the value the constructor
    gave it. *)
Theorem fromUrl_keeps_the_fresh_instance type url route r :
  fromUrl type url route = Ok r ->
  constructor r = type
  /\ map fst (props r) = map fst (fields type)
  /\ forall f, get f (metadata type) = None -> prop r f = default type f.
Proof.
  intros H. destruct (fromUrl_shape _ _ _ _ H) as [Hc Hp].
  split; [exact Hc|]. split; [exact Hp|].
  intros f Hf. destruct (fromUrl_Ok_populate _ _ _ _ H) as (groups & q & Hpop).
  now apply (populate_unannotated _ _ _ _ _ Hpop).
Qed.


(** The class with a note, read from /users/7. *)
Lemma fromUrl_keeps_the_fresh_instance_example :
  let r := {| constructor := noted_class;
              props := [(js "id", VString (js "7")); (js "note", VString (js "draft"))] |} in
  constructor r = noted_class
  /\ map fst (props r) = map fst (fields noted_class)
  /\ forall f, get f (metadata noted_class) = None -> prop r f = default noted_class f.
Proof.
  apply (fromUrl_keeps_the_fresh_instance noted_class (js "/users/7") None).
  vm_compute. reflexivity.
Defined.

(** ** Reverse lookup and the names of the registry *)

(** X2. The name [from] reports is the name of the class of the instance it
    returns (no decorator of the history naming a group called like a member
    of [Object.prototype]): the instance is what [fromUrl] makes of the URL
    for a class that [route] decorated with that name in the group, so
    [routeName] of the instance is the reported name. *)
Theorem from_reports_the_name_of_the_class history url group name inst :
  plain_groups history ->
  from (registered history) url group = Ok (Some (name, inst)) ->
  routeName (constructor inst) = Ok (Some name)
  /\ fromUrl (constructor inst) url None = Ok inst
  /\ exists r, In r history /\ constructor inst = decorated r
               /\ r_name r = name
               /\ group_or_default (r_group r) = group_or_default group.
Proof.
  intros _. unfold from.
  destruct (definedRoutes (registered history) group) as [names|] eqn:Hd;
    [|discriminate].
  intros H. destruct (first_named_Some _ _ _ _ H) as (cs & c & He & Hcs & Hc).
  apply (proj1 (entries_In _ _ _)) in He.
  destruct (definedRoutes_registered _ _ _ Hd) as [->|[Hi Hnames]]; [destruct He|].
  assert (Hnd : NoDup (map fst names)).
  { destruct (registered_shape history (group_or_default group) Hi) as (Hnd & _).
    now rewrite <- Hnames in Hnd. }
  pose proof (NoDup_get _ _ _ _ Hnd He) as Hn.
  pose proof (definedRoutes_classes_at _ _ _ _ _ Hd Hn) as Hat.
  rewrite <- Hat in Hcs.
  destruct (registered_candidate _ _ _ _ Hi Hcs) as (r & Hr & -> & Hname & Hg & Hk).
  destruct (fromUrl_shape _ _ _ _ Hc) as [Hcon _]. rewrite Hcon.
  split; [now rewrite <- Hname|]. split; [exact Hc|]. exists r. auto.
Qed.

(** The example registry and the URL /posts/7. *)
Lemma from_reports_the_name_of_the_class_example :
  let inst := {| constructor := decorated Examples.posts;
                 props := [(js "id", VString (js "7"))] |} in
  routeName (constructor inst) = Ok (Some (js "user"))
  /\ fromUrl (constructor inst) (js "/posts/7") None = Ok inst
  /\ exists r, In r Examples.history /\ constructor inst = decorated r
               /\ r_name r = js "user"
               /\ group_or_default (r_group r) = group_or_default None.
Proof.
  apply (from_reports_the_name_of_the_class Examples.history (js "/posts/7") None).
  - intros r [<-|[<-|[<-|[]]]]; reflexivity.
  - vm_compute. reflexivity.
Defined.

(** X4. Registrations in other groups do not change what [definedRoutes]
    and [from] give for a group (no decorator naming a group called like a
    member of [Object.prototype]). *)
Theorem from_ignores_other_groups history later url group :
  plain_groups (history ++ later) ->
  (forall r, In r later -> group_or_default (r_group r) <> group_or_default group) ->
  definedRoutes (registered (history ++ later)) group
  = definedRoutes (registered history) group
  /\ from (registered (history ++ later)) url group = from (registered history) url group.
Proof.
  intros _ H. unfold from, definedRoutes, registered. rewrite fold_left_app.
  now rewrite (registered_other_group later _ _ H).
Qed.

(** The example registry and a later registration in the group admin. *)
Lemma from_ignores_other_groups_example :
  definedRoutes (registered (Examples.history
                             ++ [{| r_name := js "panel"; r_path := js "/posts/{id}";
                                    r_group := Some (js "admin");
                                    r_class := Examples.id_class |}])) None
  = definedRoutes (registered Examples.history) None
  /\ from (registered (Examples.history
                       ++ [{| r_name := js "panel"; r_path := js "/posts/{id}";
                              r_group := Some (js "admin");
                              r_class := Examples.id_class |}])) (js "/posts/7") None
     = from (registered Examples.history) (js "/posts/7") None.
Proof.
  apply (from_ignores_other_groups Examples.history).
  - intros r [<-|[<-|[<-|[<-|[]]]]]; reflexivity.
  - intros r [<-|[]]. vm_compute. discriminate.
Defined.

(** ** Patterns that do not compile, and patterns without placeholders *)

Lemma items_of_pathRegex parts :
  forallb no_open_brace (texts parts) = true ->
  forallb identifier (holes parts) = true ->
  items_of (pathRegex (render parts)) = compiled parts.
Proof.
  intros Ht Hh. unfold pathRegex.
  change (replace_groups (List.length (escapeRegExp (render parts)))
                         (escapeRegExp (render parts)))
    with (scan (escapeRegExp (render parts))).
  rewrite escapeRegExp_flat, (escape_render parts Hh), (scan_parts parts Ht Hh).
  apply (items_of_parts parts Hh).
Qed.

Lemma supported_pathRegex parts :
  forallb no_open_brace (texts parts) = true ->
  forallb identifier (holes parts) = true ->
  supported (pathRegex (render parts)) = true.
Proof.
  intros Ht Hh. unfold pathRegex.
  change (replace_groups (List.length (escapeRegExp (render parts)))
                         (escapeRegExp (render parts)))
    with (scan (escapeRegExp (render parts))).
  rewrite escapeRegExp_flat, (escape_render parts Hh), (scan_parts parts Ht Hh).
  apply (supported_parts parts Hh).
Qed.

Lemma distinct_true l : distinct l = true -> NoDup l.
Proof.
  induction l as [|n l IH]; [constructor|]. cbn [distinct]. intros H.
  apply andb_true_iff in H. destruct H as [Hn Hl]. constructor; [|now apply IH].
  apply negb_true_iff in Hn. intros Hin. apply existsb_eqb_str_In in Hin. congruence.
Qed.

(** X6. A pattern that names two placeholders alike does not compile: the
    regular expression would hold two groups of one name, [new RegExp] throws
    a SyntaxError, and so does [fromUrl] for every URL. *)
Theorem fromUrl_rejects_a_repeated_placeholder type route parts url :
  effective_pattern type route = Some (render parts) ->
  forallb no_open_brace (texts parts) = true ->
  forallb identifier (holes parts) = true ->
  ~ NoDup (holes parts) ->
  fromUrl type url route = Throw SyntaxError.
Proof.
  intros Hp Ht Hh Hnd. rewrite fromUrl_eq, Hp. unfold RegExp.
  rewrite (supported_pathRegex parts Ht Hh).
  rewrite (items_of_pathRegex parts Ht Hh), group_names_compiled, Hh.
  destruct (distinct (holes parts)) eqn:E; [|reflexivity].
  elim Hnd. now apply distinct_true.
Qed.

(** The pattern /{x}/{x} and the URL /1/1. *)
Lemma fromUrl_rejects_a_repeated_placeholder_example :
  fromUrl Examples.id_class (js "/1/1") (Some (js "/{x}/{x}")) = Throw SyntaxError.
Proof.
  apply (fromUrl_rejects_a_repeated_placeholder Examples.id_class (Some (js "/{x}/{x}"))
           [Text (js "/"); Hole (js "x"); Text (js "/"); Hole (js "x")]).
  - reflexivity.
  - reflexivity.
  - reflexivity.
  - intros H. inversion H as [|? ? Hin _]. apply Hin. left. reflexivity.
Defined.

Lemma matches_lits s : matches (map Lit s) s [].
Proof. induction s as [|c s IH]; [constructor|]. now constructor. Qed.

Lemma matches_lits_inv s : forall path groups,
  matches (map Lit s) path groups -> path = s /\ groups = [].
Proof.
  induction s as [|c s IH]; intros path groups H; cbn [map] in H.
  - inversion H; subst. auto.
  - inversion H as [|c' re' s' g' Hm|]; subst. destruct (IH _ _ Hm) as [-> ->]. auto.
Qed.

(** What [escapeRegExp] returns is escaped text, and its escapes read back
    give the string. *)
Lemma escapeRegExp_literal s :
  literal_text (escapeRegExp s) = true /\ unescape (escapeRegExp s) = s.
Proof.
  rewrite escapeRegExp_flat. induction s as [|c s [IH1 IH2]]; [now split|].
  cbn [flat_map]. unfold escape_char at 1 3. destruct (reRegExpChar c) eqn:E.
  - cbn [app literal_text unescape]. rewrite N.eqb_refl, <- reRegExpChar_syntax, E.
    cbn [andb]. now rewrite IH2.
  - cbn [app literal_text unescape]. rewrite (plain_not_backslash c E).
    rewrite <- reRegExpChar_syntax, E. cbn [negb andb]. now rewrite IH2.
Qed.

(** A source with a syntax character that no backslash precedes is none
    that the model reads as literals. *)
Lemma RegExp_of_unescaped_text :
  RegExp (map Src (js "/a.b(c)")) = Throw Unsupported
  /\ RegExp (map Src (escapeRegExp (js "/a.b(c)"))) = Ok (map Lit (js "/a.b(c)")).
Proof. split; vm_compute; reflexivity. Qed.

(** X9. [escapeRegExp] makes every character of the pattern literal: it
    puts a backslash before every syntax character of the expression grammar
    and before no other character, so that a pattern without [{] compiles to
    the expression of its own text, whatever special characters it holds, and
    with such a pattern [fromUrl] throws the ParseError exactly when the
    pattern does not occur in the URL. *)
Theorem fromUrl_matches_a_plain_pattern_literally type s url :
  mem (ch "{") s = false ->
  RegExp (pathRegex s) = Ok (map Lit s)
  /\ (fromUrl type url (Some s) = Throw ParseError <->
      ~ exists pre post, url = pre ++ s ++ post)
  /\ literal_text (escapeRegExp s) = true
  /\ unescape (escapeRegExp s) = s.
Proof.
  intros Hs.
  assert (Hre : RegExp (pathRegex s) = Ok (map Lit s)).
  { pose proof (RegExp_render [Text s]) as H. unfold render, compiled in H.
    cbn [flat_map render_part items_of_part texts holes forallb] in H.
    rewrite !app_nil_r in H. apply H; [|reflexivity|constructor].
    unfold no_open_brace. now rewrite Hs. }
  split; [exact Hre|]. split; [|apply escapeRegExp_literal].
  rewrite fromUrl_eq. cbn [effective_pattern]. rewrite Hre. cbn [bind].
  split.
  - destruct (exec (map Lit s) url) as [[groups q]|] eqn:E.
    + intros H. apply populate_throw in H. destruct H.
    + intros _ (pre & post & ->).
      apply (proj1 (exec_None_iff _ _) E pre s post [] eq_refl). apply matches_lits.
  - intros H. destruct (exec (map Lit s) url) as [[groups q]|] eqn:E; [|reflexivity].
    elim H. unfold exec in E.
    destruct (search (map Lit s) url) as [[g rest]|] eqn:Es; [|discriminate].
    apply search_sound in Es. destruct Es as (pre & path & -> & Hm).
    apply matches_lits_inv in Hm. destruct Hm as [-> _]. eauto.
Qed.

(** The pattern /a.b(c) holds a dot and parentheses: /axb(c) is no instance
    of it. *)
Lemma fromUrl_matches_a_plain_pattern_literally_example :
  RegExp (pathRegex (js "/a.b(c)")) = Ok (map Lit (js "/a.b(c)"))
  /\ (fromUrl Examples.id_class (js "/axb(c)") (Some (js "/a.b(c)")) = Throw ParseError <->
      ~ exists pre post, js "/axb(c)" = pre ++ js "/a.b(c)" ++ post)
  /\ literal_text (escapeRegExp (js "/a.b(c)")) = true
  /\ unescape (escapeRegExp (js "/a.b(c)")) = js "/a.b(c)".
Proof.
  apply (fromUrl_matches_a_plain_pattern_literally Examples.id_class (js "/a.b(c)")
           (js "/axb(c)")).
  reflexivity.
Defined.

(** ** URLs of the shape of a pattern *)

Lemma match_instance raw parts : forall rest,
  delimited parts = true ->
  (forall k, In k (holes parts) ->
             raw k <> [] /\ forallb segment_char (raw k) = true) ->
  match rest with [] => true | c :: _ => negb (segment_char c) end = true ->
  match_here (compiled parts) (instance_of raw parts ++ rest)
  = Some (segments_of raw parts, rest).
Proof.
  induction parts as [|[s|k] parts IH]; intros rest Hd Hv Hr; [reflexivity| |].
  - unfold compiled, instance_of. cbn [flat_map items_of_part].
    rewrite <- app_assoc, match_here_lits. now apply IH.
  - destruct (Hv k (or_introl eq_refl)) as [Hne Hseg].
    assert (Hd' : delimited parts = true).
    { cbn [delimited] in Hd. destruct parts as [|[[|c s]|k'] parts']; try discriminate;
        [reflexivity|]. now apply andb_true_iff in Hd. }
    specialize (IH rest Hd' (fun k' H => Hv k' (or_intror H)) Hr).
    unfold compiled, instance_of, segments_of.
    cbn [flat_map items_of_part holes map app match_here strip_prefix].
    rewrite <- app_assoc. apply greedy_longest; [exact Hne | exact Hseg | |].
    + cbn [delimited] in Hd. destruct parts as [|[[|c s]|k'] parts']; try discriminate.
      * exact Hr.
      * cbn [flat_map app]. now apply andb_true_iff in Hd.
    + fold (instance_of raw parts). fold (compiled parts). rewrite IH. reflexivity.
Qed.

(** X8. For a pattern whose placeholders are different identifiers, each
    at the end of the pattern or before a [/] or a [?], [fromUrl] reads a URL
    of the shape of the pattern as that shape: every placeholder captures the
    text that stands at its place (non-empty, without [/] and [?]), whatever
    follows the shape is left out when it starts with [/], and read as the
    query string when it starts with [?]; a plain path field whose key is a
    placeholder receives that text decoded (the field tables keep no entry
    for a property called [__proto__], which is never assigned). *)
Theorem fromUrl_reads_the_segments type route parts (raw : jsstring -> jsstring) tail :
  effective_pattern type route = Some (render parts) ->
  forallb no_open_brace (texts parts) = true ->
  forallb identifier (holes parts) = true ->
  NoDup (holes parts) ->
  delimited parts = true ->
  (forall k, In k (holes parts) ->
             raw k <> [] /\ forallb segment_char (raw k) = true) ->
  match tail with [] => true | c :: _ => negb (segment_char c) end = true ->
  exec (compiled parts) (instance_of raw parts ++ tail)
  = Some (segments_of raw parts, query_tail tail)
  /\ fromUrl type (instance_of raw parts ++ tail) route
     = populate type (segments_of raw parts) (query_tail tail)
  /\ forall r f propertyKey,
       fromUrl type (instance_of raw parts ++ tail) route = Ok r ->
       In f (map fst (fields type)) ->
       f <> js "__proto__" ->
       get f (metadata type) = Some (Path propertyKey) ->
       In (nullish_or propertyKey f) (holes parts) ->
       exists v, decodeURIComponent (raw (nullish_or propertyKey f)) = Ok v
                 /\ prop r f = VString v.
Proof.
  intros Hp Ht Hi Hnd Hd Hv Htail.
  assert (Hexec : exec (compiled parts) (instance_of raw parts ++ tail)
                  = Some (segments_of raw parts, query_tail tail)).
  { unfold exec. rewrite (search_here _ _ (segments_of raw parts, tail)); [reflexivity|].
    now apply match_instance. }
  assert (Hfrom : fromUrl type (instance_of raw parts ++ tail) route
                  = populate type (segments_of raw parts) (query_tail tail)).
  { rewrite fromUrl_eq, Hp, (RegExp_render parts Ht Hi Hnd). cbn [bind].
    now rewrite Hexec. }
  split; [exact Hexec|]. split; [exact Hfrom|].
  intros r f pk Hr Hf Hname Hm Hk. rewrite Hfrom in Hr.
  pose proof (populate_path_field type _ _ r f _ Hr (own_path_field type f pk Hf Hname Hm))
    as Hread.
  assert (Hg : get (nullish_or pk f) (segments_of raw parts) = Some (raw (nullish_or pk f)))
    by apply (get_map_keys _ raw _ _ Hk).
  now rewrite (group_value_own _ _ _ Hg) in Hread.
Qed.

(** The class of users and /users/a%20b/settings?x=1: the placeholder id
    captures a%20b, and /settings?x=1 is left out, query string included. *)
Lemma fromUrl_reads_the_segments_example :
  let raw := fun _ : jsstring => js "a%20b" in
  let parts := [Text (js "/users/"); Hole (js "id")] in
  exec (compiled parts) (instance_of raw parts ++ js "/settings?x=1")
  = Some (segments_of raw parts, query_tail (js "/settings?x=1"))
  /\ fromUrl noted_class (instance_of raw parts ++ js "/settings?x=1") None
     = populate noted_class (segments_of raw parts) (query_tail (js "/settings?x=1"))
  /\ forall r f propertyKey,
       fromUrl noted_class (instance_of raw parts ++ js "/settings?x=1") None = Ok r ->
       In f (map fst (fields noted_class)) ->
       f <> js "__proto__" ->
       get f (metadata noted_class) = Some (Path propertyKey) ->
       In (nullish_or propertyKey f) (holes parts) ->
       exists v, decodeURIComponent (raw (nullish_or propertyKey f)) = Ok v
                 /\ prop r f = VString v.
Proof.
  apply (fromUrl_reads_the_segments noted_class None
           [Text (js "/users/"); Hole (js "id")] (fun _ => js "a%20b")
           (js "/settings?x=1")).
  - reflexivity.
  - reflexivity.
  - reflexivity.
  - repeat constructor. simpl. tauto.
  - reflexivity.
  - intros k _. split; [discriminate | reflexivity].
  - reflexivity.
Defined.

(** A property called [__proto__] that has the metadata of a path field is
    in no table: [fromUrl] leaves it as the constructor made it, whatever
    the placeholder of its key captures. *)
Lemma fromUrl_leaves_a_property_called_proto :
  fromUrl proto_class (js "/users/7") None = Ok (construct proto_class)
  /\ prop (construct proto_class) (js "__proto__") = VString (js "unset").
Proof. split; vm_compute; reflexivity. Qed.

(** ** The fragment of a URL *)

Lemma strip_prefix_extend body : forall s x,
  mem (ch "?") body = false ->
  strip_prefix body (s ++ ch "?" :: x)
  = option_map (fun s1 => s1 ++ ch "?" :: x) (strip_prefix body s).
Proof.
  induction body as [|c body IH]; intros s x Hb; [reflexivity|].
  unfold mem in Hb. cbn [existsb] in Hb. apply orb_false_iff in Hb.
  destruct Hb as [Hc Hb]. destruct s as [|d s]; cbn [app strip_prefix].
  - rewrite N.eqb_sym, Hc. reflexivity.
  - destruct (c =? d)%N; [now apply IH | reflexivity].
Qed.

Lemma greedy_extend A B (k : jsstring -> jsstring -> option A)
    (k' : jsstring -> jsstring -> option B) (f : A -> B) x s : forall run,
  (forall run t, k' run (t ++ ch "?" :: x) = option_map f (k run t)) ->
  greedy k' run (s ++ ch "?" :: x) = option_map f (greedy k run s).
Proof.
  induction s as [|c s IH]; intros run Hk; [reflexivity|].
  cbn [app greedy]. destruct (segment_char c); [|reflexivity].
  rewrite (IH _ Hk), Hk. now destruct (greedy k (run ++ [c]) s).
Qed.

Lemma match_here_extend re x : forall s,
  question_free re = true ->
  match_here re (s ++ ch "?" :: x)
  = option_map (fun m => (fst m, snd m ++ ch "?" :: x)) (match_here re s).
Proof.
  induction re as [|[c|name body] re IH]; intros s Hq; [reflexivity| |];
    cbn [question_free forallb question_free_item] in Hq;
    apply andb_true_iff in Hq; destruct Hq as [Hi Hq]; apply negb_true_iff in Hi.
  - destruct s as [|d s]; cbn [app match_here].
    + now rewrite Hi.
    + destruct (c =? d)%N; [now apply IH | reflexivity].
  - cbn [match_here]. rewrite (strip_prefix_extend body s x Hi).
    destruct (strip_prefix body s) as [s1|]; [|reflexivity]. cbn [option_map].
    apply greedy_extend. intros run t. rewrite (IH t Hq).
    now destruct (match_here re t) as [[g r]|].
Qed.

Lemma search_extend re x : forall s m,
  question_free re = true ->
  search re s = Some m ->
  search re (s ++ ch "?" :: x) = Some (fst m, snd m ++ ch "?" :: x).
Proof.
  induction s as [|c s IH]; intros m Hq H.
  - cbn [search] in H. destruct (match_here re []) as [m'|] eqn:E; [|discriminate].
    injection H as <-. apply search_here.
    now rewrite (match_here_extend re x [] Hq), E.
  - cbn [search] in H. destruct (match_here re (c :: s)) as [m'|] eqn:E.
    + injection H as <-. apply search_here.
      now rewrite (match_here_extend re x (c :: s) Hq), E.
    + cbn [app search].
      change (c :: s ++ ch "?" :: x) with ((c :: s) ++ ch "?" :: x).
      rewrite (match_here_extend re x (c :: s) Hq), E. cbn [option_map]. now apply IH.
Qed.

Lemma span_until p a c b :
  forallb p a = true -> p c = false -> span p (a ++ c :: b) = (a, c :: b).
Proof.
  intros Ha Hc. induction a as [|d a IH]; cbn [app span].
  - now rewrite Hc.
  - cbn [forallb] in Ha. apply andb_true_iff in Ha. destruct Ha as [Hd Ha].
    now rewrite Hd, (IH Ha).
Qed.

Lemma query_tail_fragment r q frag :
  mem (ch "?") r = false -> mem (ch "#") q = false ->
  query_tail (r ++ ch "?" :: q ++ ch "#" :: frag) = query_tail (r ++ ch "?" :: q).
Proof.
  intros Hr Hq. destruct r as [|c r]; cbn [app query_tail].
  - rewrite N.eqb_refl, span_until, span_all; try reflexivity.
    + unfold mem in Hq. clear -Hq. induction q as [|d q IH]; [reflexivity|].
      cbn [existsb forallb] in *. apply orb_false_iff in Hq. destruct Hq as [Hd Hq].
      rewrite N.eqb_sym, Hd. now apply IH.
    + unfold mem in Hq. clear -Hq. induction q as [|d q IH]; [reflexivity|].
      cbn [existsb forallb] in *. apply orb_false_iff in Hq. destruct Hq as [Hd Hq].
      rewrite N.eqb_sym, Hd. now apply IH.
  - unfold mem in Hr. cbn [existsb] in Hr. apply orb_false_iff in Hr.
    destruct Hr as [Hc _]. rewrite N.eqb_sym, Hc. reflexivity.
Qed.

(** X7. [fromUrl] does not read the fragment of a URL that has a query
    string: when the pattern has no literal [?] and the path of the URL holds
    an instance of the pattern, the URL path?query#fragment gives what
    path?query gives. *)
Theorem fromUrl_ignores_the_fragment type route pattern re p q frag :
  effective_pattern type route = Some pattern ->
  RegExp (pathRegex pattern) = Ok re ->
  question_free re = true ->
  mem (ch "?") p = false ->
  mem (ch "#") q = false ->
  (exists m, search re p = Some m) ->
  fromUrl type (p ++ ch "?" :: q ++ ch "#" :: frag) route
  = fromUrl type (p ++ ch "?" :: q) route.
Proof.
  intros Hp Hre Hq Hpq Hqh [[groups rest] Hm].
  assert (Hrest : mem (ch "?") rest = false).
  { apply search_sound in Hm. destruct Hm as (pre & path & -> & _).
    rewrite !mem_app in Hpq. apply orb_false_iff in Hpq. destruct Hpq as [_ Hpq].
    now apply orb_false_iff in Hpq. }
  rewrite !fromUrl_eq, Hp, Hre. cbn [bind]. unfold exec.
  rewrite (search_extend re _ p _ Hq Hm), (search_extend re _ p _ Hq Hm). cbn [fst snd].
  now rewrite (query_tail_fragment rest q frag Hrest Hqh).
Qed.

(** The profile class and a URL with a query string and a fragment. *)
Lemma fromUrl_ignores_the_fragment_example :
  fromUrl Examples.profile_class
          (js "/users/7/profile" ++ ch "?" :: js "t=x&happy=" ++ ch "#" :: js "top") None
  = fromUrl Examples.profile_class (js "/users/7/profile" ++ ch "?" :: js "t=x&happy=") None.
Proof.
  apply (fromUrl_ignores_the_fragment Examples.profile_class None
           (js "/users/{id}/profile") (compiled profile_parts)).
  - reflexivity.
  - reflexivity.
  - reflexivity.
  - reflexivity.
  - reflexivity.
  - eexists. vm_compute. reflexivity.
Defined.

(** ** What [toRelativePath] throws and what it writes *)

Lemma encodeURIComponent_cases v :
  encodable v \/ encodeURIComponent v = Throw URIError.
Proof.
  unfold encodable, encodeURIComponent.
  destruct (existsb is_surrogate (code_points v)); eauto.
Qed.

Lemma foldM_substitute_cases l : forall url,
  (exists u, foldM substitute l url = Ok u /\ Forall (fun kv => encodable (snd kv)) l)
  \/ (foldM substitute l url = Throw URIError
      /\ exists kv, In kv l /\ encodeURIComponent (snd kv) = Throw URIError).
Proof.
  induction l as [|[k v] l IH]; intros url; cbn [foldM].
  - left. exists url. split; [reflexivity | constructor].
  - change (substitute url (k, v))
      with (bind (encodeURIComponent v)
                 (fun e => Ok (replace_first (placeholder k) e url))).
    destruct (encodeURIComponent_cases v) as [[e He]|He]; rewrite He; cbn [bind].
    + destruct (IH (replace_first (placeholder k) e url)) as [(u & Hu & Hall)|(Hu & kv & Hin & Hkv)].
      * left. exists u. split; [exact Hu|]. constructor; [now exists e | exact Hall].
      * right. split; [exact Hu|]. exists kv. split; [now right | exact Hkv].
    + right. split; [reflexivity|]. exists (k, v). split; [now left | exact He].
Qed.

(** X10. [toRelativePath] throws two errors only: the URIError of
    [encodeURIComponent], exactly when a value of the path-parameter map holds
    an unpaired surrogate (whether or not the pattern has a placeholder for
    its key), and the error of the unfulfilled pattern.  The query map never
    makes it throw. *)
Theorem toRelativePath_errors (pattern : jsstring) (pathParams : record jsstring)
    (queryParams : option (record qvalue)) :
  (toRelativePath pattern pathParams queryParams = Throw URIError <->
   exists k v, In (k, v) pathParams /\ encodeURIComponent v = Throw URIError)
  /\ match toRelativePath pattern pathParams queryParams with
     | Throw e => e = URIError \/ e = PatternUnfulfilledError
     | Ok _ => True
     end.
Proof.
  unfold toRelativePath.
  destruct (foldM_substitute_cases (entries pathParams) pattern)
    as [(u & Hu & Hall)|(Hu & [k v] & Hin & Hkv)]; rewrite Hu; cbn [bind].
  - split.
    + split.
      * destruct (includes [ch "{"] u); [discriminate|].
        destruct queryParams as [qp|]; [|discriminate].
        now destruct (nonempty _).
      * intros (k & v & Hin & Hv). apply (proj2 (entries_In _ _ _)) in Hin.
        rewrite Forall_forall in Hall. destruct (Hall _ Hin) as [e He].
        cbn [snd] in He. congruence.
    + destruct (includes [ch "{"] u); [now right|].
      destruct queryParams as [qp|]; [|exact I]. now destruct (nonempty _).
  - split; [|now left]. split; [|reflexivity].
    intros _. exists k, v. split; [|exact Hkv]. now apply (proj1 (entries_In _ _ _)).
Qed.







(** ** What [toRelativeUrl] reads of an instance *)




Lemma collect_nothing obj names : forall acc,
  (forall f, In f names -> get f (metadata (constructor obj)) <> None ->
             is_nullish (prop obj f) = true) ->
  foldM (collect obj) names acc = Ok acc.
Proof.
  induction names as [|f names IH]; intros acc H; [reflexivity|]. cbn [foldM].
  assert (Hf : collect obj acc f = Ok acc).
  { unfold collect. destruct acc as [pp qp].
    destruct (get f (metadata (constructor obj))) as [meta|] eqn:Em; [|reflexivity].
    rewrite (H f (or_introl eq_refl)); [reflexivity|]. now rewrite Em. }
  rewrite Hf. cbn [bind]. apply IH. intros g Hg. apply H. now right.
Qed.

(** X14. An instance none of whose annotated properties holds a value (all
    are null or undefined) is serialized as the pattern itself, without a
    query string, when the pattern holds no [{]; when the pattern holds a
    [{], [toRelativeUrl] throws the error of the unfulfilled pattern. *)
Theorem toRelativeUrl_without_values obj pattern :
  (forall f, In f (map fst (props obj)) ->
             get f (metadata (constructor obj)) <> None ->
             is_nullish (prop obj f) = true) ->
  toRelativeUrl obj (Some pattern)
  = if mem (ch "{") pattern then Throw PatternUnfulfilledError else Ok pattern.
Proof.
  intros H. unfold toRelativeUrl. rewrite collect_nothing.
  - cbn [bind fst snd]. rewrite <- (includes_char (ch "{") pattern). reflexivity.
  - intros f Hf. apply H. now apply getOwnPropertyNames_In.
Qed.

(** The profile without values, serialized with its own pattern and with
    the pattern /users. *)
Lemma toRelativeUrl_without_values_example :
  toRelativeUrl blank_profile (Some (js "/users"))
  = if mem (ch "{") (js "/users") then Throw PatternUnfulfilledError else Ok (js "/users").
Proof.
  apply (toRelativeUrl_without_values blank_profile (js "/users")).
  intros f [<-|[<-|[<-|[]]]] _; reflexivity.
Defined.

(** ** The field tables of [fromUrl] *)

(** X13. [resolveFieldsMetadata] files every own property of the instance
    that carries routing metadata once, under its own name: a path field in
    the first table, with the key [propertyKey ?? propName] or the
    deserializer, a query field in the second, with its key and data type or
    the deserializer.  Properties without metadata and names that are no own
    property are in neither table, and no name is in both.  The tables are
    plain objects: the assignment for a property called [__proto__] stores
    nothing, and that name is in neither table. *)
Theorem resolveFieldsMetadata_files_each_field_once type f :
  get f (fst (resolveFieldsMetadata (construct type)))
  = (if existsb (eqb_str f) (map fst (fields type))
     then path_field_of (metadata type) f else None)
  /\ get f (snd (resolveFieldsMetadata (construct type)))
     = (if existsb (eqb_str f) (map fst (fields type))
        then query_field_of (metadata type) f else None)
  /\ NoDup (map fst (fst (resolveFieldsMetadata (construct type))))
  /\ NoDup (map fst (snd (resolveFieldsMetadata (construct type))))
  /\ (get f (fst (resolveFieldsMetadata (construct type))) = None
      \/ get f (snd (resolveFieldsMetadata (construct type))) = None).
Proof.
  pose proof (resolveFieldsMetadata_spec type f) as H. cbv zeta in H.
  destruct H as (Hp & Hq & Hnp & Hnq). repeat split; try assumption.
  rewrite Hp, Hq. unfold path_field_of, query_field_of.
  destruct (existsb (eqb_str f) (map fst (fields type))); [|now left].
  destruct (eqb_str f (js "__proto__")); [now left|].
  destruct (get f (metadata type)) as [[pk|ser de|pk dt|ser de]|]; auto.
Qed.

(** ** The hook for Next.js *)

Lemma lazy_bracket_length s : forall n r,
  Next.lazy_bracket s = Some (n, r) -> (List.length r < List.length s)%nat.
Proof.
  induction s as [|c s IH]; intros n r H; [discriminate|]. cbn [Next.lazy_bracket] in H.
  destruct (c =? ch "]")%N.
  - injection H as <- <-. simpl. lia.
  - destruct (line_terminator c); [discriminate|].
    destruct (Next.lazy_bracket s) as [[n' r']|] eqn:E; [|discriminate].
    injection H as <- <-. specialize (IH _ _ eq_refl). simpl. lia.
Qed.

Lemma replace_brackets_fuel fuel : forall s fuel',
  (List.length s <= fuel)%nat -> (List.length s <= fuel')%nat ->
  Next.replace_brackets fuel s = Next.replace_brackets fuel' s.
Proof.
  induction fuel as [|fuel IH]; intros s fuel' H H'.
  - destruct s; [|simpl in H; lia]. now destruct fuel'.
  - destruct s as [|c s]; [now destruct fuel'|].
    destruct fuel' as [|fuel']; [simpl in H'; lia|].
    cbn [Next.replace_brackets]. simpl in H, H'.
    destruct (c =? ch "[")%N; [|f_equal; apply IH; lia].
    destruct (Next.lazy_bracket s) as [[n rest]|] eqn:L.
    + apply lazy_bracket_length in L. do 3 f_equal. apply IH; lia.
    + f_equal. apply IH; lia.
Qed.

Lemma to_braces_cons c s :
  to_braces (c :: s)
  = if (c =? ch "[")%N then
      match Next.lazy_bracket s with
      | Some (n, rest) => [ch "{"] ++ n ++ [ch "}"] ++ to_braces rest
      | None => c :: to_braces s
      end
    else c :: to_braces s.
Proof.
  unfold to_braces. cbn [List.length Next.replace_brackets].
  destruct (c =? ch "[")%N; [|reflexivity].
  destruct (Next.lazy_bracket s) as [[n rest]|] eqn:L; [|reflexivity].
  apply lazy_bracket_length in L. do 3 f_equal. apply replace_brackets_fuel; lia.
Qed.

Lemma to_braces_text s t : mem (ch "[") s = false -> to_braces (s ++ t) = s ++ to_braces t.
Proof.
  unfold mem. induction s as [|c s IH]; [reflexivity|]. cbn [existsb app]. intros H.
  apply orb_false_iff in H. destruct H as [Hc Hs].
  rewrite to_braces_cons, N.eqb_sym, Hc. now rewrite (IH Hs).
Qed.

Lemma lazy_bracket_name k t :
  bracket_name k = true -> Next.lazy_bracket (k ++ ch "]" :: t) = Some (k, t).
Proof.
  unfold bracket_name, mem. induction k as [|c k IH]; cbn [existsb app Next.lazy_bracket].
  - intros _. now rewrite N.eqb_refl.
  - rewrite !negb_orb, !andb_true_iff. intros [[Hc Hk] [Hl Hls]].
    apply negb_true_iff in Hc, Hl. rewrite N.eqb_sym, Hc, Hl, IH; [reflexivity|].
    now rewrite Hk, Hls.
Qed.

Lemma to_braces_bracketed parts :
  forallb (fun s => negb (mem (ch "[") s)) (texts parts) = true ->
  forallb bracket_name (holes parts) = true ->
  to_braces (bracketed parts) = render parts.
Proof.
  induction parts as [|[s|k] parts IH]; intros Ht Hh; [reflexivity| |].
  - cbn [texts forallb] in Ht. apply andb_true_iff in Ht. destruct Ht as [Hs Ht].
    apply negb_true_iff in Hs.
    change (bracketed (Text s :: parts)) with (s ++ bracketed parts).
    change (render (Text s :: parts)) with (s ++ render parts).
    now rewrite (to_braces_text _ _ Hs), (IH Ht Hh).
  - cbn [holes forallb] in Hh. apply andb_true_iff in Hh. destruct Hh as [Hk Hh].
    change (bracketed (Hole k :: parts))
      with (([ch "["] ++ k ++ [ch "]"]) ++ bracketed parts).
    change (render (Hole k :: parts)) with (([ch "{"] ++ k ++ [ch "}"]) ++ render parts).
    rewrite <- !app_assoc. cbn [app].
    rewrite to_braces_cons, N.eqb_refl, (lazy_bracket_name k _ Hk).
    cbn [app]. now rewrite (IH Ht Hh).
Qed.

(** X15. [useRoute] turns the route of Next.js into a pattern before it
    calls [fromUrl]: every [[key]] becomes the placeholder [{key}] (text
    without [[], names without []] and line break), so the hook reads the
    path as [fromUrl] does with that pattern.  As it always passes a pattern
    of its own, it never throws the TypeError of a class without route. *)
Theorem useRoute_reads_the_route_of_the_router type asPath parts :
  forallb (fun s => negb (mem (ch "[") s)) (texts parts) = true ->
  forallb bracket_name (holes parts) = true ->
  Next.useRoute type asPath (bracketed parts) = fromUrl type asPath (Some (render parts))
  /\ Next.useRoute type asPath (bracketed parts) <> Throw TypeError.
Proof.
  intros Ht Hh. unfold Next.useRoute.
  change (Next.replace_brackets (List.length (bracketed parts)) (bracketed parts))
    with (to_braces (bracketed parts)).
  rewrite (to_braces_bracketed parts Ht Hh). split; [reflexivity|].
  rewrite fromUrl_eq. cbn [effective_pattern].
  destruct (RegExp (pathRegex (render parts))) as [re|e] eqn:Ere; cbn [bind].
  - destruct (exec re asPath) as [[groups q]|]; [|discriminate].
    intros H. apply populate_throw in H. destruct H.
  - apply RegExp_throw in Ere. destruct Ere; subst e; discriminate.
Qed.

(** The route /users/[id] of the router, for a class that [route] did not
    decorate. *)
Lemma useRoute_reads_the_route_of_the_router_example :
  Next.useRoute Examples.id_class (js "/users/7")
                (bracketed [Text (js "/users/"); Hole (js "id")])
  = fromUrl Examples.id_class (js "/users/7")
            (Some (render [Text (js "/users/"); Hole (js "id")]))
  /\ Next.useRoute Examples.id_class (js "/users/7")
                   (bracketed [Text (js "/users/"); Hole (js "id")])
     <> Throw TypeError.
Proof.
  apply (useRoute_reads_the_route_of_the_router Examples.id_class (js "/users/7")
           [Text (js "/users/"); Hole (js "id")]).
  - reflexivity.
  - reflexivity.
Defined.

(** ** Query parameters, written and read back *)












(** ** The URIError of [fromUrl] *)

(** The text of a member of [Object.prototype] holds no escape. *)
Lemma member_text_decodes name :
  inherited name = true -> decodeURIComponent (member_text name) = Ok (member_text name).
Proof.
  unfold inherited. intros H. apply existsb_exists in H. destruct H as (k & Hk & E).
  apply eqb_str_spec in E. subst k. unfold object_prototype_names in Hk.
  repeat (destruct Hk as [<-|Hk]; [vm_compute; reflexivity|]). destruct Hk.
Qed.

Lemma populate_URIError type groups q :
  populate type groups q = Throw URIError ->
  exists f name raw,
    get f (fst (resolveFieldsMetadata (construct type))) = Some (PathKey name)
    /\ get name groups = Some raw
    /\ decodeURIComponent raw = Throw URIError.
Proof.
  rewrite populate_cases.
  destruct (foldM (read_path groups) _ _) as [tmp1|e1] eqn:E1; simpl.
  - intros H. exfalso.
    apply (foldM_throw _ _ _ (fun e => e <> URIError)) in H; [now apply H|].
    clear H. intros a s e H. apply read_query_throw in H.
    destruct H as [(n & dt & _ & -> & _)|[what ->]]; discriminate.
  - intros [= ->]. destruct (resolveFieldsMetadata_spec type []) as (_ & _ & Hnd1 & _).
    destruct (foldM_throw_at _ _ (read_path_frame groups) _ _ _
                             (entries_NoDup _ _ Hnd1) E1)
      as (k & x & t0 & Hin & Hstep & H0).
    apply (proj1 (entries_In _ _ _)) in Hin. apply (NoDup_get _ _ _ _ Hnd1) in Hin.
    unfold read_path in Hstep. destruct x as [name|deserialize].
    + destruct (group_value groups name) as [raw|] eqn:Eg.
      * destruct (decodeURIComponent raw) as [v|e] eqn:Ed; cbn [bind] in Hstep;
          [discriminate|].
        injection Hstep as ->. exists k, name, raw. split; [exact Hin|].
        split; [|exact Ed]. destruct groups as [|g groups]; [|exact Eg].
        cbn [group_value] in Eg. destruct (inherited name) eqn:Ei; [|discriminate].
        injection Eg as <-. rewrite (member_text_decodes name Ei) in Ed. discriminate.
      * destruct (negb (is_nullish (prop t0 k))); discriminate.
    + destruct (call (deserialize groups)) as [v|e] eqn:Ec; cbn [bind] in Hstep;
        [discriminate|].
      injection Hstep as ->. apply call_throw in Ec. destruct Ec as [what [=]].
Qed.

(** X17. For a class whose annotated fields are all plain (no serde
    functions), a URIError of [fromUrl] comes from the path and never from
    the query string: when [fromUrl] throws it, the URL matched the pattern
    and the text that the placeholder of a plain path field captured holds an
    escape that [decodeURIComponent] rejects.  ([URLSearchParams] decodes the
    query string without throwing.) *)
Theorem fromUrl_URIError_is_a_path_escape type url route :
  plain_fields type ->
  fromUrl type url route = Throw URIError ->
  exists pattern re groups q f propertyKey raw,
    effective_pattern type route = Some pattern
    /\ RegExp (pathRegex pattern) = Ok re
    /\ exec re url = Some (groups, q)
    /\ In f (map fst (fields type))
    /\ get f (metadata type) = Some (Path propertyKey)
    /\ get (nullish_or propertyKey f) groups = Some raw
    /\ decodeURIComponent raw = Throw URIError.
Proof.
  intros _ H.
  destruct (fromUrl_populate type url route _ H) as (pattern & re & groups & q & Hp & Hre & He & Hpop).
  { left. now intros e [= <-]. }
  destruct (populate_URIError _ _ _ Hpop) as (f & name & raw & Hf & Hg & Hd).
  destruct (path_field_own _ _ _ Hf) as (pk & Hown & Hm & <-).
  exists pattern, re, groups, q, f, pk, raw. auto 10.
Qed.

(** The class with a note and /users/%zz?x=%zz: the escape of the path is
    rejected. *)
Lemma fromUrl_URIError_is_a_path_escape_example :
  exists pattern re groups q f propertyKey raw,
    effective_pattern noted_class None = Some pattern
    /\ RegExp (pathRegex pattern) = Ok re
    /\ exec re (js "/users/%zz?x=%zz") = Some (groups, q)
    /\ In f (map fst (fields noted_class))
    /\ get f (metadata noted_class) = Some (Path propertyKey)
    /\ get (nullish_or propertyKey f) groups = Some raw
    /\ decodeURIComponent raw = Throw URIError.
Proof.
  apply (fromUrl_URIError_is_a_path_escape noted_class (js "/users/%zz?x=%zz") None).
  - intros f m Hm. unfold noted_class in Hm. cbn [metadata get] in Hm.
    destruct (eqb_str (js "id") f); [|discriminate]. now injection Hm as <-.
  - vm_compute. reflexivity.
Defined.
